(** * dom5: traversal, querying and mutation of parse5 trees

    A shallow embedding of the dom5 sources (dom5.js, dom5.ts,
    src/iteration.ts, src/walking.ts).  A parse5 tree is a graph of mutable
    JavaScript objects linked by [childNodes] arrays and [parentNode]
    back-references, so it is modelled as a store of node records addressed
    by object identity; every function of the sources becomes a function on
    that store. *)

From Stdlib Require Import ZArith Lia Ascii.
From stdpp Require Import base list strings.

Local Open Scope Z_scope.
Local Open Scope nat_scope.

#[local] Set Warnings "-register-all".

(** ** Node objects and the object store *)

(** Object identity: the position of the object in the store, in
    allocation order. *)
Abbreviation id := nat.

(** What a field that refers to an object may hold: nothing (the field
    is absent, or [undefined]), [null], or an object.  iteration.ts and
    walking.ts type a missing [parentNode] as [undefined]; the constructors
    and the mutations of dom5.ts write [null]. *)
Inductive ref :=
| Undefined
| Null
| Obj (n : id).

#[global] Instance ref_eq_dec : EqDecision ref.
Proof. solve_decision. Defined.

(** [if (r)]: the object of a reference that is truthy. *)
Definition truthy (r : ref) : option id :=
  match r with
  | Obj n => Some n
  | Undefined | Null => None
  end.

(** The fields of a parse5 node that the sources read or write.
    [tagName] and [childNodes] are optional, and [None] is the absent
    field; no function of the sources writes [null] to them.  [value] and
    [data] are read only on text and comment nodes, where parse5 types them
    as strings. *)
Record node := mkNode {
  nodeName : string;
  tagName : option string;
  value : string;
  data : string;
  childNodes : option (list id);
  parentNode : ref
}.

Abbreviation store := (list node).

Definition with_childNodes (cs : option (list id)) (nd : node) : node :=
  mkNode (nodeName nd) (tagName nd) (value nd) (data nd) cs (parentNode nd).

Definition with_parentNode (p : ref) (nd : node) : node :=
  mkNode (nodeName nd) (tagName nd) (value nd) (data nd) (childNodes nd) p.

(** [n.childNodes = cs] and [n.parentNode = p] on the object [n]. *)
Definition set_childNodes (n : id) (cs : list id) (s : store) : store :=
  alter (with_childNodes (Some cs)) n s.

Definition set_parentNode (n : id) (p : ref) (s : store) : store :=
  alter (with_parentNode p) n s.

Definition with_value (v : string) (nd : node) : node :=
  mkNode (nodeName nd) (tagName nd) v (data nd) (childNodes nd) (parentNode nd).

Definition with_data (d : string) (nd : node) : node :=
  mkNode (nodeName nd) (tagName nd) (value nd) d (childNodes nd) (parentNode nd).

(** ** Results of calls: a value, an exception, or fuel exhausted *)

Inductive error :=
| TypeError
| InconsistentTree (msg : string).

Inductive res (A : Type) :=
| Ok (a : A)
| Throw (e : error)
| OutOfFuel.
Arguments Ok {A} a.
Arguments Throw {A} e.
Arguments OutOfFuel {A}.

#[global] Instance res_ret : MRet res := λ A a, Ok a.

#[global] Instance res_bind : MBind res := λ A B k r,
  match r with
  | Ok a => k a
  | Throw e => Throw e
  | OutOfFuel => OutOfFuel
  end.

(** Reading a property of the object [n]; a reference outside the store
    plays the role of [undefined], whose property reads throw. *)
Definition deref (s : store) (n : id) : res node :=
  match s !! n with
  | Some nd => Ok nd
  | None => Throw TypeError
  end.

(** Reading a property of a possibly absent array or object. *)
Definition defined {A} (o : option A) : res A :=
  match o with
  | Some a => Ok a
  | None => Throw TypeError
  end.

(** ** JavaScript arrays *)

(** [arr.indexOf(x)]: the first position of [x], or -1. *)
Definition indexOf (arr : list id) (x : id) : Z :=
  match list_find (λ y, y = x) arr with
  | Some (i, _) => Z.of_nat i
  | None => (-1)%Z
  end.

(** [arr[index]] for an integer index; [None] is [undefined]. *)
Definition at_index {A} (arr : list A) (index : Z) : option A :=
  if (index <? 0)%Z then None else arr !! Z.to_nat index.

(** The actual start position of [arr.splice(start, ...)]: a negative
    start counts from the end, and the result is clamped to the array. *)
Definition splice_start (len : nat) (start : Z) : nat :=
  if (start <? 0)%Z then Z.to_nat (Z.max (Z.of_nat len + start) 0)
  else Nat.min (Z.to_nat start) len.

(** [arr.splice(start, deleteCount, ...items)], as the new content of
    [arr]. *)
Definition splice {A} (arr : list A) (start : Z) (deleteCount : nat)
    (items : list A) : list A :=
  let st := splice_start (length arr) start in
  take st arr ++ items ++ drop (st + deleteCount) arr.

(** ** JavaScript strings *)

(** [str.toLowerCase()] is a method of the engine, which follows the
    Unicode case mapping; the functions that call it are given over any
    such function. *)
Class ToLowerCase := toLowerCase : string → string.

(** The case mapping on strings of ASCII characters, on which the
    definitions are run: the letters A to Z are mapped to a to z. *)
Definition ascii_lower (c : Ascii.ascii) : Ascii.ascii :=
  let n := Ascii.nat_of_ascii c in
  if (65 <=? n) && (n <=? 90) then Ascii.ascii_of_nat (n + 32) else c.

Fixpoint ascii_toLowerCase (str : string) : string :=
  match str with
  | EmptyString => EmptyString
  | String c str' => String (ascii_lower c) (ascii_toLowerCase str')
  end.

(** [str.split(' ')]: the pieces between the spaces, empty ones included;
    the empty string has the single piece [""]. *)
Fixpoint split (str : string) : list string :=
  match str with
  | EmptyString => [EmptyString]
  | String c str' =>
      if Ascii.eqb c " "%char then EmptyString :: split str'
      else
        match split str' with
        | piece :: pieces => String c piece :: pieces
        | [] => [String c EmptyString]
        end
  end.

(** [arr.indexOf(x)] on an array of strings. *)
Definition indexOfString (arr : list string) (x : string) : Z :=
  match list_find (λ y, y = x) arr with
  | Some (i, _) => Z.of_nat i
  | None => (-1)%Z
  end.

(** ** Generators

    A generator that is run to its end has yielded a finite sequence and
    then returned, thrown, or (in the model) run out of fuel.  A consumer
    that stops pulling early sees only a prefix of the sequence. *)

Inductive stop :=
| Done
| Thrown (e : error)
| Starved.

Definition gen (A : Type) : Type := list A * stop.

Definition gen_done {A} : gen A := ([], Done).
Definition gen_yield {A} (x : A) : gen A := ([x], Done).

(** Sequencing: the second generator runs only if the first returns. *)
Definition gen_seq {A} (g1 g2 : gen A) : gen A :=
  match g1.2 with
  | Done => (g1.1 ++ g2.1, g2.2)
  | _ => g1
  end.

(** [for (const x of xs) yield* body(x)] over an array. *)
Definition gen_for {A B} (xs : list B) (body : B → gen A) : gen A :=
  foldr (λ x rest, gen_seq (body x) rest) gen_done xs.

(** [for (const x of g) yield* body(x)] over another generator. *)
Definition gen_for_gen {A B} (g : gen B) (body : B → gen A) : gen A :=
  gen_seq (gen_for g.1 body) ([], g.2).

(** ** Node kinds (dom5.ts, dom5.js) *)

Definition isDocument (nd : node) : bool :=
  String.eqb (nodeName nd) "#document".

Definition isDocumentFragment (nd : node) : bool :=
  String.eqb (nodeName nd) "#document-fragment".

(** [node.nodeName === node.tagName] *)
Definition isElement (nd : node) : bool :=
  match tagName nd with
  | Some t => String.eqb (nodeName nd) t
  | None => false
  end.

Definition isTextNode (nd : node) : bool :=
  String.eqb (nodeName nd) "#text".

Definition isCommentNode (nd : node) : bool :=
  String.eqb (nodeName nd) "#comment".

(** A predicate is a JavaScript function from a node to a boolean; it may
    read the store, throw, or fail to terminate. *)
Definition Predicate := store → id → res bool.

(** ** src/iteration.ts *)

Module Iteration.

Definition GetChildNodes := id → option (list id).

Definition defaultChildNodes (s : store) : GetChildNodes :=
  λ node, s !! node ≫= childNodes.

(** [reversedView(arr, initialIndex)]; both call sites pass an
    [initialIndex] below [arr.length]. *)
Definition reversedView {A} (arr : list A) (initialIndex : Z) : list A :=
  reverse (take (Z.to_nat (initialIndex + 1)) arr).

Fixpoint depthFirst (fuel : nat) (getChildNodes : GetChildNodes) (node : id)
    : gen id :=
  match fuel with
  | 0 => ([], Starved)
  | S fuel' =>
      gen_seq (gen_yield node)
        match getChildNodes node with
        | None => gen_done
        | Some childNodes =>
            gen_for childNodes (depthFirst fuel' getChildNodes)
        end
  end.

Fixpoint depthFirstReversed (fuel : nat) (getChildNodes : GetChildNodes)
    (node : id) : gen id :=
  match fuel with
  | 0 => ([], Starved)
  | S fuel' =>
      gen_seq
        match getChildNodes node with
        | Some childNodes =>
            gen_for (reversedView childNodes (Z.of_nat (length childNodes) - 1))
                    (depthFirstReversed fuel' getChildNodes)
        | None => gen_done
        end
        (gen_yield node)
  end.

(** [previousSiblings(node)] returns at once only where [parentNode] is
    [undefined]; reading [childNodes] of [null] throws. *)
Definition previousSiblings (s : store) (node : id) : gen id :=
  match s !! node with
  | None => ([], Thrown TypeError)
  | Some nd =>
      match parentNode nd with
      | Undefined => gen_done
      | Null => ([], Thrown TypeError)
      | Obj parent =>
          match s !! parent with
          | None => ([], Thrown TypeError)
          | Some pd =>
              match childNodes pd with
              | None =>
                  ([], Thrown (InconsistentTree
                     "Inconsistent parse5 tree: parent does not have children"))
              | Some siblings =>
                  let index := indexOf siblings node in
                  if (index =? -1)%Z then
                    ([], Thrown (InconsistentTree
                       "Inconsistent parse5 tree: parent does not know about child"))
                  else (reversedView siblings (index - 1), Done)
              end
          end
      end
  end.

(** [ancestors(node)]: the loop runs while [currNode] is not
    [undefined], so a [null] is yielded like an object, and the read of its
    [parentNode] then throws.  A reference outside the store plays the
    role of [undefined]. *)
Fixpoint ancestors (fuel : nat) (s : store) (currNode : ref) : gen ref :=
  match fuel with
  | 0 => ([], Starved)
  | S fuel' =>
      match currNode with
      | Undefined => gen_done
      | Null => gen_seq (gen_yield Null) ([], Thrown TypeError)
      | Obj n =>
          match s !! n with
          | Some nd =>
              gen_seq (gen_yield (Obj n)) (ancestors fuel' s (parentNode nd))
          | None => gen_done
          end
      end
  end.

(** [treeMap(node, mapfn, getChildNodes)]; an omitted [getChildNodes]
    lets [depthFirst] use its default. *)
Definition treeMap {U} (fuel : nat) (s : store) (node : id)
    (mapfn : id → gen U) (getChildNodes : option GetChildNodes) : gen U :=
  gen_for_gen
    (depthFirst fuel (default (defaultChildNodes s) getChildNodes) node)
    mapfn.

End Iteration.

(** ** src/walking.ts *)

Module Walking.

Fixpoint find_in {A} (xs : list A) (predicate : A → res bool)
    : res (option A) :=
  match xs with
  | [] => Ok None
  | x :: xs' =>
      b ← predicate x ;
      if b : bool then Ok (Some x) else find_in xs' predicate
  end.

(** [find(iter, predicate)]: pulls values until one matches; the way the
    generator ends matters only when none does. *)
Definition find {A} (iter : gen A) (predicate : A → res bool)
    : res (option A) :=
  r ← find_in iter.1 predicate ;
  match r : option A with
  | Some x => Ok (Some x)
  | None =>
      match iter.2 with
      | Done => Ok None
      | Thrown e => Throw e
      | Starved => OutOfFuel
      end
  end.

Fixpoint filter_in {A} (xs : list A) (predicate : A → res bool)
    (matches : list A) : res (list A) :=
  match xs with
  | [] => Ok matches
  | x :: xs' =>
      b ← predicate x ;
      filter_in xs' predicate (if b : bool then matches ++ [x] else matches)
  end.

(** [filter(iter, predicate, matches)]: consumes the whole generator. *)
Definition filter {A} (iter : gen A) (predicate : A → res bool)
    (matches : list A) : res (list A) :=
  r ← filter_in iter.1 predicate matches ;
  match iter.2 with
  | Done => Ok r
  | Thrown e => Throw e
  | Starved => OutOfFuel
  end.

Definition nodeWalk (fuel : nat) (s : store) (node : id)
    (predicate : Predicate) (getChildNodes : Iteration.GetChildNodes)
    : res (option id) :=
  find (Iteration.depthFirst fuel getChildNodes node) (predicate s).

Definition nodeWalkAll (fuel : nat) (s : store) (node : id)
    (predicate : Predicate) (matches : list id)
    (getChildNodes : Iteration.GetChildNodes) : res (list id) :=
  filter (Iteration.depthFirst fuel getChildNodes node) (predicate s) matches.

Fixpoint iteratePrior (fuel : nat) (s : store) (node : id) : gen id :=
  match fuel with
  | 0 => ([], Starved)
  | S fuel' =>
      gen_seq
        (gen_for_gen (Iteration.previousSiblings s node)
           (Iteration.depthFirstReversed fuel' (Iteration.defaultChildNodes s)))
        match s !! node with
        | None => ([], Thrown TypeError)
        | Some nd =>
            match parentNode nd with
            | Obj parent =>
                gen_seq (gen_yield parent) (iteratePrior fuel' s parent)
            | Undefined | Null => gen_done
            end
        end
  end.

Definition iteratePriorIncludingNode (fuel : nat) (s : store) (node : id)
    : gen id :=
  gen_seq (gen_yield node) (iteratePrior fuel s node).

(** Returns [undefined] where [find] returns [null]; both are [None]. *)
Definition nodeWalkPrior (fuel : nat) (s : store) (node : id)
    (predicate : Predicate) : res (option id) :=
  find (iteratePrior fuel s node) (predicate s).

Definition nodeWalkAllPrior (fuel : nat) (s : store) (node : id)
    (predicate : Predicate) (matches : list id) : res (list id) :=
  filter (iteratePriorIncludingNode fuel s node) (predicate s) matches.

(** A predicate called on a value that [ancestors] yields: [on_null] is
    what it does when handed [null]. *)
Definition call_on (predicate : Predicate) (on_null : res bool) (s : store)
    (r : ref) : res bool :=
  match r with
  | Obj n => predicate s n
  | Undefined | Null => on_null
  end.

(** Returns [undefined] where [find] returns [null], be it for no match
    or for a yielded [null] that the predicate accepts; both are [None]. *)
Definition nodeWalkAncestors (fuel : nat) (s : store) (node : id)
    (predicate : Predicate) (on_null : res bool) : res (option id) :=
  r ← find (Iteration.ancestors fuel s (Obj node))
           (call_on predicate on_null s);
  Ok (r ≫= truthy).

(** [Array.from(iter)]: the values of a generator run to its end. *)
Definition array_from {A} (iter : gen A) : res (list A) :=
  match iter.2 with
  | Done => Ok iter.1
  | Thrown e => Throw e
  | Starved => OutOfFuel
  end.

(** The array a call of [mapfn] returns, as the iterable [yield*] reads. *)
Definition iterate {A} (r : res (list A)) : gen A :=
  match r with
  | Ok l => (l, Done)
  | Throw e => ([], Thrown e)
  | OutOfFuel => ([], Starved)
  end.

Definition treeMap {U} (fuel : nat) (s : store) (node : id)
    (mapfn : store → id → res (list U)) : res (list U) :=
  array_from (Iteration.treeMap fuel s node (λ n, iterate (mapfn s n)) None).

End Walking.

(** A predicate that only inspects the node object itself. *)
Definition on_node (f : node → bool) : Predicate :=
  λ s n, nd ← deref s n; Ok (f nd).

(** ** dom5.js *)

Module Dom5Js.

(** [normalizeTextContent(node)]: the values of the direct text-node
    children of an element, concatenated. *)
Definition normalizeTextContent (s : store) (node : id) : res string :=
  nd ← deref s node;
  if isElement nd then
    cs ← defined (childNodes nd);
    foldl (λ acc cn,
             text ← acc;
             cd ← deref s cn;
             if isTextNode cd then Ok (text +:+ value cd) else Ok text)
          (Ok "") cs
  else Ok "".

Definition hasTextValue (v : string) : Predicate :=
  λ s node,
    nd ← deref s node;
    if isElement nd then
      text ← normalizeTextContent s node; Ok (String.eqb text v)
    else if isTextNode nd then Ok (String.eqb (value nd) v)
    else if isCommentNode nd then Ok (String.eqb (data nd) v)
    else Ok false.

Fixpoint OR (rules : list Predicate) : Predicate :=
  λ s node,
    match rules with
    | [] => Ok false
    | rule :: rules' =>
        b ← rule s node;
        if b : bool then Ok true else OR rules' s node
    end.

Fixpoint AND (rules : list Predicate) : Predicate :=
  λ s node,
    match rules with
    | [] => Ok true
    | rule :: rules' =>
        b ← rule s node;
        if b : bool then AND rules' s node else Ok false
    end.

(** [getTextContent(element)]: iterating a missing [childNodes] throws. *)
Fixpoint getTextContent (fuel : nat) (s : store) (element : id)
    : res string :=
  match fuel with
  | 0 => OutOfFuel
  | S fuel' =>
      ed ← deref s element;
      cs ← defined (childNodes ed);
      foldl (λ acc child,
               content ← acc;
               cd ← deref s child;
               if isTextNode cd then Ok (content +:+ value cd)
               else
                 below ← getTextContent fuel' s child;
                 Ok (content +:+ below))
            (Ok "") cs
  end.

(** [setTextContent(element, value)]: the new text node is the object
    literal of the source, which has no [parentNode]. *)
Definition setTextContent (element : id) (v : string) (s : store)
    : res store :=
  _ ← deref s element;
  let tn := length s in
  Ok (set_childNodes element [tn]
        (s ++ [mkNode "#text" None v "" None Undefined])).

End Dom5Js.

(** ** dom5.ts *)

Module Dom5Ts.

Fixpoint OR (rules : list Predicate) : Predicate :=
  λ s node,
    match rules with
    | [] => Ok false
    | rule :: rules' =>
        b ← rule s node;
        if b : bool then Ok true else OR rules' s node
    end.

Fixpoint AND (rules : list Predicate) : Predicate :=
  λ s node,
    match rules with
    | [] => Ok true
    | rule :: rules' =>
        b ← rule s node;
        if b : bool then AND rules' s node else Ok false
    end.

Definition NOT (predicateFn : Predicate) : Predicate :=
  λ s node, b ← predicateFn s node; Ok (negb b).

Fixpoint nodeWalkAll (fuel : nat) (s : store) (node : id)
    (predicate : Predicate) (matches : list id) : res (list id) :=
  match fuel with
  | 0 => OutOfFuel
  | S fuel' =>
      b ← predicate s node;
      let matches := if b : bool then matches ++ [node] else matches in
      nd ← deref s node;
      match childNodes nd with
      | Some cs =>
          foldl (λ acc child,
                   m ← acc; nodeWalkAll fuel' s child predicate m)
                (Ok matches) cs
      | None => Ok matches
      end
  end.

Fixpoint getTextContent (fuel : nat) (s : store) (node : id) : res string :=
  match fuel with
  | 0 => OutOfFuel
  | S fuel' =>
      nd ← deref s node;
      if isCommentNode nd then Ok (data nd)
      else if isTextNode nd then Ok (value nd)
      else
        subtree ← nodeWalkAll fuel' s node (on_node isTextNode) [];
        texts ← mapM (getTextContent fuel' s) subtree;
        Ok (String.concat "" texts)
  end.

Definition hasTextValue (fuel : nat) (v : string) : Predicate :=
  λ s node, text ← getTextContent fuel s node; Ok (String.eqb text v).

(** The loop over the children in [nodeWalk]: it stops at the first child
    under which a match is found. *)
Fixpoint walk_children {St} (rec : id → St → res (option id * St))
    (cs : list id) (st : St) : res (option id * St) :=
  match cs with
  | [] => Ok (None, st)
  | child :: cs' =>
      r ← rec child st;
      match r.1 with
      | Some m => Ok (Some m, r.2)
      | None => walk_children rec cs' r.2
      end
  end.

(** [nodeWalk(node, predicate)] for a predicate that is a closure: its
    calls may assign to the variables it closes over, whose content is the
    state [St] threaded through the walk. *)
Fixpoint nodeWalkSt {St} (fuel : nat) (s : store) (node : id)
    (predicate : store → id → St → res (bool * St)) (st : St)
    : res (option id * St) :=
  match fuel with
  | 0 => OutOfFuel
  | S fuel' =>
      r ← predicate s node st;
      if r.1 : bool then Ok (Some node, r.2)
      else
        nd ← deref s node;
        match childNodes nd with
        | Some cs =>
            walk_children (λ child, nodeWalkSt fuel' s child predicate) cs r.2
        | None => Ok (None, r.2)
        end
  end.

(** [nodeWalk(node, predicate)] for a predicate without such variables. *)
Definition nodeWalk (fuel : nat) (s : store) (node : id)
    (predicate : Predicate) : res (option id) :=
  r ← nodeWalkSt fuel s node
        (λ s n (_ : unit), b ← predicate s n; Ok (b, tt)) tt;
  Ok r.1.

(** [treeMap(node, mapfn)]: the predicate handed to [nodeWalk] appends to
    [results] and returns [false]. *)
Definition treeMap {U} (fuel : nat) (s : store) (node : id)
    (mapfn : store → id → res (list U)) : res (list U) :=
  r ← nodeWalkSt fuel s node
        (λ s n results, us ← mapfn s n; Ok (false, results ++ us)) [];
  Ok r.2.

Definition query (fuel : nat) (s : store) (node : id)
    (predicate : Predicate) : res (option id) :=
  let elementPredicate := AND [on_node isElement; predicate] in
  nodeWalk fuel s node elementPredicate.

Definition queryAll (fuel : nat) (s : store) (node : id)
    (predicate : Predicate) (matches : list id) : res (list id) :=
  let elementPredicate := AND [on_node isElement; predicate] in
  nodeWalkAll fuel s node elementPredicate matches.

(** [parent.childNodes.slice(0, idx)] *)
Definition slice_to {A} (arr : list A) (idx : Z) : list A :=
  take (splice_start (length arr) idx) arr.

(** The loop over the earlier siblings in [nodeWalkPrior]: [Some] is the
    node returned from inside the loop.  The result of the recursive call
    on a sibling is assigned to [found] and never read. *)
Fixpoint walk_siblings (rec : id → res (option id)) (s : store)
    (predicate : Predicate) (siblings : list id) : res (option id) :=
  match siblings with
  | [] => Ok None
  | sibling :: rest =>
      b ← predicate s sibling;
      if b : bool then Ok (Some sibling)
      else _ ← rec sibling; walk_siblings rec s predicate rest
  end.

Fixpoint nodeWalkPrior (fuel : nat) (s : store) (node : id)
    (predicate : Predicate) : res (option id) :=
  match fuel with
  | 0 => OutOfFuel
  | S fuel' =>
      nd ← deref s node;
      match parentNode nd with
      | Obj parent =>
          pd ← deref s parent;
          cs ← defined (childNodes pd);
          let idx := indexOf cs node in
          let siblings := slice_to cs idx in
          r ← walk_siblings (λ sib, nodeWalkPrior fuel' s sib predicate)
                s predicate (reverse siblings);
          match r : option id with
          | Some sibling => Ok (Some sibling)
          | None =>
              b ← predicate s parent;
              if b : bool then Ok (Some parent)
              else nodeWalkPrior fuel' s parent predicate
          end
      | Undefined | Null => Ok None
      end
  end.

(** [_reverseNodeWalkAll(node, predicate, matches)]: the children from the
    last to the first, each walked by [nodeWalkAll], then the node. *)
Definition _reverseNodeWalkAll (fuel : nat) (s : store) (node : id)
    (predicate : Predicate) (matches : list id) : res (list id) :=
  nd ← deref s node;
  matches ←
    match childNodes nd with
    | Some cs =>
        foldl (λ acc child,
                 m ← acc; nodeWalkAll fuel s child predicate m)
              (Ok matches) (reverse cs)
    | None => Ok matches
    end;
  b ← predicate s node;
  Ok (if b : bool then matches ++ [node] else matches).

Fixpoint nodeWalkAllPrior (fuel : nat) (s : store) (node : id)
    (predicate : Predicate) (matches : list id) : res (list id) :=
  match fuel with
  | 0 => OutOfFuel
  | S fuel' =>
      b ← predicate s node;
      let matches := if b : bool then matches ++ [node] else matches in
      nd ← deref s node;
      match parentNode nd with
      | Obj parent =>
          pd ← deref s parent;
          cs ← defined (childNodes pd);
          let idx := indexOf cs node in
          let siblings := slice_to cs idx in
          matches ←
            foldl (λ acc sibling,
                     m ← acc;
                     _reverseNodeWalkAll fuel' s sibling predicate m)
                  (Ok matches) (reverse siblings);
          nodeWalkAllPrior fuel' s parent predicate matches
      | Undefined | Null => Ok matches
      end
  end.

(** [newTextNode(value)]: the record of a fresh text node. *)
Definition newTextNode (v : string) : node :=
  mkNode "#text" None v "" None Null.

Definition setTextContent (node : id) (v : string) (s : store) : res store :=
  nd ← deref s node;
  if isCommentNode nd then Ok (alter (with_data v) node s)
  else if isTextNode nd then Ok (alter (with_value v) node s)
  else
    let tn := length s in
    let s1 := s ++ [with_parentNode (Obj node) (newTextNode v)] in
    Ok (set_childNodes node [tn] s1).

Definition collapseTextRange (fuel : nat) (parent : id) (start end_ : Z)
    (s : store) : res store :=
  pd ← deref s parent;
  cs ← defined (childNodes pd);
  texts ← mapM (λ i, c ← defined (at_index cs i); getTextContent fuel s c)
               (seqZ start (end_ - start + 1));
  let text := String.concat "" texts in
  let s1 := set_childNodes parent
              (splice cs start (Z.to_nat (end_ - start + 1)) []) s in
  if String.eqb text "" then Ok s1
  else
    let tn := length s1 in
    let s2 := s1 ++ [with_parentNode (Obj parent) (newTextNode text)] in
    pd2 ← deref s2 parent;
    cs2 ← defined (childNodes pd2);
    Ok (set_childNodes parent (splice cs2 start 0 [tn]) s2).

(** The body of the [for] loop of [normalize], from index [k - 1] down
    to 0; [rec] is the recursive call of [normalize]. *)
Fixpoint normalize_loop (fuel : nat) (rec : id → store → res store)
    (node : id) (k : nat) (textRangeStart : Z) (s : store) : res store :=
  match k with
  | 0 => Ok s
  | S i =>
      nd ← deref s node;
      cs ← defined (childNodes nd);
      n ← defined (cs !! i);
      nn ← deref s n;
      if isTextNode nn then
        let textRangeStart :=
          if (textRangeStart =? -1)%Z then Z.of_nat i else textRangeStart in
        s' ← (if decide (i = 0)
              then collapseTextRange fuel node 0 textRangeStart s
              else Ok s);
        normalize_loop fuel rec node i textRangeStart s'
      else
        s1 ← rec n s;
        if (textRangeStart >? -1)%Z then
          s2 ← collapseTextRange fuel node (Z.of_nat i + 1) textRangeStart s1;
          normalize_loop fuel rec node i (-1)%Z s2
        else normalize_loop fuel rec node i textRangeStart s1
  end.

Fixpoint normalize (fuel : nat) (node : id) (s : store) : res store :=
  match fuel with
  | 0 => OutOfFuel
  | S fuel' =>
      nd ← deref s node;
      if negb (isElement nd || isDocument nd || isDocumentFragment nd)
      then Ok s
      else
        cs ← defined (childNodes nd);
        normalize_loop fuel' (normalize fuel') node (length cs) (-1)%Z s
  end.

Definition remove (node : id) (s : store) : res store :=
  nd ← deref s node;
  s1 ← match parentNode nd with
       | Obj parent =>
           pd ← deref s parent;
           cs ← defined (childNodes pd);
           let idx := indexOf cs node in
           Ok (set_childNodes parent (splice cs idx 1 []) s)
       | Undefined | Null => Ok s
       end;
  Ok (set_parentNode node Null s1).

(** [insertNode(parent, index, newNode, replace)] with a [newNode]. *)
Definition insertNode (parent : id) (index : Z) (newNode : id)
    (replace : bool) (s : store) : res store :=
  _ ← (if replace
       then pd ← deref s parent; cs ← defined (childNodes pd); Ok tt
       else Ok tt);
  nn ← deref s newNode;
  '(newNodes, s1) ←
     (if isDocumentFragment nn then
        fcs ← defined (childNodes nn);
        Ok (fcs, set_childNodes newNode [] s)
      else
        s' ← remove newNode s; Ok ([newNode], s'));
  removedNode ←
     (if replace
      then pd ← deref s1 parent; cs ← defined (childNodes pd);
           Ok (at_index cs index)
      else Ok None);
  pd ← deref s1 parent;
  cs ← defined (childNodes pd);
  let s2 := set_childNodes parent
              (splice cs index (if replace then 1 else 0) newNodes) s1 in
  let s3 := foldl (λ acc n, set_parentNode n (Obj parent) acc) s2 newNodes in
  match removedNode with
  | Some r => Ok (set_parentNode r Null s3)
  | None => Ok s3
  end.

Definition replace (oldNode newNode : id) (s : store) : res store :=
  od ← deref s oldNode;
  parent ← defined (truthy (parentNode od));
  pd ← deref s parent;
  cs ← defined (childNodes pd);
  insertNode parent (indexOf cs oldNode) newNode true s.

Definition insertBefore (parent oldNode newNode : id) (s : store)
    : res store :=
  pd ← deref s parent;
  cs ← defined (childNodes pd);
  insertNode parent (indexOf cs oldNode) newNode false s.

Definition append (parent newNode : id) (s : store) : res store :=
  pd ← deref s parent;
  cs ← defined (childNodes pd);
  insertNode parent (Z.of_nat (length cs)) newNode false s.

End Dom5Ts.

(** ** dom5.ts: attributes

    The attribute functions read and write nothing of their argument but
    its [attrs] array, so the element is given here by that field; [None]
    is an element without the field. *)

Module Attributes.

Record attr := mkAttr { name : string; value : string }.

Section attributes.
Context `{!ToLowerCase}.

Definition getAttributeIndex (element : option (list attr))
    (attrName : string) : Z :=
  match element with
  | None => (-1)%Z
  | Some attrs =>
      let n := toLowerCase attrName in
      match list_find (λ a, toLowerCase (name a) = n) attrs with
      | Some (i, _) => Z.of_nat i
      | None => (-1)%Z
      end
  end.

Definition hasAttribute (element : option (list attr)) (attrName : string)
    : bool :=
  negb (getAttributeIndex element attrName =? -1)%Z.

(** [None] is the [null] of the source. *)
Definition getAttribute (element : option (list attr)) (attrName : string)
    : res (option string) :=
  let i := getAttributeIndex element attrName in
  if (i >? -1)%Z then
    attrs ← defined element;
    a ← defined (at_index attrs i);
    Ok (Some (value a))
  else Ok None.

(** The element after [setAttribute(element, name, value)]. *)
Definition setAttribute (element : option (list attr))
    (attrName v : string) : res (option (list attr)) :=
  let i := getAttributeIndex element attrName in
  if (i >? -1)%Z then
    attrs ← defined element;
    a ← defined (at_index attrs i);
    Ok (Some (<[Z.to_nat i := mkAttr (name a) v]> attrs))
  else
    attrs ← defined element;
    Ok (Some (attrs ++ [mkAttr attrName v])).

(** The element after [removeAttribute(element, name)]. *)
Definition removeAttribute (element : option (list attr))
    (attrName : string) : res (option (list attr)) :=
  let i := getAttributeIndex element attrName in
  if (i >? -1)%Z then
    attrs ← defined element;
    Ok (Some (splice attrs i 1 []))
  else Ok element.

Definition hasAttr (attrName : string) (node : option (list attr)) : bool :=
  (getAttributeIndex node attrName >? -1)%Z.

Definition hasAttrValue (attrName v : string) (node : option (list attr))
    : res bool :=
  r ← getAttribute node attrName;
  match r : option string with
  | Some x => Ok (String.eqb x v)
  | None => Ok false
  end.

Definition hasClass (className : string) (node : option (list attr))
    : res bool :=
  r ← getAttribute node "class";
  match r : option string with
  | None => Ok false
  | Some a =>
      if String.eqb a "" then Ok false
      else Ok (indexOfString (split a) className >? -1)%Z
  end.

End attributes.

End Attributes.

(** ** Trees laid out in the store *)

(** A finite tree of node objects: the identity of the root object, its
    record, and the subtrees of its children in child order. *)
Unset Elimination Schemes.
Inductive tree := Tree (i : id) (nd : node) (kids : list tree).
Set Elimination Schemes.

Definition root (t : tree) : id := match t with Tree i _ _ => i end.
Definition record (t : tree) : node := match t with Tree _ nd _ => nd end.
Definition subtrees (t : tree) : list tree :=
  match t with Tree _ _ kids => kids end.

Section tree_induction.
Variable P : tree → Prop.
Hypothesis step : ∀ i nd kids, Forall P kids → P (Tree i nd kids).

Fixpoint tree_induct (t : tree) : P t :=
  match t with
  | Tree i nd kids =>
      step i nd kids
        ((fix all (l : list tree) : Forall P l :=
            match l with
            | [] => List.Forall_nil P
            | k :: l' => List.Forall_cons P k l' (tree_induct k) (all l')
            end) kids)
  end.
End tree_induction.

(** The reference preorder listing: the root first, then the listing of
    each child in child order. *)
Fixpoint preorder (t : tree) : list id :=
  match t with
  | Tree i _ kids => i :: flat_map preorder kids
  end.

(** The number of nodes of a tree. *)
Fixpoint size (t : tree) : nat :=
  match t with
  | Tree _ _ kids => S (foldr (λ k n, size k + n) 0 kids)
  end.

(** The number of nodes on the longest path from the root down. *)
Fixpoint height (t : tree) : nat :=
  match t with
  | Tree _ _ kids => S (foldr (λ k n, Nat.max (height k) n) 0 kids)
  end.

(** How many places of the tree hold the object [n]. *)
Fixpoint occurrences (n : id) (t : tree) : nat :=
  match t with
  | Tree i _ kids =>
      (if decide (i = n) then 1 else 0)
      + foldr (λ k m, occurrences n k + m) 0 kids
  end.

(** The tree is the one a child accessor describes: at every node the
    accessor returns the roots of the subtrees, or no array at a node
    without subtrees. *)
Inductive follows (getChildNodes : Iteration.GetChildNodes) : tree → Prop :=
| follows_node i nd kids :
    match getChildNodes i with
    | Some cs => cs = map root kids
    | None => kids = []
    end →
    Forall (follows getChildNodes) kids →
    follows getChildNodes (Tree i nd kids).

(** The tree is the one the store holds under [root t]: every node of the
    tree is the record stored for its object, and the [childNodes] array of
    that record lists the roots of the subtrees. *)
Inductive lays (s : store) : tree → Prop :=
| lays_node i nd kids :
    s !! i = Some nd →
    match childNodes nd with
    | Some cs => cs = map root kids
    | None => kids = []
    end →
    Forall (lays s) kids →
    lays s (Tree i nd kids).

(** Every [parentNode] back-reference of the tree names the true
    container; [p] is the back-reference of the root. *)
Inductive parented : ref → tree → Prop :=
| parented_node p i nd kids :
    parentNode nd = p →
    Forall (parented (Obj i)) kids →
    parented p (Tree i nd kids).

(** The part of a sequence strictly before the first [n], and the prefix
    up to and including it. *)
Fixpoint before (n : id) (l : list id) : list id :=
  match l with
  | [] => []
  | x :: l' => if decide (x = n) then [] else x :: before n l'
  end.

Fixpoint upto (n : id) (l : list id) : list id :=
  match l with
  | [] => []
  | x :: l' => if decide (x = n) then [x] else x :: upto n l'
  end.

(** ** Ownership *)

(** The [childNodes] array of the object [p] and the object that the
    [parentNode] back-reference of the object [c] names, as the store has
    them. *)
Definition children_of (s : store) (p : id) : option (list id) :=
  s !! p ≫= childNodes.

Definition parent_of (s : store) (c : id) : option id :=
  nd ← s !! c; truthy (parentNode nd).

(** The single-owner invariant: no [childNodes] array lists a node twice,
    and every node listed in the array of [p] has [p] as its [parentNode];
    hence a node is listed by at most one container. *)
Definition single_owner (s : store) : Prop :=
  ∀ p cs, children_of s p = Some cs →
    NoDup cs ∧ ∀ c, c ∈ cs → parent_of s c = Some p.

(** The store after the last statements of [insertNode]: [newNodes] is
    spliced into the children [cs] of [parent] in [s1], the new nodes get
    their [parentNode], and the replaced node loses it. *)
Definition spliced (parent : id) (index : Z) (replace : bool)
    (newNodes cs : list id) (s1 : store) : store :=
  let s2 := set_childNodes parent
              (splice cs index (if replace then 1 else 0) newNodes) s1 in
  let s3 := foldl (λ acc n, set_parentNode n (Obj parent) acc) s2 newNodes in
  match (if replace then at_index cs index else None) with
  | Some r => set_parentNode r Null s3
  | None => s3
  end.

(** The container [p] is the one and only owner of the node [n]: the
    back-reference of [n] names [p], the array of [p] lists [n], and no
    other array does. *)
Definition sole_owner (s : store) (n p : id) : Prop :=
  parent_of s n = Some p
  ∧ (∃ cs, children_of s p = Some cs ∧ n ∈ cs)
  ∧ ∀ q qcs, children_of s q = Some qcs → n ∈ qcs → q = p.

(** ** Text of a node, as reference listings *)

(** The values of the direct text-node children [cs], concatenated. *)
Fixpoint direct_text (s : store) (cs : list id) : string :=
  match cs with
  | [] => ""
  | c :: cs' =>
      match s !! c with
      | Some cd => if isTextNode cd then value cd else ""
      | None => ""
      end +:+ direct_text s cs'
  end.

(** The text nodes of a tree in document order, and their values. *)
Fixpoint text_nodes (t : tree) : list id :=
  match t with
  | Tree i nd kids =>
      (if isTextNode nd then [i] else []) ++ flat_map text_nodes kids
  end.

Fixpoint all_texts (t : tree) : list string :=
  match t with
  | Tree i nd kids =>
      (if isTextNode nd then [value nd] else []) ++ flat_map all_texts kids
  end.

(** ** Structure of a tree, and its normal form *)

(** What a node says about itself: its record without the links to other
    objects. *)
Definition label (nd : node) : node :=
  mkNode (nodeName nd) (tagName nd) (value nd) (data nd) None Null.

(** A tree up to the identity of its objects: the label of the root and,
    where the root has a [childNodes] array, the structures of the
    children. *)
Unset Elimination Schemes.
Inductive shape := Shape (lbl : node) (kids : option (list shape)).
Set Elimination Schemes.

Definition shape_label (sh : shape) : node :=
  match sh with Shape lbl _ => lbl end.

Fixpoint shape_of (t : tree) : shape :=
  match t with
  | Tree _ nd kids =>
      Shape (label nd)
        match childNodes nd with
        | Some _ => Some (map shape_of kids)
        | None => None
        end
  end.

(** The structure of what the store holds under the object [i], read by
    following the [childNodes] arrays. *)
Fixpoint read_shape (fuel : nat) (s : store) (i : id) : option shape :=
  match fuel with
  | 0 => None
  | S fuel' =>
      nd ← s !! i;
      match childNodes nd with
      | None => Some (Shape (label nd) None)
      | Some cs =>
          ks ← mapM (read_shape fuel' s) cs;
          Some (Shape (label nd) (Some ks))
      end
  end.

Section shape_induction.
Variable P : shape → Prop.
Hypothesis leaf : ∀ lbl, P (Shape lbl None).
Hypothesis step : ∀ lbl kids, Forall P kids → P (Shape lbl (Some kids)).

Fixpoint shape_induct (sh : shape) : P sh :=
  match sh with
  | Shape lbl None => leaf lbl
  | Shape lbl (Some kids) =>
      step lbl kids
        ((fix all (l : list shape) : Forall P l :=
            match l with
            | [] => List.Forall_nil P
            | k :: l' => List.Forall_cons P k l' (shape_induct k) (all l')
            end) kids)
  end.
End shape_induction.

(** The nodes whose children [normalize] visits. *)
Definition isContainer (nd : node) : bool :=
  isElement nd || isDocument nd || isDocumentFragment nd.

(** A pending text run is put in front of the children already settled,
    as one new text node, unless its text is empty. *)
Definition flush (txt : string) (settled : list shape) : list shape :=
  if String.eqb txt "" then settled
  else Shape (Dom5Ts.newTextNode txt) None :: settled.

(** The normal form, following the scan of [normalize] from the last
    child to the first: the state is the text of the run of text nodes
    being gathered and the children already settled to its right. *)
Fixpoint norm_shape (sh : shape) : shape :=
  match sh with
  | Shape lbl kids =>
      if isContainer lbl then
        Shape lbl
          (option_map
             (λ ks,
                let st :=
                  foldr (λ k st,
                           if isTextNode (shape_label k)
                           then (value (shape_label k) +:+ st.1, st.2)
                           else ("", norm_shape k :: flush st.1 st.2))
                        ("", []) ks in
                flush st.1 st.2)
             kids)
      else sh
  end.

Definition norm_step (k : shape) (st : string * list shape)
    : string * list shape :=
  if isTextNode (shape_label k)
  then (value (shape_label k) +:+ st.1, st.2)
  else ("", norm_shape k :: flush st.1 st.2).

Definition norm_kids (ks : list shape) : list shape :=
  let st := foldr norm_step ("", []) ks in flush st.1 st.2.

(** Scanning a list that is already settled gathers no text and settles
    the same list. *)
Definition settled (d : list shape) : Prop :=
  foldr norm_step ("", []) d = ("", d).

(** The store [s'] is [s] with new objects added and only the objects
    [fp] changed. *)
Definition frames (s s' : store) (fp : list id) : Prop :=
  length s ≤ length s'
  ∧ ∀ j, j < length s → j ∉ fp → s' !! j = s !! j.

(** Every node of the tree that [normalize] treats as a container has a
    [childNodes] array, as elements, documents and fragments do. *)
Inductive arrays_present : tree → Prop :=
| arrays_present_node i nd kids :
    (isContainer nd = true → is_Some (childNodes nd)) →
    Forall arrays_present kids →
    arrays_present (Tree i nd kids).

(** What [normalize] does on a tree laid out without sharing: it
    returns, and the store then holds under the same root a tree whose
    structure is the normal form of the old one, made of old objects of the
    tree and of new objects; nothing outside the tree has changed. *)
Definition normalizes (t : tree) : Prop :=
  ∀ fuel s,
    lays s t → NoDup (preorder t) → arrays_present t → height t ≤ fuel →
    ∃ s' t',
      Dom5Ts.normalize fuel (root t) s = Ok s'
      ∧ lays s' t' ∧ root t' = root t
      ∧ shape_of t' = norm_shape (shape_of t)
      ∧ NoDup (preorder t') ∧ arrays_present t'
      ∧ height t' ≤ height t
      ∧ frames s s' (preorder t)
      ∧ (∀ j, j ∈ preorder t' → j ∈ preorder t ∨ length s ≤ j)
      ∧ (isContainer (record t) = true →
         ∀ k', k' ∈ subtrees t' → root k' < length s →
           ∃ c, c ∈ subtrees t ∧ isTextNode (record c) = false
                ∧ root c = root k').

(** The text of a run of text nodes. *)
Definition run_text (run : list tree) : string :=
  String.concat "" (map (λ r, value (record r)) run).

(** The state in which the loop of [normalize] on the node [i] ends, when
    it was entered in the store [s] with the children [pre] still to scan,
    the text nodes [run] gathered and the children [settled] done: the
    store [s'] lists under [i] the trees [kids'], whose structures are
    those the scan of the normal form produces. *)
Definition loop_outcome (i : id) (nd : node) (H : nat) (s : store)
    (pre run settled : list tree) (s' : store) (kids' : list tree) : Prop :=
  s' !! i = Some (with_childNodes (Some (map root kids')) nd)
  ∧ Forall (lays s') kids'
  ∧ map shape_of kids'
    = (let st := foldr norm_step (run_text run, map shape_of settled)
                   (map shape_of pre) in
       flush st.1 st.2)
  ∧ NoDup (i :: flat_map preorder kids')
  ∧ Forall arrays_present kids'
  ∧ Forall (λ k, height k ≤ H) kids'
  ∧ frames s s' (i :: flat_map preorder pre)
  ∧ (∀ j, j ∈ flat_map preorder kids' →
       j ∈ flat_map preorder pre ∨ j ∈ flat_map preorder settled
       ∨ length s ≤ j)
  ∧ ∀ k', k' ∈ kids' → root k' < length s →
      (∃ c, c ∈ pre ∧ isTextNode (record c) = false ∧ root c = root k')
      ∨ root k' ∈ map root settled.

(** ** Reference listings for the walks

    What the walks are compared with: sequences and paths read off the
    tree itself. *)

(** How the generators of iteration.ts and walking.ts that walk up the
    tree end at a root whose [parentNode] is [up]: they return where the
    field is absent, and throw where it holds [null], a property of which
    is read. *)
Definition at_root (up : ref) : stop :=
  match up with
  | Null => Thrown TypeError
  | Undefined | Obj _ => Done
  end.

(** The first element of a sequence that a closure accepts, with the
    state its calls leave. *)
Fixpoint find_st {A St} (xs : list A) (predicate : A → St → res (bool * St))
    (st : St) : res (option A * St) :=
  match xs with
  | [] => Ok (None, st)
  | x :: xs' =>
      r ← predicate x st;
      if r.1 : bool then Ok (Some x, r.2) else find_st xs' predicate r.2
  end.

(** The path of a tree from its root down to the node [n], both included:
    the root, then the path in the first subtree that holds [n]. *)
Fixpoint path_to (n : id) (t : tree) : option (list id) :=
  match t with
  | Tree i _ kids =>
      if decide (i = n) then Some [i]
      else
        (λ path, i :: path) <$>
          (fix first (l : list tree) : option (list id) :=
             match l with
             | [] => None
             | k :: l' =>
                 match path_to n k with
                 | Some path => Some path
                 | None => first l'
                 end
             end) kids
  end.

(** The nodes that the loops of dom5.ts [nodeWalkPrior] put to the test
    for the node [n] of a tree: the earlier siblings of [n], closest first,
    then its parent, then the same for the parent, up to the root; [above]
    is what is tested for the root of the tree itself. *)
Fixpoint elders (above : list id) (n : id) (t : tree) : option (list id) :=
  match t with
  | Tree i _ kids =>
      if decide (i = n) then Some above
      else
        (fix under (earlier : list id) (l : list tree) : option (list id) :=
           match l with
           | [] => None
           | k :: l' =>
               match elders (earlier ++ i :: above) n k with
               | Some tested => Some tested
               | None => under (root k :: earlier) l'
               end
           end) [] kids
  end.

(** A subtree as [_reverseNodeWalkAll] visits it: the subtrees of the
    children from the last child to the first, each one in document order,
    then the root. *)
Definition half_reversed (t : tree) : list id :=
  flat_map preorder (reverse (subtrees t)) ++ [root t].

(** The nodes that dom5.ts [nodeWalkAllPrior] visits for the node [n] of a
    tree: [n], its earlier siblings from the closest on, each as
    [half_reversed] has it, then the same for the parent, up to the root;
    [above] is what is visited after the root of the tree itself. *)
Fixpoint visited_prior (above : list id) (n : id) (t : tree)
    : option (list id) :=
  match t with
  | Tree i _ kids =>
      if decide (i = n) then Some (i :: above)
      else
        (fix under (earlier : list id) (l : list tree) : option (list id) :=
           match l with
           | [] => None
           | k :: l' =>
               match visited_prior (earlier ++ i :: above) n k with
               | Some visited => Some visited
               | None => under (half_reversed k ++ earlier) l'
               end
           end) [] kids
  end.

(** Text nodes without a [childNodes] array, as parse5 builds them. *)
Inductive bare_texts : tree → Prop :=
| bare_texts_node i nd kids :
    (isTextNode nd = true → childNodes nd = None) →
    Forall bare_texts kids →
    bare_texts (Tree i nd kids).

(** Every node of the tree other than a text node has a [childNodes]
    array. *)
Fixpoint arrays_everywhere (t : tree) : bool :=
  match t with
  | Tree _ nd kids =>
      (isTextNode nd || bool_decide (is_Some (childNodes nd)))
      && forallb arrays_everywhere kids
  end.

(** ** Reference properties of a normalized structure *)

(** A list of children without an empty text node and without two text
    nodes in a row. *)
Fixpoint tidy (ks : list shape) : bool :=
  match ks with
  | [] => true
  | k :: ks' =>
      (if isTextNode (shape_label k)
       then negb (String.eqb (value (shape_label k)) "")
            && match ks' with
               | k' :: _ => negb (isTextNode (shape_label k'))
               | [] => true
               end
       else true)
      && tidy ks'
  end.

(** The children of every container that [normalize] reaches (the root,
    and the children other than text nodes of a container reached) are
    tidy. *)
Fixpoint normal (sh : shape) : bool :=
  match sh with
  | Shape lbl kids =>
      if isContainer lbl then
        match kids with
        | Some ks =>
            tidy ks
            && forallb (λ k, isTextNode (shape_label k) || normal k) ks
        | None => true
        end
      else true
  end.

(** The values of the text nodes of a structure, in document order. *)
Fixpoint shape_texts (sh : shape) : list string :=
  match sh with
  | Shape lbl kids =>
      (if isTextNode lbl then [value lbl] else [])
      ++ match kids with
         | Some ks => flat_map shape_texts ks
         | None => []
         end
  end.
(** Text nodes without a [childNodes] array, on structures. *)
Fixpoint bare (sh : shape) : bool :=
  match sh with
  | Shape lbl kids =>
      match kids with
      | Some ks => negb (isTextNode lbl) && forallb bare ks
      | None => true
      end
  end.

(** ** A sample document

    [<div>a<span>b</span></div><!--c-->] under a document node. *)

Definition element (name : string) (cs : list id) (p : ref) : node :=
  mkNode name (Some name) "" "" (Some cs) p.

Definition text (v : string) (p : ref) : node :=
  mkNode "#text" None v "" None p.

Definition comment (d : string) (p : ref) : node :=
  mkNode "#comment" None "" d None p.

Definition document (cs : list id) : node :=
  mkNode "#document" None "" "" (Some cs) Undefined.

Definition fragment (cs : list id) : node :=
  mkNode "#document-fragment" None "" "" (Some cs) Null.

Definition sample : store :=
  [ document [1; 5];
    element "div" [2; 3] (Obj 0);
    text "a" (Obj 1);
    element "span" [4] (Obj 1);
    text "b" (Obj 3);
    comment "c" (Obj 0) ].

Definition sample_tree : tree :=
  Tree 0 (document [1; 5])
    [ Tree 1 (element "div" [2; 3] (Obj 0))
        [ Tree 2 (text "a" (Obj 1)) [];
          Tree 3 (element "span" [4] (Obj 1))
            [ Tree 4 (text "b" (Obj 3)) [] ] ];
      Tree 5 (comment "c" (Obj 0)) [] ].

(** A store holding a single element that has no parent, as [newElement]
    makes it. *)
Definition lone : store := [ element "div" [] Null ].
Definition lone_tree : tree := Tree 0 (element "div" [] Null) [].

(** The predicate that accepts every node. *)
Definition always : Predicate := λ _ _, Ok true.

(** A fragment holding one text node. *)
Definition one_child_fragment : store :=
  [ fragment [1]; text "a" (Obj 0) ].

(** A store that breaks the back-reference invariant: the text node 2
    names the element 0 as its parent, but 0 lists only the node 1; node 3
    is a fresh text node without parent. *)
Definition stray : store :=
  [ element "div" [1] Null; text "a" (Obj 0); text "b" (Obj 0);
    text "c" Null ].

(** A list with one item next to a fragment holding two text nodes. *)
Definition list_and_fragment : store :=
  [ element "ul" [1] Null; element "li" [] (Obj 0);
    fragment [3; 4]; text "x" (Obj 2); text "y" (Obj 2) ].

(** A detached paragraph with the text children "a", "b", an element,
    and the text "c"; and one whose only children are two empty text nodes
    between two elements. *)
Definition paragraph : store :=
  [ element "p" [1; 2; 3; 4] Null;
    text "a" (Obj 0); text "b" (Obj 0);
    element "br" [] (Obj 0); text "c" (Obj 0) ].

Definition paragraph_tree : tree :=
  Tree 0 (element "p" [1; 2; 3; 4] Null)
    [ Tree 1 (text "a" (Obj 0)) []; Tree 2 (text "b" (Obj 0)) [];
      Tree 3 (element "br" [] (Obj 0)) []; Tree 4 (text "c" (Obj 0)) [] ].

Definition hollow : store :=
  [ element "p" [1; 2; 3; 4] Null;
    element "i" [] (Obj 0); text "" (Obj 0); text "" (Obj 0);
    element "b" [] (Obj 0) ].

Definition hollow_tree : tree :=
  Tree 0 (element "p" [1; 2; 3; 4] Null)
    [ Tree 1 (element "i" [] (Obj 0)) []; Tree 2 (text "" (Obj 0)) [];
      Tree 3 (text "" (Obj 0)) []; Tree 4 (element "b" [] (Obj 0)) [] ].

(* ================================================================= *)
(** * Properties *)

(** ** Running calls *)

Lemma bind_ok {A B} (a : A) (k : A → res B) : (Ok a ≫= k) = k a.
Proof. done. Qed.

Lemma deref_Some s n nd : s !! n = Some nd → deref s n = Ok nd.
Proof. unfold deref. by intros ->. Qed.

Lemma defined_Some {A} (a : A) : defined (Some a) = Ok a.
Proof. done. Qed.

(** Symbolic execution of a call: reduce the binds whose first call has
    returned. *)
Ltac run :=
  repeat (progress (rewrite ?bind_ok, ?defined_Some; cbv beta iota)).

(** ** Generators *)

Lemma gen_seq_done_l {A} (g : gen A) : gen_seq gen_done g = g.
Proof. by destruct g. Qed.

Lemma gen_seq_finished {A} (l1 l2 : list A) st :
  gen_seq (l1, Done) (l2, st) = (l1 ++ l2, st).
Proof. done. Qed.

Lemma gen_for_finished {A B} (xs : list B) (body : B → gen A)
    (out : B → list A) :
  Forall (λ x, body x = (out x, Done)) xs →
  gen_for xs body = (flat_map out xs, Done).
Proof.
  induction 1 as [|x xs Hx _ IH]; [done|].
  simpl. rewrite Hx, IH. done.
Qed.

Lemma gen_for_map {A B C} (f : C → B) (xs : list C) (body : B → gen A) :
  gen_for (map f xs) body = gen_for xs (λ x, body (f x)).
Proof. induction xs as [|x xs IH]; [done|]. simpl. by rewrite IH. Qed.

(** ** depthFirst *)

Lemma height_kids i nd kids k :
  k ∈ kids → height k < height (Tree i nd kids).
Proof.
  simpl. induction 1 as [|k k' l _ IH]; simpl; lia.
Qed.

Lemma length_preorder t : length (preorder t) = size t.
Proof.
  induction t as [i nd kids IH] using tree_induct. simpl. f_equal.
  induction IH as [|k l Hk _ IHl]; [done|].
  simpl. rewrite length_app, Hk, IHl. done.
Qed.

Lemma count_preorder n t :
  length (filter (λ x, x = n) (preorder t)) = occurrences n t.
Proof.
  induction t as [i nd kids IH] using tree_induct. simpl.
  rewrite filter_cons. destruct (decide (i = n)); simpl; f_equal.
  all: induction IH as [|k l Hk _ IHl]; [done|].
  all: simpl; rewrite filter_app, length_app, Hk, IHl; done.
Qed.

Lemma depthFirst_follows gc t :
  follows gc t → ∀ fuel, height t ≤ fuel →
  Iteration.depthFirst fuel gc (root t) = (preorder t, Done).
Proof.
  induction t as [i nd kids IH] using tree_induct. intros Hf fuel Hfuel.
  inversion Hf as [i' nd' kids' Hgc Hkids]; subst.
  destruct fuel as [|fuel]; [simpl in Hfuel; lia|].
  cbn [Iteration.depthFirst root preorder].
  assert (Hall : Forall (λ k, Iteration.depthFirst fuel gc (root k)
                              = (preorder k, Done)) kids).
  { rewrite Forall_forall in IH, Hkids. apply Forall_forall. intros k Hk.
    apply IH; [done|by apply Hkids|].
    pose proof (height_kids i nd kids k Hk). lia. }
  destruct (gc i) as [cs|]; subst.
  - rewrite gen_for_map, (gen_for_finished _ _ preorder) by done. done.
  - done.
Qed.

Lemma height_le_size t : height t ≤ size t.
Proof.
  induction t as [i nd kids IH] using tree_induct. simpl.
  apply le_n_S. induction IH as [|k l Hk _ IHl]; simpl; lia.
Qed.

Lemma size_kids i nd kids k :
  k ∈ kids → size k < size (Tree i nd kids).
Proof. simpl. induction 1 as [|k k' l _ IH]; simpl; lia. Qed.

Lemma lays_follows s t : lays s t → follows (Iteration.defaultChildNodes s) t.
Proof.
  induction t as [i nd kids IH] using tree_induct.
  inversion 1 as [i' nd' kids' Hi Hcs Hkids]; subst. constructor.
  - unfold Iteration.defaultChildNodes. rewrite Hi. done.
  - rewrite Forall_forall in *. auto.
Qed.

(** C8: on a finite tree described by any child accessor, [depthFirst]
    yields exactly the reference preorder listing and then returns: the
    root argument comes first, the number of yields is the node count, and
    every object is yielded as many times as the tree holds it (once, in a
    tree without sharing). *)
Theorem depthFirst_is_preorder gc t fuel :
  follows gc t → height t ≤ fuel →
  ∃ ys, Iteration.depthFirst fuel gc (root t) = (ys, Done)
    ∧ ys = preorder t
    ∧ head ys = Some (root t)
    ∧ length ys = size t
    ∧ (∀ n, length (filter (λ x, x = n) ys) = occurrences n t).
Proof.
  intros Hf Hfuel. exists (preorder t).
  split; [by apply depthFirst_follows|].
  split; [done|]. split; [by destruct t|].
  split; [apply length_preorder|]. intros n. apply count_preorder.
Qed.

Lemma depthFirst_is_preorder_witness :
  ∃ ys, Iteration.depthFirst 4 (Iteration.defaultChildNodes sample) 0
        = (ys, Done)
    ∧ ys = preorder sample_tree
    ∧ head ys = Some 0
    ∧ length ys = size sample_tree
    ∧ (∀ n, length (filter (λ x, x = n) ys) = occurrences n sample_tree).
Proof.
  apply (depthFirst_is_preorder (Iteration.defaultChildNodes sample)
           sample_tree 4).
  - repeat (constructor; try done).
  - simpl. lia.
Defined.

(** ** depthFirstReversed *)

Lemma reversedView_all {A} (arr : list A) :
  Iteration.reversedView arr (Z.of_nat (length arr) - 1) = reverse arr.
Proof.
  unfold Iteration.reversedView.
  replace (Z.to_nat (Z.of_nat (length arr) - 1 + 1)) with (length arr) by lia.
  by rewrite firstn_all.
Qed.

Lemma reverse_flat_map {A B} (f : A → list B) (l : list A) :
  reverse (flat_map f l) = flat_map (λ x, reverse (f x)) (reverse l).
Proof.
  induction l as [|x l IH]; [done|].
  simpl. rewrite reverse_app, reverse_cons, IH, flat_map_app. simpl.
  by rewrite app_nil_r.
Qed.

Lemma depthFirstReversed_follows gc t :
  follows gc t → ∀ fuel, height t ≤ fuel →
  Iteration.depthFirstReversed fuel gc (root t) = (reverse (preorder t), Done).
Proof.
  induction t as [i nd kids IH] using tree_induct. intros Hf fuel Hfuel.
  inversion Hf as [i' nd' kids' Hgc Hkids]; subst.
  destruct fuel as [|fuel]; [simpl in Hfuel; lia|].
  cbn [Iteration.depthFirstReversed root preorder].
  assert (Hall : Forall (λ k, Iteration.depthFirstReversed fuel gc (root k)
                              = (reverse (preorder k), Done)) kids).
  { rewrite Forall_forall in IH, Hkids. apply Forall_forall. intros k Hk.
    apply IH; [done|by apply Hkids|].
    pose proof (height_kids i nd kids k Hk). lia. }
  rewrite reverse_cons, reverse_flat_map.
  destruct (gc i) as [cs|]; subst; [|done].
  rewrite reversedView_all, <- fmap_reverse.
  change (root <$> reverse kids) with (map root (reverse kids)).
  rewrite gen_for_map, (gen_for_finished _ _ (λ k, reverse (preorder k))).
  - done.
  - by apply Forall_reverse.
Qed.

(** ** The prior-order iterator *)

Lemma indexOf_fresh_app (l1 l2 : list id) x :
  x ∉ l1 → indexOf (l1 ++ x :: l2) x = Z.of_nat (length l1).
Proof.
  intros Hx. unfold indexOf.
  assert (list_find (λ y, y = x) (l1 ++ x :: l2) = Some (length l1, x)) as ->;
    [|done].
  apply list_find_Some. split_and!.
  - by rewrite lookup_app_r, Nat.sub_diag by lia.
  - done.
  - intros j y Hj Hlt ->. rewrite lookup_app_l in Hj by done.
    apply Hx. by eapply list_elem_of_lookup_2.
Qed.

Lemma indexOf_absent (l : list id) x : x ∉ l → indexOf l x = (-1)%Z.
Proof.
  intros Hx. unfold indexOf.
  assert (list_find (λ y, y = x) l = None) as ->; [|done].
  apply list_find_None, Forall_forall. intros y Hy ->. done.
Qed.

Lemma indexOf_present (l : list id) x :
  x ∈ l → ∃ l1 l2, l = l1 ++ x :: l2 ∧ (x ∉ l1)
                 ∧ indexOf l x = Z.of_nat (length l1).
Proof.
  induction l as [|y l IH]; [by intros ?%elem_of_nil|].
  destruct (decide (y = x)) as [->|Hne].
  - intros _. exists [], l. split_and!; [done|apply not_elem_of_nil|].
    by apply (indexOf_fresh_app []), not_elem_of_nil.
  - intros [?|Hx]%elem_of_cons; [done|].
    destruct (IH Hx) as (l1 & l2 & -> & Hl1 & _).
    exists (y :: l1), l2. split_and!; [done| |].
    + by intros [?|?]%elem_of_cons.
    + apply (indexOf_fresh_app (y :: l1)). by intros [?|?]%elem_of_cons.
Qed.

Lemma root_in_preorder t : root t ∈ preorder t.
Proof. destruct t. simpl. apply list_elem_of_here. Qed.

Lemma before_app_r n l1 l2 :
  n ∉ l1 → before n (l1 ++ l2) = l1 ++ before n l2.
Proof.
  induction l1 as [|x l1 IH]; [done|]. intros Hn. simpl.
  destruct (decide (x = n)) as [->|_].
  - exfalso. apply Hn, list_elem_of_here.
  - rewrite IH; [done|]. intros ?. apply Hn. by apply list_elem_of_further.
Qed.

Lemma before_app_l n l1 l2 : n ∈ l1 → before n (l1 ++ l2) = before n l1.
Proof.
  induction l1 as [|x l1 IH]; [by intros ?%elem_of_nil|].
  intros Hn. simpl. destruct (decide (x = n)); [done|].
  apply elem_of_cons in Hn as [?|Hn]; [done|]. by rewrite IH.
Qed.

Lemma upto_before n l : n ∈ l → upto n l = before n l ++ [n].
Proof.
  induction l as [|x l IH]; [by intros ?%elem_of_nil|].
  intros Hn. simpl. destruct (decide (x = n)) as [->|?]; [done|].
  apply elem_of_cons in Hn as [?|Hn]; [done|]. by rewrite IH.
Qed.

(** The first child subtree that holds [n]. *)
Lemma first_subtree_with n (kids : list tree) :
  n ∈ flat_map preorder kids →
  ∃ pre c post, kids = pre ++ c :: post ∧ n ∈ preorder c
              ∧ n ∉ flat_map preorder pre.
Proof.
  induction kids as [|k kids IH]; [by intros ?%elem_of_nil|].
  simpl. intros Hn. destruct (decide (n ∈ preorder k)) as [Hk|Hk].
  - exists [], k, kids. split_and!; [done..|apply not_elem_of_nil].
  - apply elem_of_app in Hn as [?|Hn]; [done|].
    destruct (IH Hn) as (pre & c & post & -> & Hc & Hpre).
    exists (k :: pre), c, post. split_and!; [done..|].
    simpl. by intros [?|?]%elem_of_app.
Qed.

Lemma size_split i nd pre c post k :
  k ∈ pre → size k + size c < size (Tree i nd (pre ++ c :: post)).
Proof.
  intros Hk. simpl. rewrite foldr_app. simpl.
  generalize (foldr (λ k n, size k + n) 0 post). intros m.
  induction Hk as [|k k' l _ IH]; simpl.
  - assert (∀ l a, a ≤ foldr (λ k n, size k + n) a l) as Hmono.
    { clear. induction l; simpl; intros; [lia|]. specialize (IHl a0). lia. }
    specialize (Hmono l (size c + m)). lia.
  - lia.
Qed.

Lemma previousSiblings_child s i nd pre c post :
  s !! root c = Some (record c) →
  parentNode (record c) = Obj i →
  s !! i = Some nd →
  childNodes nd = Some (map root (pre ++ c :: post)) →
  root c ∉ map root pre →
  Iteration.previousSiblings s (root c) = (reverse (map root pre), Done).
Proof.
  intros Hc Hp Hi Hcs Hfresh. unfold Iteration.previousSiblings.
  rewrite Hc, Hp, Hi, Hcs, map_app. simpl.
  rewrite indexOf_fresh_app by done.
  destruct (Z.eqb_spec (Z.of_nat (length (map root pre))) (-1)); [lia|].
  unfold Iteration.reversedView.
  replace (Z.to_nat (Z.of_nat (length (map root pre)) - 1 + 1))
    with (length (map root pre)) by lia.
  by rewrite take_app_length.
Qed.

Lemma iteratePrior_root s t :
  s !! root t = Some (record t) → truthy (parentNode (record t)) = None →
  ∀ fuel, 1 ≤ fuel →
  Walking.iteratePrior fuel s (root t)
  = ([], at_root (parentNode (record t))).
Proof.
  intros Hr Hp [|fuel] Hfuel; [lia|]. simpl.
  unfold Iteration.previousSiblings. rewrite Hr.
  by destruct (parentNode (record t)).
Qed.

Lemma iteratePrior_subtree s t :
  lays s t → NoDup (preorder t) →
  ∀ p rest st F0, parented p t →
  (∀ fuel, F0 ≤ fuel → Walking.iteratePrior fuel s (root t) = (rest, st)) →
  ∀ n, n ∈ preorder t →
  ∀ fuel, F0 + size t ≤ fuel →
  Walking.iteratePrior fuel s n
  = (reverse (before n (preorder t)) ++ rest, st).
Proof.
  induction t as [i nd kids IH] using tree_induct.
  intros Hlays Hnd p rest st F0 Hpar Hroot n Hn fuel Hfuel.
  cbn [preorder] in *. cbn [before].
  destruct (decide (i = n)) as [->|Hne].
  { apply Hroot. lia. }
  apply elem_of_cons in Hn as [?|Hn]; [done|].
  destruct (first_subtree_with n kids Hn) as (pre & c & post & -> & Hc & Hpre).
  inversion Hlays as [i' nd' kids' Hi Hcs Hkids]; subst.
  inversion Hpar as [p' i' nd' kids' Hp Hpkids]; subst.
  apply NoDup_cons in Hnd as [Hi_fresh Hnd].
  rewrite flat_map_app in Hnd, Hi_fresh. simpl in Hnd, Hi_fresh.
  apply NoDup_app in Hnd as (Hnd_pre & Hdisj & Hnd_rest).
  apply NoDup_app in Hnd_rest as (Hnd_c & _ & _).
  rewrite Forall_forall in IH, Hkids, Hpkids.
  assert (Hcin : c ∈ pre ++ c :: post).
  { apply elem_of_app. right. apply list_elem_of_here. }
  rewrite flat_map_app. simpl.
  rewrite before_app_r, before_app_l by done.
  rewrite reverse_cons, reverse_app, <- !app_assoc.
  pose proof (Hkids c Hcin) as Hlc. pose proof (Hpkids c Hcin) as Hpc.
  eapply (IH c Hcin Hlc Hnd_c (Obj i) _ st
            (F0 + size (Tree i nd (pre ++ c :: post)) - size c)); [done| |done|].
  2:{ pose proof (size_kids i nd _ c Hcin). lia. }
  intros [|f] Hf.
  { pose proof (size_kids i nd _ c Hcin). lia. }
  cbn [Walking.iteratePrior].
  destruct c as [ci cnd ckids].
  inversion Hlc as [? ? ? Hci _ _]; subst.
  inversion Hpc as [? ? ? ? Hcp _]; subst.
  destruct (childNodes nd) as [cs|] eqn:Hcn.
  2:{ by destruct pre. }
  subst cs.
  erewrite (previousSiblings_child s i nd pre (Tree ci cnd ckids) post);
    [|done..|].
  2:{ intros (k & Hk1 & Hk2)%list_elem_of_fmap_1. apply (Hdisj ci).
      - apply list_elem_of_In, in_flat_map. exists k. split.
        + by apply list_elem_of_In.
        + apply list_elem_of_In. simpl in Hk1. rewrite Hk1.
          apply root_in_preorder.
      - apply elem_of_app. left. apply list_elem_of_here. }
  unfold gen_for_gen. cbn [fst snd root].
  rewrite <- fmap_reverse.
  change (root <$> reverse pre) with (map root (reverse pre)).
  rewrite gen_for_map, (gen_for_finished _ _ (λ k, reverse (preorder k))).
  2:{ apply Forall_reverse, Forall_forall. intros k Hk.
      apply depthFirstReversed_follows.
      - apply lays_follows, Hkids. apply elem_of_app. by left.
      - pose proof (size_split i nd pre (Tree ci cnd ckids) post k Hk).
        pose proof (height_le_size k). lia. }
  rewrite Hci, Hcp. rewrite Hroot.
  2:{ pose proof (size_kids i nd _ _ Hcin). lia. }
  cbn. rewrite app_nil_r, reverse_flat_map. done.
Qed.

Lemma find_finished {A} (l : list A) (p : A → res bool) :
  Walking.find (l, Done) p = Walking.find_in l p.
Proof.
  unfold Walking.find. simpl. by destruct (Walking.find_in l p) as [[?|]| |].
Qed.

Lemma find_in_pure {A} (l : list A) (p : A → res bool) (f : A → bool) :
  (∀ x, x ∈ l → p x = Ok (f x)) →
  Walking.find_in l p = Ok (head (filter (λ x, f x = true) l)).
Proof.
  induction l as [|x l IH]; intros Hp; [done|].
  cbn [Walking.find_in]. rewrite Hp by constructor. run.
  destruct (f x) eqn:Hf.
  - by rewrite filter_cons_True.
  - rewrite filter_cons_False by congruence.
    apply IH. intros; apply Hp; by constructor.
Qed.

Lemma elem_of_before n x (l : list id) : x ∈ before n l → x ∈ l.
Proof.
  induction l as [|y l IH]; [done|]. cbn [before].
  destruct (decide (y = n)); [by intros ?%elem_of_nil|].
  intros [->|Hx]%elem_of_cons; [constructor|].
  apply list_elem_of_further. by apply IH.
Qed.

Lemma lays_root s t : lays s t → s !! root t = Some (record t).
Proof. by inversion 1. Qed.

Lemma parented_root p t : parented p t → parentNode (record t) = p.
Proof. by inversion 1. Qed.

Lemma iteratePrior_tree s t up n fuel :
  lays s t → parented up t → truthy up = None → NoDup (preorder t) →
  n ∈ preorder t → size t < fuel →
  Walking.iteratePrior fuel s n
  = (reverse (before n (preorder t)), at_root up).
Proof.
  intros Hl Hp Hup Hnd Hn Hfuel.
  pose proof (parented_root _ _ Hp) as Hr.
  rewrite (iteratePrior_subtree s t Hl Hnd up [] (at_root up) 1 Hp);
    [| |done|lia].
  - by rewrite app_nil_r.
  - rewrite <- Hr. apply iteratePrior_root; [by apply lays_root|].
    by rewrite Hr.
Qed.

(** C1: in a tree laid out in the store with consistent back-references,
    the node [n] followed by what the prior-order iterator yields for it
    is, reversed, the prefix of the [depthFirst] sequence of the root up to
    and including [n].  Having yielded the sequence, the iterator returns
    where the root has no [parentNode]; where the [parentNode] of the root
    is [null], it yields the same sequence and then throws a TypeError. *)
Theorem prior_order_reverses_prefix s t up n fuel :
  lays s t → parented up t → NoDup (preorder t) → n ∈ preorder t →
  size t < fuel →
  ∃ prior df,
    Iteration.depthFirst fuel (Iteration.defaultChildNodes s) (root t)
    = (df, Done)
    ∧ reverse (n :: prior) = upto n df
    ∧ (up = Undefined →
       Walking.iteratePrior fuel s n = (prior, Done)
       ∧ Walking.iteratePriorIncludingNode fuel s n = (n :: prior, Done))
    ∧ (up = Null →
       Walking.iteratePrior fuel s n = (prior, Thrown TypeError)
       ∧ Walking.iteratePriorIncludingNode fuel s n
         = (n :: prior, Thrown TypeError)).
Proof.
  intros Hl Hp Hnd Hn Hfuel.
  exists (reverse (before n (preorder t))), (preorder t).
  split_and!.
  - apply depthFirst_follows; [by apply lays_follows|].
    pose proof (height_le_size t). lia.
  - by rewrite reverse_cons, reverse_involutive, upto_before.
  - intros ->.
    pose proof (iteratePrior_tree s t Undefined n fuel Hl Hp eq_refl Hnd Hn
                  Hfuel) as Hprior.
    split; [done|]. unfold Walking.iteratePriorIncludingNode.
    by rewrite Hprior.
  - intros ->.
    pose proof (iteratePrior_tree s t Null n fuel Hl Hp eq_refl Hnd Hn
                  Hfuel) as Hprior.
    split; [done|]. unfold Walking.iteratePriorIncludingNode.
    by rewrite Hprior.
Qed.

Lemma sample_lays : lays sample sample_tree.
Proof. repeat (constructor; try done). Qed.

Lemma sample_parented : parented Undefined sample_tree.
Proof. repeat (constructor; try done). Qed.

Lemma sample_NoDup : NoDup (preorder sample_tree).
Proof. apply (bool_decide_unpack _). by vm_compute. Qed.

Lemma prior_order_reverses_prefix_witness :
  ∃ prior df,
    Walking.iteratePrior 7 sample 4 = (prior, Done)
    ∧ Walking.iteratePriorIncludingNode 7 sample 4 = (4 :: prior, Done)
    ∧ Iteration.depthFirst 7 (Iteration.defaultChildNodes sample) 0
      = (df, Done)
    ∧ reverse (4 :: prior) = upto 4 df.
Proof.
  destruct (prior_order_reverses_prefix sample sample_tree Undefined 4 7)
    as (prior & df & H3 & H4 & Hdone & _).
  - apply sample_lays.
  - apply sample_parented.
  - apply sample_NoDup.
  - apply (bool_decide_unpack _). by vm_compute.
  - simpl. lia.
  - destruct (Hdone eq_refl) as [H1 H2]. by exists prior, df.
Defined.

(** The same walk inside a detached paragraph, whose [parentNode] is
    [null]: the sequence is yielded, then the iterator throws. *)
Example iteratePrior_detached :
  Walking.iteratePrior 6 paragraph 4 = ([3; 2; 1; 0], Thrown TypeError)
  ∧ Iteration.depthFirst 6 (Iteration.defaultChildNodes paragraph) 0
    = ([0; 1; 2; 3; 4], Done).
Proof. by vm_compute. Qed.

(** C4 (amended): in a tree with consistent back-references whose root
    has no [parentNode], [nodeWalkPrior] of walking.ts returns the first
    node satisfying the predicate among the nodes strictly before [n] in
    document order, closest first ([n] itself is not tested), or no node
    when none of them satisfies it.  Where the [parentNode] of the root is
    [null], it returns the first such node likewise, and throws a TypeError
    when none of them satisfies the predicate. *)
Theorem nodeWalkPrior_first_strictly_prior s t up n p fuel :
  lays s t → parented up t → NoDup (preorder t) → n ∈ preorder t →
  size t < fuel →
  (up = Undefined →
   Walking.nodeWalkPrior fuel s n p
   = Walking.find_in (reverse (before n (preorder t))) (p s)
   ∧ ∀ f, (∀ x, x ∈ preorder t → p s x = Ok (f x)) →
       Walking.nodeWalkPrior fuel s n p
       = Ok (head (filter (λ x, f x = true)
                     (reverse (before n (preorder t))))))
  ∧ (up = Null →
     Walking.nodeWalkPrior fuel s n p
     = (r ← Walking.find_in (reverse (before n (preorder t))) (p s);
        match r : option id with
        | Some x => Ok (Some x)
        | None => Throw TypeError
        end)
     ∧ ∀ f, (∀ x, x ∈ preorder t → p s x = Ok (f x)) →
         Walking.nodeWalkPrior fuel s n p
         = match head (filter (λ x, f x = true)
                         (reverse (before n (preorder t)))) with
           | Some x => Ok (Some x)
           | None => Throw TypeError
           end).
Proof.
  intros Hl Hp Hnd Hn Hfuel. unfold Walking.nodeWalkPrior.
  assert (Hpure : ∀ f, (∀ x, x ∈ preorder t → p s x = Ok (f x)) →
            Walking.find_in (reverse (before n (preorder t))) (p s)
            = Ok (head (filter (λ x, f x = true)
                          (reverse (before n (preorder t)))))).
  { intros f Hf. apply find_in_pure. intros x Hx. apply Hf.
    rewrite elem_of_reverse in Hx. by eapply elem_of_before. }
  split; intros ->.
  - rewrite (iteratePrior_tree s t Undefined n fuel), find_finished by done.
    split; [done|]. apply Hpure.
  - rewrite (iteratePrior_tree s t Null n fuel) by done.
    split; [done|]. intros f Hf. unfold Walking.find. cbn [fst snd].
    rewrite (Hpure f Hf). run.
    by destruct (head _).
Qed.

Lemma nodeWalkPrior_first_strictly_prior_witness :
  Walking.nodeWalkPrior 7 sample 4 (on_node isElement)
  = Walking.find_in (reverse (before 4 (preorder sample_tree)))
      (on_node isElement sample).
Proof.
  refine (proj1 (proj1 (nodeWalkPrior_first_strictly_prior sample
                          sample_tree Undefined 4 (on_node isElement) 7
                          _ _ _ _ _) eq_refl)).
  - apply sample_lays.
  - apply sample_parented.
  - apply sample_NoDup.
  - apply (bool_decide_unpack _). by vm_compute.
  - simpl. lia.
Defined.

(** C4 as stated fails: on the comment of the sample, which satisfies the
    predicate, the inclusive prior-order sequence has a first match, the
    node itself, but [nodeWalkPrior] (in walking.ts and in dom5.ts) returns
    no node.  And on a lone element made by [newElement], whose
    [parentNode] is [null], [nodeWalkPrior] of walking.ts throws where no
    node of the sequence satisfies the predicate. *)
Lemma nodeWalkPrior_excludes_node :
  Walking.iteratePriorIncludingNode 7 sample 5 = ([5; 4; 3; 2; 1; 0], Done)
  ∧ Walking.find (Walking.iteratePriorIncludingNode 7 sample 5)
      (on_node isCommentNode sample)
    = Ok (Some 5)
  ∧ Walking.nodeWalkPrior 7 sample 5 (on_node isCommentNode) = Ok None
  ∧ Dom5Ts.nodeWalkPrior 7 sample 5 (on_node isCommentNode) = Ok None
  ∧ Walking.nodeWalkPrior 7 sample 5 (on_node isCommentNode)
    ≠ Walking.find (Walking.iteratePriorIncludingNode 7 sample 5)
        (on_node isCommentNode sample)
  ∧ Walking.nodeWalkPrior 2 lone 0 (on_node isCommentNode)
    = Throw TypeError.
Proof. split_and!; [by vm_compute..| |by vm_compute]. by vm_compute. Qed.

(** The dom5.ts variant tests each earlier sibling but drops what the
    recursive call on it finds: from the comment of the sample it finds no
    text node, where the walking.ts variant finds the closest one. *)
Example nodeWalkPrior_variants :
  Dom5Ts.nodeWalkPrior 8 sample 5 (on_node isTextNode) = Ok None
  ∧ Walking.nodeWalkPrior 8 sample 5 (on_node isTextNode) = Ok (Some 4)
  ∧ Walking.nodeWalkAllPrior 8 sample 5 always [] = Ok [5; 4; 3; 2; 1; 0].
Proof. by vm_compute. Qed.

(** C9: the empty conjunction accepts every node and the empty disjunction
    rejects every node, in dom5.ts and in dom5.js. *)
Theorem empty_AND_OR (s : store) (n : id) :
  Dom5Ts.AND [] s n = Ok true ∧ Dom5Ts.OR [] s n = Ok false
  ∧ Dom5Js.AND [] s n = Ok true ∧ Dom5Js.OR [] s n = Ok false.
Proof. done. Qed.

(** ** Text values *)

Lemma append_nil_r (a : string) : a +:+ "" = a.
Proof.
  induction a as [|c a IH]; [done|].
  change (String c (a +:+ "") = String c a). by rewrite IH.
Qed.

Lemma append_assoc (a b c : string) : (a +:+ b) +:+ c = a +:+ (b +:+ c).
Proof.
  induction a as [|x a IH]; [done|].
  change (String x ((a +:+ b) +:+ c) = String x (a +:+ (b +:+ c))).
  by rewrite IH.
Qed.

Lemma concat_empty_cons (x : string) (xs : list string) :
  String.concat "" (x :: xs) = x +:+ String.concat "" xs.
Proof.
  destruct xs as [|y ys]; [|done].
  change (String.concat "" [x]) with x. by rewrite append_nil_r.
Qed.

Lemma concat_empty_app (xs ys : list string) :
  String.concat "" (xs ++ ys) = String.concat "" xs +:+ String.concat "" ys.
Proof.
  induction xs as [|x xs IH]; [done|].
  rewrite <- app_comm_cons, !concat_empty_cons, IH. by rewrite append_assoc.
Qed.

Lemma normalizeTextContent_children s cs acc :
  (∀ c, c ∈ cs → is_Some (s !! c)) →
  foldl (λ acc cn,
           text ← acc;
           cd ← deref s cn;
           if isTextNode cd then Ok (text +:+ value cd) else Ok text)
        (Ok acc) cs
  = Ok (acc +:+ direct_text s cs).
Proof.
  revert acc. induction cs as [|c cs IH]; intros acc Hall.
  - simpl. by rewrite append_nil_r.
  - destruct (Hall c) as [cd Hcd]; [apply list_elem_of_here|].
    cbn [foldl direct_text]. unfold deref. rewrite Hcd. cbn.
    destruct (isTextNode cd).
    + rewrite IH; [by rewrite append_assoc|].
      intros ? ?. by apply Hall, list_elem_of_further.
    + rewrite IH; [done|]. intros ? ?. by apply Hall, list_elem_of_further.
Qed.

Lemma mapM_res_app {A B} (f : A → res B) l1 l2 k1 k2 :
  mapM f l1 = Ok k1 → mapM f l2 = Ok k2 → mapM f (l1 ++ l2) = Ok (k1 ++ k2).
Proof.
  revert k1. induction l1 as [|x l1 IH]; intros k1 H1 H2.
  - cbn in H1. by injection H1 as <-.
  - cbn in H1 |- *. destruct (f x) as [y| |]; [|done..]. cbn in H1 |- *.
    destruct (mapM f l1) as [k| |] eqn:Hk; [|done..]. cbn in H1.
    injection H1 as <-. by rewrite (IH k).
Qed.

Lemma mapM_res_flat_map {A B C} (f : A → res B) (g : C → list A)
    (h : C → list B) (l : list C) :
  Forall (λ x, mapM f (g x) = Ok (h x)) l →
  mapM f (flat_map g l) = Ok (flat_map h l).
Proof.
  induction 1 as [|x l Hx _ IH]; [done|]. simpl. by apply mapM_res_app.
Qed.

Lemma nodeWalkAll_text_nodes s t :
  lays s t → ∀ fuel m, height t ≤ fuel →
  Dom5Ts.nodeWalkAll fuel s (root t) (on_node isTextNode) m
  = Ok (m ++ text_nodes t).
Proof.
  induction t as [i nd kids IH] using tree_induct. intros Hl fuel m Hfuel.
  inversion Hl as [i' nd' kids' Hi Hcs Hkids]; subst.
  destruct fuel as [|fuel]; [simpl in Hfuel; lia|].
  cbn [Dom5Ts.nodeWalkAll root text_nodes]. unfold on_node, deref.
  rewrite Hi. cbn.
  set (m' := if isTextNode nd then m ++ [i] else m).
  assert (m ++ (if isTextNode nd then [i] else []) = m') as Hm'.
  { unfold m'. destruct (isTextNode nd); [done|by rewrite app_nil_r]. }
  rewrite app_assoc, Hm'. clear Hm'. generalize m'. clear m m'.
  destruct (childNodes nd) as [cs|]; subst; [|intros; by rewrite app_nil_r].
  assert (Hh : Forall (λ k, height k ≤ fuel) kids).
  { apply Forall_forall. intros k Hk.
    pose proof (height_kids i nd kids k Hk). lia. }
  clear Hfuel Hl Hi.
  induction kids as [|k kids IHk]; intros m; [by rewrite app_nil_r|].
  apply Forall_cons in IH as [IH1 IH2].
  apply Forall_cons in Hkids as [Hk1 Hk2].
  apply Forall_cons in Hh as [Hh1 Hh2].
  cbn [map foldl flat_map]. cbn. rewrite IH1 by done.
  rewrite IHk by done. by rewrite app_assoc.
Qed.

Lemma getTextContent_text s n nd fuel :
  s !! n = Some nd → isTextNode nd = true → 1 ≤ fuel →
  Dom5Ts.getTextContent fuel s n = Ok (value nd).
Proof.
  intros Hn Ht Hfuel. destruct fuel as [|fuel]; [lia|]. simpl.
  unfold deref. rewrite Hn. cbn.
  unfold isCommentNode, isTextNode in *. apply String.eqb_eq in Ht.
  rewrite Ht. done.
Qed.

Lemma mapM_getTextContent s t fuel :
  lays s t → 1 ≤ fuel →
  mapM (Dom5Ts.getTextContent fuel s) (text_nodes t) = Ok (all_texts t).
Proof.
  induction t as [i nd kids IH] using tree_induct. intros Hl Hfuel.
  inversion Hl as [i' nd' kids' Hi Hcs Hkids]; subst.
  cbn [text_nodes all_texts]. apply mapM_res_app.
  - destruct (isTextNode nd) eqn:Ht; [|done]. cbn.
    by rewrite (getTextContent_text s i nd).
  - apply mapM_res_flat_map. rewrite Forall_forall in *. auto.
Qed.

Lemma getTextContent_subtree s t fuel :
  lays s t → height t < fuel →
  isCommentNode (record t) = false → isTextNode (record t) = false →
  Dom5Ts.getTextContent fuel s (root t)
  = Ok (String.concat "" (all_texts t)).
Proof.
  intros Hl Hfuel Hc Ht.
  destruct fuel as [|fuel]; [lia|].
  cbn [Dom5Ts.getTextContent]. unfold deref.
  rewrite (lays_root s t Hl). cbn. rewrite Hc, Ht.
  rewrite nodeWalkAll_text_nodes by (done || lia). cbn.
  rewrite mapM_getTextContent; [done..|].
  destruct t; simpl in Hfuel; lia.
Qed.

(** C7 (amended): [hasTextValue v] compares [v] with the node's own value
    on a text node and with its own data on a comment node; on an element
    the dom5.js predicate compares with the concatenated values of the
    direct text-node children only, whereas the dom5.ts predicate compares
    with the concatenated values of all text nodes below the element, in
    document order. *)
Theorem hasTextValue_by_kind (v : string) s n nd :
  s !! n = Some nd →
  (isElement nd = true → ∀ cs, childNodes nd = Some cs →
     (∀ c, c ∈ cs → is_Some (s !! c)) →
     Dom5Js.hasTextValue v s n = Ok (String.eqb (direct_text s cs) v))
  ∧ (isElement nd = false → isTextNode nd = true →
     Dom5Js.hasTextValue v s n = Ok (String.eqb (value nd) v))
  ∧ (isElement nd = false → isCommentNode nd = true →
     Dom5Js.hasTextValue v s n = Ok (String.eqb (data nd) v))
  ∧ (isTextNode nd = true → ∀ fuel, 1 ≤ fuel →
     Dom5Ts.hasTextValue fuel v s n = Ok (String.eqb (value nd) v))
  ∧ (isCommentNode nd = true → ∀ fuel, 1 ≤ fuel →
     Dom5Ts.hasTextValue fuel v s n = Ok (String.eqb (data nd) v))
  ∧ (isTextNode nd = false → isCommentNode nd = false →
     ∀ t fuel, lays s t → root t = n → height t < fuel →
     Dom5Ts.hasTextValue fuel v s n
     = Ok (String.eqb (String.concat "" (all_texts t)) v)).
Proof.
  intros Hn. pose proof (deref_Some s n nd Hn) as Hd. split_and!.
  - intros He cs Hcs Hall.
    unfold Dom5Js.hasTextValue, Dom5Js.normalizeTextContent.
    rewrite Hd. run. rewrite He. run. rewrite Hcs. run.
    rewrite normalizeTextContent_children by done. by run.
  - intros He Ht. unfold Dom5Js.hasTextValue. rewrite Hd. run.
    by rewrite He, Ht.
  - intros He Hc. unfold Dom5Js.hasTextValue. rewrite Hd. run.
    rewrite He, Hc. unfold isTextNode, isCommentNode in *.
    apply String.eqb_eq in Hc. by rewrite Hc.
  - intros Ht fuel Hfuel. unfold Dom5Ts.hasTextValue.
    by rewrite (getTextContent_text s n nd).
  - intros Hc [|fuel] Hfuel; [lia|]. unfold Dom5Ts.hasTextValue.
    cbn [Dom5Ts.getTextContent]. rewrite Hd. run. by rewrite Hc.
  - intros Ht Hc t fuel Hl <- Hfuel. unfold Dom5Ts.hasTextValue.
    rewrite (lays_root s t Hl) in Hn. injection Hn as <-.
    by rewrite getTextContent_subtree.
Qed.

Lemma hasTextValue_by_kind_witness :
  Dom5Js.hasTextValue "a" sample 1 = Ok true
  ∧ Dom5Ts.hasTextValue 4 "ab" sample 1 = Ok true
  ∧ Dom5Js.hasTextValue "b" sample 4 = Ok true
  ∧ Dom5Ts.hasTextValue 1 "c" sample 5 = Ok true.
Proof.
  destruct (hasTextValue_by_kind "a" sample 1 _ eq_refl)
    as (Hjs & _ & _ & _ & _ & _).
  destruct (hasTextValue_by_kind "ab" sample 1 _ eq_refl)
    as (_ & _ & _ & _ & _ & Hts).
  destruct (hasTextValue_by_kind "b" sample 4 _ eq_refl)
    as (_ & Htext & _ & _ & _ & _).
  destruct (hasTextValue_by_kind "c" sample 5 _ eq_refl)
    as (_ & _ & _ & _ & Hcomment & _).
  split_and!.
  - apply (Hjs eq_refl [2; 3] eq_refl). intros c Hc.
    apply lookup_lt_is_Some. cbn.
    apply elem_of_cons in Hc as [->|Hc]; [lia|].
    apply elem_of_cons in Hc as [->|Hc]; [lia|]. by apply elem_of_nil in Hc.
  - apply (Hts eq_refl eq_refl
             (Tree 1 (element "div" [2; 3] (Obj 0))
                [ Tree 2 (text "a" (Obj 1)) [];
                  Tree 3 (element "span" [4] (Obj 1))
                    [ Tree 4 (text "b" (Obj 3)) [] ] ]) 4).
    + repeat (constructor; try done).
    + done.
    + simpl. lia.
  - apply (Htext eq_refl eq_refl).
  - apply (Hcomment eq_refl 1). lia.
Defined.

(** C7 as stated fails for the dom5.ts predicate: the element [div] of the
    sample has the single direct text child "a", yet [hasTextValue "a"]
    rejects it and [hasTextValue "ab"] accepts it, the text "b" lying in a
    nested element. *)
Lemma hasTextValue_ts_is_recursive :
  children_of sample 1 = Some [2; 3]
  ∧ isElement (element "div" [2; 3] (Obj 0)) = true
  ∧ direct_text sample [2; 3] = "a"
  ∧ Dom5Ts.hasTextValue 4 "a" sample 1 = Ok false
  ∧ Dom5Ts.hasTextValue 4 "ab" sample 1 = Ok true.
Proof. by vm_compute. Qed.

(** ** Store updates *)

Lemma children_of_set_childNodes s p cs q :
  children_of (set_childNodes p cs s) q
  = if decide (p = q) then s !! p ≫= λ _, Some cs else children_of s q.
Proof.
  unfold children_of, set_childNodes. rewrite list_lookup_alter.
  destruct (decide (p = q)) as [->|]; [|done].
  by destruct (s !! q).
Qed.

Lemma parent_of_set_childNodes s p cs c :
  parent_of (set_childNodes p cs s) c = parent_of s c.
Proof.
  unfold parent_of, set_childNodes. rewrite list_lookup_alter.
  destruct (decide (p = c)) as [->|]; [|done]. by destruct (s !! c).
Qed.

Lemma children_of_set_parentNode s n v q :
  children_of (set_parentNode n v s) q = children_of s q.
Proof.
  unfold children_of, set_parentNode. rewrite list_lookup_alter.
  destruct (decide (n = q)) as [->|]; [|done]. by destruct (s !! q).
Qed.

Lemma parent_of_set_parentNode s n v c :
  parent_of (set_parentNode n v s) c
  = if decide (n = c) then s !! n ≫= λ _, truthy v else parent_of s c.
Proof.
  unfold parent_of, set_parentNode. rewrite list_lookup_alter.
  destruct (decide (n = c)) as [->|]; [|done]. by destruct (s !! c).
Qed.

Lemma length_set_childNodes s p cs : length (set_childNodes p cs s) = length s.
Proof. apply length_alter. Qed.

Lemma length_set_parentNode s n v : length (set_parentNode n v s) = length s.
Proof. apply length_alter. Qed.

Lemma length_set_parents s p l :
  length (foldl (λ acc n, set_parentNode n p acc) s l) = length s.
Proof.
  revert s. induction l as [|x l IH]; intros s; [done|].
  simpl. by rewrite IH, length_set_parentNode.
Qed.

Lemma children_of_set_parents s p l q :
  children_of (foldl (λ acc n, set_parentNode n p acc) s l) q
  = children_of s q.
Proof.
  revert s. induction l as [|x l IH]; intros s; [done|].
  simpl. by rewrite IH, children_of_set_parentNode.
Qed.

Lemma parent_of_set_parents s p l c :
  parent_of (foldl (λ acc n, set_parentNode n p acc) s l) c
  = if decide (c ∈ l) then s !! c ≫= λ _, truthy p else parent_of s c.
Proof.
  revert s. induction l as [|x l IH]; intros s.
  - simpl. destruct (decide (c ∈ [])) as [H|]; [|done].
    by apply elem_of_nil in H.
  - simpl. rewrite IH, parent_of_set_parentNode.
    unfold set_parentNode. rewrite list_lookup_alter.
    destruct (decide (c ∈ l)) as [Hl|Hl], (decide (x = c)) as [->|Hne],
      (decide (c ∈ _ :: l)) as [Hxl|Hxl]; try done.
    all: try by destruct (s !! c).
    all: try by (exfalso; apply Hxl; constructor).
    apply elem_of_cons in Hxl as [?|?]; congruence.
Qed.

Lemma allocated_children s p cs : children_of s p = Some cs → p < length s.
Proof.
  unfold children_of. destruct (s !! p) eqn:H; [|done].
  intros _. by eapply lookup_lt_Some.
Qed.

Lemma children_of_Some s p cs :
  children_of s p = Some cs ↔ ∃ pd, s !! p = Some pd ∧ childNodes pd = Some cs.
Proof.
  unfold children_of. destruct (s !! p) as [pd|]; simpl.
  - split; [by eauto|]. by intros (? & [= <-] & ?).
  - split; [done|]. by intros (? & ? & ?).
Qed.

Lemma parent_of_Some s c p :
  parent_of s c = Some p ↔ ∃ cd, s !! c = Some cd ∧ parentNode cd = Obj p.
Proof.
  unfold parent_of. destruct (s !! c) as [cd|]; simpl.
  - split.
    + destruct (parentNode cd) as [| |q] eqn:E; [done..|].
      intros [= ->]. eauto.
    + by intros (? & [= <-] & ->).
  - split; [done|]. by intros (? & ? & ?).
Qed.

Lemma bind_allocated {A} (s : store) n (a : option A) :
  n < length s → (s !! n ≫= λ _, a) = a.
Proof. intros [? ->]%lookup_lt_is_Some. done. Qed.

Lemma bind_const_None {A B} (o : option A) : (o ≫= λ _, @None B) = None.
Proof. by destruct o. Qed.

Lemma splice_start_nat len (i : nat) :
  i ≤ len → splice_start len (Z.of_nat i) = i.
Proof.
  intros. unfold splice_start.
  destruct (Z.ltb_spec (Z.of_nat i) 0); lia.
Qed.

Lemma splice_insert {A} (arr items : list A) (i : nat) :
  i ≤ length arr →
  splice arr (Z.of_nat i) 0 items = take i arr ++ items ++ drop i arr.
Proof.
  intros. unfold splice. rewrite splice_start_nat by done.
  by rewrite Nat.add_0_r.
Qed.

(** ** Inserting a fragment *)

(** C2 (amended): inserting a fragment [F], distinct from the parent [P],
    at an index [i] within the children of [P] splices the [k] children of
    [F] in at [i], in order and instead of [F] itself; the child count of
    [P] grows by exactly [k], every spliced child gets [P] as its
    [parentNode], and [F] is left with no children.  [append] and
    [insertBefore] reach the routine with the end of the array and with the
    position of the reference child. *)
Theorem fragment_children_spliced s P F fd cs fcs (i : nat) :
  children_of s P = Some cs → i ≤ length cs →
  s !! F = Some fd → isDocumentFragment fd = true →
  childNodes fd = Some fcs → F ≠ P →
  (∀ c, c ∈ fcs → c < length s) →
  ∃ s',
    Dom5Ts.insertNode P (Z.of_nat i) F false s = Ok s'
    ∧ children_of s' P = Some (take i cs ++ fcs ++ drop i cs)
    ∧ length (take i cs ++ fcs ++ drop i cs) = length cs + length fcs
    ∧ children_of s' F = Some []
    ∧ (∀ c, c ∈ fcs → parent_of s' c = Some P)
    ∧ (i = length cs → Dom5Ts.append P F s = Ok s')
    ∧ (∀ ref, indexOf cs ref = Z.of_nat i →
         Dom5Ts.insertBefore P ref F s = Ok s').
Proof.
  intros HP Hi HF Hfrag Hfcs Hne Halloc.
  pose proof HP as (pd & HPd & Hcs)%children_of_Some.
  set (s1 := set_childNodes F [] s).
  set (s2 := set_childNodes P (take i cs ++ fcs ++ drop i cs) s1).
  set (s3 := foldl (λ acc n, set_parentNode n (Obj P) acc) s2 fcs).
  assert (Hs1P : s1 !! P = Some pd).
  { unfold s1, set_childNodes. by rewrite list_lookup_alter_ne. }
  assert (Hrun : Dom5Ts.insertNode P (Z.of_nat i) F false s = Ok s3).
  { unfold Dom5Ts.insertNode. run. rewrite (deref_Some _ _ _ HF). run.
    rewrite Hfrag, Hfcs. run. fold s1.
    rewrite (deref_Some _ _ _ Hs1P). run. rewrite Hcs. run.
    by rewrite splice_insert. }
  exists s3. split_and!.
  - done.
  - unfold s3, s2. rewrite children_of_set_parents, children_of_set_childNodes.
    rewrite decide_True by done. by rewrite Hs1P.
  - rewrite !length_app, length_take, length_drop. lia.
  - unfold s3, s2, s1.
    rewrite children_of_set_parents, !children_of_set_childNodes.
    rewrite decide_False, decide_True by done. by rewrite HF.
  - intros c Hc. unfold s3. rewrite parent_of_set_parents.
    rewrite decide_True by done. apply bind_allocated.
    unfold s2, s1. rewrite !length_set_childNodes. by apply Halloc.
  - intros ->. unfold Dom5Ts.append.
    rewrite (deref_Some _ _ _ HPd). run. rewrite Hcs. by run.
  - intros ref Href. unfold Dom5Ts.insertBefore.
    rewrite (deref_Some _ _ _ HPd). run. rewrite Hcs. run. by rewrite Href.
Qed.

Lemma fragment_children_spliced_witness :
  ∃ s',
    Dom5Ts.insertNode 0 (Z.of_nat 1) 2 false list_and_fragment = Ok s'
    ∧ children_of s' 0 = Some [1; 3; 4]
    ∧ children_of s' 2 = Some []
    ∧ parent_of s' 3 = Some 0 ∧ parent_of s' 4 = Some 0
    ∧ Dom5Ts.append 0 2 list_and_fragment = Ok s'.
Proof.
  destruct (fragment_children_spliced list_and_fragment 0 2
              (fragment [3; 4]) [1] [3; 4] 1)
    as (s' & Hrun & HP & _ & HF & Hpar & Happ & _).
  - reflexivity.
  - simpl. lia.
  - reflexivity.
  - reflexivity.
  - reflexivity.
  - lia.
  - intros c Hc. simpl.
    apply elem_of_cons in Hc as [->|Hc]; [lia|].
    apply elem_of_cons in Hc as [->|Hc]; [lia|]. by apply elem_of_nil in Hc.
  - exists s'. split_and!; [done..| | |by apply Happ].
    + apply Hpar. constructor.
    + apply Hpar. do 2 constructor.
Defined.

(** C2 as stated fails when the fragment is appended to itself: the call
    returns, and afterwards the fragment still has its child, so its child
    count is neither 0 nor one more than before. *)
Lemma fragment_into_itself :
  isDocumentFragment (fragment [1]) = true
  ∧ children_of one_child_fragment 0 = Some [1]
  ∧ ∃ s' cs',
      Dom5Ts.append 0 0 one_child_fragment = Ok s'
      ∧ children_of s' 0 = Some cs'
      ∧ length cs' ≠ 0
      ∧ length cs' ≠ length [1] + length [1].
Proof. split_and!; [done..|]. do 2 eexists. by vm_compute. Qed.

(** ** A node its parent does not list *)

(** C6 (amended): for a node whose [parentNode] is set but which the
    [childNodes] of that parent do not list, [previousSiblings] throws
    before yielding anything, and the error reaches the callers of the
    prior-order walks built on it. *)
Theorem previousSiblings_raises s n nd p cs :
  s !! n = Some nd → parentNode nd = Obj p →
  children_of s p = Some cs → n ∉ cs →
  let e := InconsistentTree
             "Inconsistent parse5 tree: parent does not know about child" in
  Iteration.previousSiblings s n = ([], Thrown e)
  ∧ (∀ fuel, 0 < fuel → Walking.iteratePrior fuel s n = ([], Thrown e))
  ∧ (∀ fuel pred, 0 < fuel → Walking.nodeWalkPrior fuel s n pred = Throw e)
  ∧ (∀ fuel pred m b, 0 < fuel → pred s n = Ok b →
       Walking.nodeWalkAllPrior fuel s n pred m = Throw e).
Proof.
  intros Hn Hp (pd & Hpd & Hcs)%children_of_Some Hout e.
  assert (Hprev : Iteration.previousSiblings s n = ([], Thrown e)).
  { unfold Iteration.previousSiblings.
    by rewrite Hn, Hp, Hpd, Hcs, indexOf_absent. }
  assert (Hprior : ∀ fuel, 0 < fuel →
            Walking.iteratePrior fuel s n = ([], Thrown e)).
  { intros [|fuel] ?; [lia|]. cbn [Walking.iteratePrior]. by rewrite Hprev. }
  split_and!; [done..| |].
  - intros fuel pred Hfuel. unfold Walking.nodeWalkPrior.
    by rewrite Hprior.
  - intros fuel pred m b Hfuel Hb.
    unfold Walking.nodeWalkAllPrior, Walking.iteratePriorIncludingNode.
    rewrite Hprior by done. unfold Walking.filter. cbn. by rewrite Hb.
Qed.

Lemma previousSiblings_raises_witness :
  Iteration.previousSiblings stray 2
  = ([], Thrown (InconsistentTree
       "Inconsistent parse5 tree: parent does not know about child"))
  ∧ Walking.nodeWalkPrior 3 stray 2 always
    = Throw (InconsistentTree
        "Inconsistent parse5 tree: parent does not know about child").
Proof.
  destruct (previousSiblings_raises stray 2 (text "b" (Obj 0)) 0 [1])
    as (Hprev & _ & Hwalk & _).
  - reflexivity.
  - reflexivity.
  - reflexivity.
  - intros Hin. apply elem_of_cons in Hin as [?|Hin]; [lia|].
    by apply elem_of_nil in Hin.
  - split; [exact Hprev|]. apply Hwalk. lia.
Defined.

(** C6 as stated fails for the mutation operations of dom5.ts: node 2 of
    [stray] names the element 0 as parent and is not among its children
    [1], yet [remove], [insertBefore] with it as reference and [replace] of
    it all return normally, having changed the children of 0. *)
Lemma mutations_do_not_raise :
  parent_of stray 2 = Some 0 ∧ children_of stray 0 = Some [1]
  ∧ (∃ s', Dom5Ts.remove 2 stray = Ok s' ∧ children_of s' 0 = Some [])
  ∧ (∃ s', Dom5Ts.insertBefore 0 2 3 stray = Ok s'
           ∧ children_of s' 0 = Some [3; 1])
  ∧ (∃ s', Dom5Ts.replace 2 3 stray = Ok s'
           ∧ children_of s' 0 = Some [3]).
Proof. split_and!; [done..| | |]; eexists; by vm_compute. Qed.

(** ** The single-owner invariant *)

Lemma bind_Ok_inv {A B} (r : res A) (k : A → res B) b :
  (r ≫= k) = Ok b → ∃ a, r = Ok a ∧ k a = Ok b.
Proof. destruct r as [a| |]; [|done..]. intros H. by exists a. Qed.

Lemma deref_Ok_inv s n nd : deref s n = Ok nd → s !! n = Some nd.
Proof. unfold deref. by destruct (s !! n); intros [= ->]. Qed.

Lemma defined_Ok_inv {A} (o : option A) a : defined o = Ok a → o = Some a.
Proof. by destruct o; intros [= ->]. Qed.

Lemma sublist_take_drop {A} (l : list A) a b :
  a ≤ b → take a l ++ drop b l `sublist_of` l.
Proof.
  intros Hab. rewrite <- (take_drop a l) at 3.
  apply sublist_app; [done|].
  replace b with (a + (b - a)) by lia. rewrite <- drop_drop.
  apply sublist_drop.
Qed.

Lemma splice_delete_sublist {A} (arr : list A) start k :
  splice arr start k [] `sublist_of` arr.
Proof. unfold splice. simpl. apply sublist_take_drop. lia. Qed.

(** Deleting at the position of [n] leaves no [n] in an array without
    duplicates; when [n] is absent, [indexOf] is -1 and the last element
    goes instead. *)
Lemma splice_indexOf_gone (cs : list id) n :
  NoDup cs → n ∉ splice cs (indexOf cs n) 1 [].
Proof.
  intros Hnd. destruct (decide (n ∈ cs)) as [Hin|Hout].
  - destruct (indexOf_present cs n Hin) as (l1 & l2 & -> & Hl1 & ->).
    unfold splice. rewrite splice_start_nat by (rewrite length_app; lia).
    simpl. rewrite take_app_length.
    replace (length l1 + 1) with (length (l1 ++ [n]))
      by (rewrite length_app; simpl; lia).
    rewrite (cons_middle n l1 l2), app_assoc, drop_app_length.
    apply NoDup_app in Hnd as (_ & _ & Hl2).
    apply NoDup_cons in Hl2 as [Hl2 _].
    by intros [?|?]%elem_of_app.
  - intros Hin. apply Hout. eapply elem_of_sublist; [done|].
    apply splice_delete_sublist.
Qed.

Lemma remove_Ok_inv n s s' :
  Dom5Ts.remove n s = Ok s' →
  ∃ nd, s !! n = Some nd
    ∧ ((truthy (parentNode nd) = None ∧ s' = set_parentNode n Null s)
       ∨ ∃ q cs, parentNode nd = Obj q ∧ children_of s q = Some cs
           ∧ s' = set_parentNode n Null
                    (set_childNodes q (splice cs (indexOf cs n) 1 []) s)).
Proof.
  unfold Dom5Ts.remove.
  intros (nd & Hnd%deref_Ok_inv & H)%bind_Ok_inv. exists nd. split; [done|].
  apply bind_Ok_inv in H as (s1 & Hs1 & [= <-]).
  destruct (parentNode nd) as [| |q]; [left; by injection Hs1 as <-..|right].
  apply bind_Ok_inv in Hs1 as (pd & Hpd%deref_Ok_inv & H).
  apply bind_Ok_inv in H as (cs & Hcs%defined_Ok_inv & [= <-]).
  exists q, cs. split_and!; [done| |done].
  apply children_of_Some. eauto.
Qed.

Lemma remove_single_owner n s s' :
  single_owner s → Dom5Ts.remove n s = Ok s' →
  single_owner s'
  ∧ (∀ q qcs, children_of s' q = Some qcs → n ∉ qcs)
  ∧ parent_of s' n = None
  ∧ length s' = length s
  ∧ (∀ q, is_Some (children_of s q) → is_Some (children_of s' q)).
Proof.
  intros Hown (nd & Hnd & Hcase)%remove_Ok_inv.
  assert (Hpar : parent_of s n = truthy (parentNode nd)).
  { unfold parent_of. by rewrite Hnd. }
  destruct Hcase as [[Hp ->]|(q & cs & Hp & Hq & ->)];
    rewrite Hp in Hpar; cbn [truthy] in Hpar.
  - (* no parent: no array lists [n] *)
    assert (Hnone : ∀ q qcs, children_of s q = Some qcs → n ∉ qcs).
    { intros q qcs Hq Hin. destruct (Hown q qcs Hq) as [_ Hmem].
      specialize (Hmem n Hin). congruence. }
    split_and!.
    + intros p cs. rewrite children_of_set_parentNode. intros Hcs.
      destruct (Hown p cs Hcs) as [Hnd' Hmem]. split; [done|].
      intros c Hc. rewrite parent_of_set_parentNode.
      destruct (decide (n = c)) as [->|]; [|by apply Hmem].
      exfalso. by eapply Hnone.
    + intros q qcs. rewrite children_of_set_parentNode. apply Hnone.
    + rewrite parent_of_set_parentNode, decide_True by done.
      apply bind_const_None.
    + apply length_set_parentNode.
    + intros q. by rewrite children_of_set_parentNode.
  - pose proof (allocated_children s q cs Hq) as Hqa.
    destruct (Hown q cs Hq) as [Hcsnd Hcsmem].
    set (cs' := splice cs (indexOf cs n) 1 []).
    assert (Hch : ∀ p, children_of
              (set_parentNode n Null (set_childNodes q cs' s)) p
              = if decide (q = p) then Some cs' else children_of s p).
    { intros p. rewrite children_of_set_parentNode,
        children_of_set_childNodes.
      destruct (decide (q = p)); [|done]. by apply bind_allocated. }
    assert (Hgone : ∀ p pcs, children_of
              (set_parentNode n Null (set_childNodes q cs' s)) p = Some pcs →
              n ∉ pcs).
    { intros p pcs. rewrite Hch. destruct (decide (q = p)) as [<-|Hne].
      - intros [= <-]. by apply splice_indexOf_gone.
      - intros Hpcs Hin. destruct (Hown p pcs Hpcs) as [_ Hmem].
        specialize (Hmem n Hin). congruence. }
    split_and!.
    + intros p pcs Hpcs. pose proof (Hgone p pcs Hpcs) as Hn.
      rewrite Hch in Hpcs.
      assert (NoDup pcs ∧ ∀ c, c ∈ pcs → parent_of s c = Some p) as [? Hmem].
      { destruct (decide (q = p)) as [<-|Hne].
        - injection Hpcs as <-. split.
          + eapply sublist_NoDup; [done|apply splice_delete_sublist].
          + intros c Hc. apply Hcsmem. eapply elem_of_sublist; [done|].
            apply splice_delete_sublist.
        - by apply Hown. }
      split; [done|]. intros c Hc.
      rewrite parent_of_set_parentNode, parent_of_set_childNodes.
      destruct (decide (n = c)) as [->|]; [done|by apply Hmem].
    + done.
    + rewrite parent_of_set_parentNode, decide_True by done.
      apply bind_const_None.
    + by rewrite length_set_parentNode, length_set_childNodes.
    + intros p Hp'. rewrite Hch. by destruct (decide (q = p)).
Qed.

Lemma at_index_Some {A} (arr : list A) idx x :
  at_index arr idx = Some x →
  (0 ≤ idx)%Z ∧ arr !! Z.to_nat idx = Some x
  ∧ splice_start (length arr) idx = Z.to_nat idx.
Proof.
  unfold at_index, splice_start. destruct (Z.ltb_spec idx 0); [done|].
  intros Hx. split_and!; [done..|].
  apply lookup_lt_Some in Hx. lia.
Qed.

Lemma splice_elem_of {A} (arr items : list A) start k x :
  x ∈ splice arr start k items →
  x ∈ items ∨ x ∈ take (splice_start (length arr) start) arr
                   ++ drop (splice_start (length arr) start + k) arr.
Proof.
  unfold splice. rewrite !elem_of_app. tauto.
Qed.

Lemma splice_NoDup {A} (arr items : list A) start k :
  NoDup arr → NoDup items → (∀ x, x ∈ items → x ∉ arr) →
  NoDup (splice arr start k items).
Proof.
  intros Harr Hitems Hdisj. unfold splice.
  set (st := splice_start (length arr) start).
  assert (Hsub : take st arr ++ drop (st + k) arr `sublist_of` arr)
    by (apply sublist_take_drop; lia).
  pose proof (sublist_NoDup _ _ Harr Hsub) as Hnd.
  apply NoDup_app in Hnd as (Ht & Htd & Hd).
  apply NoDup_app. split_and!; [done| |].
  - intros x Hx [Hi|Hdr]%elem_of_app.
    + apply (Hdisj x Hi). eapply elem_of_sublist; [exact Hx|apply sublist_take].
    + by apply (Htd x).
  - apply NoDup_app. split_and!; [done| |done].
    intros x Hi Hdr. apply (Hdisj x Hi).
    eapply elem_of_sublist; [exact Hdr|apply sublist_drop].
Qed.

Lemma spliced_single_owner P idx repl newNodes cs1 s1 :
  single_owner s1 → children_of s1 P = Some cs1 →
  NoDup newNodes →
  (∀ c, c ∈ newNodes → c < length s1) →
  (∀ c q qcs, c ∈ newNodes → children_of s1 q = Some qcs → c ∉ qcs) →
  single_owner (spliced P idx repl newNodes cs1 s1)
  ∧ children_of (spliced P idx repl newNodes cs1 s1) P
    = Some (splice cs1 idx (if repl then 1 else 0) newNodes)
  ∧ (∀ c, c ∈ newNodes →
       parent_of (spliced P idx repl newNodes cs1 s1) c = Some P).
Proof.
  intros Hown HP Hnew Halloc Hfree.
  pose proof (allocated_children _ _ _ HP) as HPa.
  destruct (Hown P cs1 HP) as [Hcs1 Hcs1mem].
  set (k := if repl then 1 else 0).
  set (L := splice cs1 idx k newNodes).
  set (ro := if repl then at_index cs1 idx else None).
  assert (Hch : ∀ p, children_of (spliced P idx repl newNodes cs1 s1) p
                     = if decide (P = p) then Some L else children_of s1 p).
  { intros p. unfold spliced. fold k L ro.
    assert (children_of
              (foldl (λ acc n, set_parentNode n (Obj P) acc)
                 (set_childNodes P L s1) newNodes) p
            = if decide (P = p) then Some L else children_of s1 p) as Hs3.
    { rewrite children_of_set_parents, children_of_set_childNodes.
      destruct (decide (P = p)); [|done]. by apply bind_allocated. }
    destruct ro; [|done]. by rewrite children_of_set_parentNode. }
  assert (Hpar : ∀ c, parent_of (spliced P idx repl newNodes cs1 s1) c
                      = if decide (ro = Some c) then None
                        else if decide (c ∈ newNodes) then Some P
                        else parent_of s1 c).
  { intros c. unfold spliced. fold k L ro.
    assert (parent_of
              (foldl (λ acc n, set_parentNode n (Obj P) acc)
                 (set_childNodes P L s1) newNodes) c
            = if decide (c ∈ newNodes) then Some P else parent_of s1 c)
      as Hs3.
    { rewrite parent_of_set_parents, parent_of_set_childNodes.
      destruct (decide (c ∈ newNodes)) as [Hc|]; [|done].
      apply bind_allocated. rewrite length_set_childNodes. by apply Halloc. }
    destruct ro as [r|].
    - rewrite parent_of_set_parentNode.
      destruct (decide (r = c)) as [->|Hne].
      + rewrite decide_True by done. apply bind_const_None.
      + rewrite decide_False by congruence. done.
    - rewrite decide_False by done. done. }
  assert (Hr : ∀ r, ro = Some r →
            r ∈ cs1 ∧ (r ∉ newNodes)
            ∧ (r ∉ take (splice_start (length cs1) idx) cs1
                   ++ drop (splice_start (length cs1) idx + k) cs1)).
  { intros r. unfold ro, k. destruct repl; [|done].
    intros (Hidx & Hlk & ->)%at_index_Some.
    assert (r ∈ cs1) as Hin by (by eapply list_elem_of_lookup_2).
    split_and!; [done| |].
    - intros Hnewr. by eapply Hfree.
    - pose proof (take_drop_middle cs1 _ r Hlk) as Hmid.
      rewrite <- Hmid in Hcs1.
      apply NoDup_app in Hcs1 as (_ & Hl & Hrr).
      apply NoDup_cons in Hrr as [Hrr _].
      replace (Z.to_nat idx + 1) with (S (Z.to_nat idx)) by lia.
      intros [Ht|Hd]%elem_of_app; [|done].
      apply (Hl r Ht). constructor. }
  split_and!.
  - intros p pcs. rewrite Hch. destruct (decide (P = p)) as [<-|Hne].
    + intros [= <-]. split.
      * apply splice_NoDup; [done..|]. intros x Hx. by eapply Hfree.
      * intros c Hc. rewrite Hpar.
        apply splice_elem_of in Hc as [Hc|Hc].
        -- destruct (decide (ro = Some c)) as [Hro|_].
           ++ apply Hr in Hro as (_ & ? & _). done.
           ++ by rewrite decide_True.
        -- destruct (decide (ro = Some c)) as [Hro|_].
           ++ apply Hr in Hro as (_ & _ & ?). done.
           ++ assert (c ∈ cs1) as Hc1.
              { eapply elem_of_sublist; [exact Hc|].
                apply sublist_take_drop. lia. }
              destruct (decide (c ∈ newNodes)); [done|]. by apply Hcs1mem.
    + intros Hpcs. destruct (Hown p pcs Hpcs) as [Hnd Hmem].
      split; [done|]. intros c Hc. rewrite Hpar.
      destruct (decide (ro = Some c)) as [Hro|_].
      * apply Hr in Hro as (Hin & _ & _).
        specialize (Hcs1mem c Hin). specialize (Hmem c Hc). congruence.
      * destruct (decide (c ∈ newNodes)) as [Hn|_]; [|by apply Hmem].
        exfalso. by eapply Hfree.
  - rewrite Hch. by rewrite decide_True.
  - intros c Hc. rewrite Hpar, decide_False, decide_True; [done..|].
    intros Hro. apply Hr in Hro as (_ & ? & _). done.
Qed.

Lemma insertNode_Ok_inv P idx n repl s s' :
  Dom5Ts.insertNode P idx n repl s = Ok s' →
  ∃ nn s1 newNodes cs1,
    s !! n = Some nn
    ∧ (if isDocumentFragment nn
       then childNodes nn = Some newNodes ∧ s1 = set_childNodes n [] s
       else Dom5Ts.remove n s = Ok s1 ∧ newNodes = [n])
    ∧ children_of s1 P = Some cs1
    ∧ s' = spliced P idx repl newNodes cs1 s1.
Proof.
  unfold Dom5Ts.insertNode.
  intros (_ & _ & H)%bind_Ok_inv.
  apply bind_Ok_inv in H as (nn & Hnn%deref_Ok_inv & H).
  apply bind_Ok_inv in H as ([newNodes s1] & Hfirst & H).
  apply bind_Ok_inv in H as (removed & Hremoved & H).
  apply bind_Ok_inv in H as (pd & Hpd%deref_Ok_inv & H).
  apply bind_Ok_inv in H as (cs1 & Hcs1%defined_Ok_inv & H).
  exists nn, s1, newNodes, cs1. split_and!.
  - done.
  - destruct (isDocumentFragment nn).
    + apply bind_Ok_inv in Hfirst as (fcs & Hfcs%defined_Ok_inv & [= <- <-]).
      done.
    + by apply bind_Ok_inv in Hfirst as (s1' & Hrem & [= <- <-]).
  - apply children_of_Some. eauto.
  - unfold spliced. destruct repl.
    + apply bind_Ok_inv in Hremoved as (pd' & Hpd'%deref_Ok_inv & Hr).
      apply bind_Ok_inv in Hr as (cs' & Hcs'%defined_Ok_inv & [= <-]).
      assert (cs' = cs1) as -> by congruence.
      destruct (at_index cs1 idx); by injection H as <-.
    + injection Hremoved as <-. by injection H as <-.
Qed.

Lemma owner_is_sole s n p cs :
  single_owner s → children_of s p = Some cs → n ∈ cs → sole_owner s n p.
Proof.
  intros Hown Hcs Hn. destruct (Hown p cs Hcs) as [_ Hmem].
  split_and!; [by apply Hmem|by eauto|].
  intros q qcs Hq Hnq. destruct (Hown q qcs Hq) as [_ Hmemq].
  specialize (Hmem n Hn). specialize (Hmemq n Hnq). congruence.
Qed.

Lemma insertNode_single_owner P idx n repl s s' :
  single_owner s → Dom5Ts.insertNode P idx n repl s = Ok s' →
  single_owner s'
  ∧ ∀ nn, s !! n = Some nn → isDocumentFragment nn = false →
      sole_owner s' n P.
Proof.
  intros Hown (nn & s1 & newNodes & cs1 & Hnn & Hfirst & HP & ->)
    %insertNode_Ok_inv.
  assert (single_owner s1 ∧ NoDup newNodes
          ∧ (∀ c, c ∈ newNodes → c < length s1)
          ∧ (∀ c q qcs, c ∈ newNodes → children_of s1 q = Some qcs → c ∉ qcs)
          ∧ (isDocumentFragment nn = false → newNodes = [n]))
    as (Hown1 & Hnew & Halloc & Hfree & Hsingle).
  { destruct (isDocumentFragment nn).
    - destruct Hfirst as [Hfcs ->].
      assert (children_of s n = Some newNodes) as Hn
        by (apply children_of_Some; eauto).
      pose proof (allocated_children _ _ _ Hn) as Hna.
      destruct (Hown n newNodes Hn) as [Hnd Hmem].
      assert (Hch : ∀ p, children_of (set_childNodes n [] s) p
                = if decide (n = p) then Some [] else children_of s p).
      { intros p. rewrite children_of_set_childNodes.
        destruct (decide (n = p)); [|done]. by apply bind_allocated. }
      split_and!; [|done| | |done].
      + intros p pcs. rewrite Hch. destruct (decide (n = p)) as [<-|Hne].
        * intros [= <-]. split; [constructor|]. by intros c ?%elem_of_nil.
        * intros Hp. destruct (Hown p pcs Hp) as [? Hm]. split; [done|].
          intros c Hc. rewrite parent_of_set_childNodes. by apply Hm.
      + intros c Hc. rewrite length_set_childNodes.
        specialize (Hmem c Hc). unfold parent_of in Hmem.
        destruct (s !! c) eqn:Hsc; [|done]. by eapply lookup_lt_Some.
      + intros c q qcs Hc. rewrite Hch.
        destruct (decide (n = q)) as [<-|Hne].
        * intros [= <-]. apply not_elem_of_nil.
        * intros Hq Hcq. destruct (Hown q qcs Hq) as [_ Hm].
          specialize (Hm c Hcq). specialize (Hmem c Hc). congruence.
    - destruct Hfirst as [Hrem ->].
      destruct (remove_single_owner n s s1 Hown Hrem)
        as (Hown1 & Hgone & _ & Hlen & _).
      split_and!; [done| | | |done].
      + apply NoDup_singleton.
      + intros c ->%list_elem_of_singleton. rewrite Hlen.
        by eapply lookup_lt_Some.
      + intros c q qcs ->%list_elem_of_singleton. apply Hgone. }
  destruct (spliced_single_owner P idx repl newNodes cs1 s1
              Hown1 HP Hnew Halloc Hfree) as (Hown' & HP' & Hpar').
  split; [done|]. intros nn' Hnn' Hnf.
  assert (nn' = nn) as -> by congruence.
  pose proof (Hsingle Hnf) as ->.
  apply (owner_is_sole _ _ _ _ Hown' HP').
  unfold splice. apply elem_of_app. right. apply elem_of_app. left.
  constructor.
Qed.

(** C3: [remove], [append], [insertBefore] and [replace] preserve the
    single-owner invariant.  [remove] leaves the node in no [childNodes]
    array; an insertion of a node that is not a fragment leaves it listed by
    the target parent and by no other container, with its [parentNode]
    naming that parent, whatever container held it before; so does
    [remove] followed by [append]. *)
Theorem single_owner_preserved s :
  single_owner s →
  (∀ n s', Dom5Ts.remove n s = Ok s' →
     single_owner s' ∧ parent_of s' n = None
     ∧ ∀ q qcs, children_of s' q = Some qcs → n ∉ qcs)
  ∧ (∀ P n s', Dom5Ts.append P n s = Ok s' →
       single_owner s'
       ∧ ∀ nn, s !! n = Some nn → isDocumentFragment nn = false →
           sole_owner s' n P)
  ∧ (∀ P ref n s', Dom5Ts.insertBefore P ref n s = Ok s' →
       single_owner s'
       ∧ ∀ nn, s !! n = Some nn → isDocumentFragment nn = false →
           sole_owner s' n P)
  ∧ (∀ old n s', Dom5Ts.replace old n s = Ok s' →
       single_owner s'
       ∧ ∀ nn P, s !! n = Some nn → isDocumentFragment nn = false →
           parent_of s old = Some P → sole_owner s' n P)
  ∧ (∀ n P s1 s2, Dom5Ts.remove n s = Ok s1 → Dom5Ts.append P n s1 = Ok s2 →
       single_owner s2
       ∧ ∀ nn, s !! n = Some nn → isDocumentFragment nn = false →
           sole_owner s2 n P).
Proof.
  intros Hown.
  assert (Happend : ∀ s0 P n s', single_owner s0 →
            Dom5Ts.append P n s0 = Ok s' →
            single_owner s'
            ∧ ∀ nn, s0 !! n = Some nn → isDocumentFragment nn = false →
                sole_owner s' n P).
  { intros s0 P n s' Hown0. unfold Dom5Ts.append.
    intros (pd & _ & H)%bind_Ok_inv.
    apply bind_Ok_inv in H as (cs & _ & H).
    by eapply insertNode_single_owner. }
  split_and!.
  - intros n s' Hrem.
    destruct (remove_single_owner n s s' Hown Hrem) as (? & ? & ? & _).
    done.
  - intros P n s'. by apply Happend.
  - intros P ref n s'. unfold Dom5Ts.insertBefore.
    intros (pd & _ & H)%bind_Ok_inv.
    apply bind_Ok_inv in H as (cs & _ & H).
    by eapply insertNode_single_owner.
  - intros old n s'. unfold Dom5Ts.replace.
    intros (od & Hod%deref_Ok_inv & H)%bind_Ok_inv.
    apply bind_Ok_inv in H as (parent & Hparent%defined_Ok_inv & H).
    apply bind_Ok_inv in H as (pd & _ & H).
    apply bind_Ok_inv in H as (cs & _ & H).
    destruct (insertNode_single_owner _ _ _ _ _ _ Hown H) as [Hown' Hsole].
    split; [done|]. intros nn P Hnn Hnf HoldP.
    assert (P = parent) as ->.
    { unfold parent_of in HoldP. rewrite Hod in HoldP. simpl in HoldP.
      congruence. }
    by eapply Hsole.
  - intros n P s1 s2 Hrem Happ.
    destruct (remove_single_owner n s s1 Hown Hrem) as (Hown1 & _).
    destruct (Happend s1 P n s2 Hown1 Happ) as [Hown2 Hsole].
    split; [done|]. intros nn Hnn Hnf.
    apply remove_Ok_inv in Hrem as (nd & Hnd & Hcase).
    assert (∃ nn1, s1 !! n = Some nn1 ∧ isDocumentFragment nn1 = false)
      as (nn1 & Hnn1 & Hnf1).
    { assert (nd = nn) as -> by congruence.
      destruct Hcase as [[_ ->]|(q & cs & _ & _ & ->)];
        unfold set_parentNode, set_childNodes.
      - rewrite list_lookup_alter_eq, Hnn. by eexists.
      - rewrite list_lookup_alter_eq, list_lookup_alter.
        destruct (decide (q = n)) as [->|]; rewrite Hnn; by eexists. }
    by eapply Hsole.
Qed.

Lemma sample_single_owner : single_owner sample.
Proof.
  intros p cs Hp.
  do 6 (destruct p as [|p];
    [ vm_compute in Hp;
      first
        [ discriminate Hp
        | injection Hp as <-;
          split; [apply (bool_decide_unpack _); by vm_compute|];
          intros c Hc;
          repeat (apply elem_of_cons in Hc as [->|Hc]; [reflexivity|]);
          by apply elem_of_nil in Hc ] | ]).
  discriminate Hp.
Qed.

Lemma single_owner_preserved_witness :
  ∃ s', Dom5Ts.append 1 4 sample = Ok s'
        ∧ single_owner s' ∧ sole_owner s' 4 1.
Proof.
  destruct (single_owner_preserved sample sample_single_owner)
    as (_ & Happend & _).
  destruct (Dom5Ts.append 1 4 sample) as [s'| |] eqn:Hrun;
    [|vm_compute in Hrun; discriminate Hrun..].
  exists s'. split; [reflexivity|].
  destruct (Happend 1 4 s' Hrun) as [Hown Hsole].
  split; [exact Hown|]. by apply (Hsole (text "b" (Obj 3))).
Defined.

(** ** The normal form *)

Lemma norm_shape_unfold lbl kids :
  norm_shape (Shape lbl kids)
  = if isContainer lbl then Shape lbl (option_map norm_kids kids)
    else Shape lbl kids.
Proof. done. Qed.

Lemma shape_label_norm sh : shape_label (norm_shape sh) = shape_label sh.
Proof. destruct sh as [lbl kids]. simpl. by destruct (isContainer lbl). Qed.

Lemma flush_app txt d e : flush txt (d ++ e) = flush txt d ++ e.
Proof. unfold flush. by destruct (String.eqb txt ""). Qed.

Lemma flush_empty d : flush "" d = d.
Proof. done. Qed.

Lemma norm_step_text k st :
  isTextNode (shape_label k) = true →
  norm_step k st = (value (shape_label k) +:+ st.1, st.2).
Proof. unfold norm_step. by intros ->. Qed.

Lemma norm_step_other k st :
  isTextNode (shape_label k) = false →
  norm_step k st = ("", norm_shape k :: flush st.1 st.2).
Proof. unfold norm_step. by intros ->. Qed.

Lemma foldr_norm_step_settled st e l :
  foldr norm_step (st.1, st.2 ++ e) l
  = ((foldr norm_step st l).1, (foldr norm_step st l).2 ++ e).
Proof.
  induction l as [|k l IH]; [done|]. simpl. rewrite IH.
  destruct (isTextNode (shape_label k)) eqn:Hk.
  - by rewrite !norm_step_text.
  - rewrite !norm_step_other by done. simpl. by rewrite flush_app.
Qed.

Lemma flush_settled txt d :
  settled d → foldr norm_step ("", []) (flush txt d) = (txt, d).
Proof.
  intros Hd. unfold flush. destruct (String.eqb_spec txt "") as [->|Hne].
  - done.
  - simpl. rewrite Hd. rewrite norm_step_text by done. simpl.
    by rewrite append_nil_r.
Qed.

Lemma foldr_norm_step_is_settled ks :
  Forall (λ k, norm_shape (norm_shape k) = norm_shape k) ks →
  settled (foldr norm_step ("", []) ks).2.
Proof.
  induction 1 as [|k ks Hk _ IH]; [done|]. simpl.
  destruct (isTextNode (shape_label k)) eqn:Ht.
  - by rewrite norm_step_text.
  - rewrite norm_step_other by done. simpl. unfold settled. simpl.
    rewrite flush_settled by done.
    rewrite norm_step_other by (by rewrite shape_label_norm). simpl.
    by rewrite Hk.
Qed.

Lemma norm_kids_idempotent ks :
  Forall (λ k, norm_shape (norm_shape k) = norm_shape k) ks →
  norm_kids (norm_kids ks) = norm_kids ks.
Proof.
  intros Hks. unfold norm_kids.
  rewrite flush_settled by (by apply foldr_norm_step_is_settled). done.
Qed.

Lemma norm_shape_idempotent sh : norm_shape (norm_shape sh) = norm_shape sh.
Proof.
  induction sh as [lbl|lbl kids IH] using shape_induct.
  - rewrite norm_shape_unfold. destruct (isContainer lbl) eqn:Hc; simpl.
    + by rewrite Hc.
    + by rewrite Hc.
  - rewrite norm_shape_unfold. destruct (isContainer lbl) eqn:Hc.
    + rewrite norm_shape_unfold, Hc. simpl. by rewrite norm_kids_idempotent.
    + by rewrite norm_shape_unfold, Hc.
Qed.

(** A run of text nodes with empty text leaves no trace in the normal
    form. *)
Lemma foldr_norm_step_run run st :
  Forall (λ k, isTextNode (shape_label k) = true) run →
  foldr norm_step st run
  = (String.concat "" (map (λ k, value (shape_label k)) run) +:+ st.1, st.2).
Proof.
  induction 1 as [|k run Hk _ IH]; [by destruct st|].
  simpl foldr. rewrite IH, norm_step_text by done. simpl fst. simpl snd.
  rewrite map_cons, concat_empty_cons, append_assoc. done.
Qed.

Lemma norm_kids_empty_run pre run post :
  Forall (λ k, isTextNode (shape_label k) = true) run →
  String.concat "" (map (λ k, value (shape_label k)) run) = "" →
  norm_kids (pre ++ run ++ post) = norm_kids (pre ++ post).
Proof.
  intros Hrun Hempty. unfold norm_kids.
  rewrite !foldr_app, (foldr_norm_step_run run) by done.
  rewrite Hempty. by destruct (foldr norm_step ("", []) post).
Qed.

Lemma norm_kids_app l m :
  (foldr norm_step ("", []) m).1 = "" →
  norm_kids (l ++ m) = norm_kids l ++ norm_kids m.
Proof.
  intros Hm. unfold norm_kids. rewrite foldr_app.
  destruct (foldr norm_step ("", []) m) as [tm dm]. simpl in Hm. subst tm.
  pose proof (foldr_norm_step_settled ("", []) dm l) as Hl.
  simpl in Hl. rewrite Hl. simpl. by rewrite flush_app.
Qed.

Lemma norm_kids_no_text l :
  Forall (λ k, isTextNode (shape_label k) = false) l →
  norm_kids l = map norm_shape l
  ∧ (foldr norm_step ("", []) l).1 = "".
Proof.
  unfold norm_kids.
  induction 1 as [|k l Hk _ [IH1 IH2]]; [done|].
  simpl foldr. rewrite norm_step_other by done. simpl.
  by rewrite IH1.
Qed.

(** ** Stores that grow *)

Lemma frames_refl s fp : frames s s fp.
Proof. by split. Qed.

Lemma frames_trans s s1 s2 fp1 fp2 fp :
  frames s s1 fp1 → frames s1 s2 fp2 →
  (∀ j, j ∈ fp1 → j ∈ fp) →
  (∀ j, j < length s → j ∈ fp2 → j ∈ fp) →
  frames s s2 fp.
Proof.
  intros [Hl1 H1] [Hl2 H2] Hfp1 Hfp2. split; [lia|].
  intros j Hj Hout. rewrite H2.
  - apply H1; [done|]. intros ?. apply Hout. by apply Hfp1.
  - lia.
  - intros ?. apply Hout. by apply Hfp2.
Qed.

Lemma lays_allocated s t j : lays s t → j ∈ preorder t → j < length s.
Proof.
  induction t as [i nd kids IH] using tree_induct.
  inversion 1 as [i' nd' kids' Hi Hcs Hkids]; subst. simpl.
  intros [->|Hj]%elem_of_cons; [by eapply lookup_lt_Some|].
  apply list_elem_of_In, in_flat_map in Hj as (k & Hk%list_elem_of_In & Hj).
  rewrite Forall_forall in IH, Hkids.
  apply (IH k Hk); [by apply Hkids|by apply list_elem_of_In].
Qed.

Lemma lays_agree s s' t :
  lays s t → (∀ j, j ∈ preorder t → s' !! j = s !! j) → lays s' t.
Proof.
  induction t as [i nd kids IH] using tree_induct.
  inversion 1 as [i' nd' kids' Hi Hcs Hkids]; subst. intros Hsame.
  constructor.
  - rewrite Hsame; [done|]. simpl. constructor.
  - done.
  - rewrite Forall_forall in *. intros k Hk. apply IH; [done|by apply Hkids|].
    intros j Hj. apply Hsame. simpl. apply list_elem_of_further.
    apply list_elem_of_In, in_flat_map. exists k.
    split; by apply list_elem_of_In.
Qed.

Lemma lays_frames s s' fp t :
  lays s t → frames s s' fp → (∀ j, j ∈ preorder t → j ∉ fp) → lays s' t.
Proof.
  intros Hl [_ Hsame] Hdisj. apply (lays_agree s); [done|].
  intros j Hj. apply Hsame; [by eapply lays_allocated|by apply Hdisj].
Qed.

Lemma elem_of_flat_map_preorder j (l : list tree) :
  j ∈ flat_map preorder l ↔ ∃ k, k ∈ l ∧ j ∈ preorder k.
Proof.
  rewrite list_elem_of_In, in_flat_map. split.
  - intros (k & Hk & Hj). exists k. by rewrite !list_elem_of_In.
  - intros (k & Hk & Hj). exists k. by rewrite <- !list_elem_of_In.
Qed.

Lemma Forall_lays_frames s s' fp (l : list tree) :
  Forall (lays s) l → frames s s' fp →
  (∀ j, j ∈ flat_map preorder l → j ∉ fp) → Forall (lays s') l.
Proof.
  rewrite !Forall_forall. intros Hl Hfr Hdisj k Hk.
  apply (lays_frames s s' fp); [by apply Hl|done|].
  intros j Hj. apply Hdisj. apply elem_of_flat_map_preorder. eauto.
Qed.

(** ** collapseTextRange *)

Lemma at_index_middle {A} (l1 l2 : list A) x :
  at_index (l1 ++ x :: l2) (Z.of_nat (length l1)) = Some x.
Proof.
  unfold at_index. destruct (Z.ltb_spec (Z.of_nat (length l1)) 0); [lia|].
  rewrite Nat2Z.id. apply list_lookup_middle. done.
Qed.

Lemma collect_run_texts f s (run : list tree) :
  Forall (λ r, s !! root r = Some (record r)
               ∧ isTextNode (record r) = true) run →
  (run ≠ [] → 1 ≤ f) →
  ∀ A B,
  mapM (λ idx, c ← defined (at_index (A ++ map root run ++ B) idx);
               Dom5Ts.getTextContent f s c)
       (seqZ (Z.of_nat (length A)) (Z.of_nat (length run)))
  = Ok (map (λ r, value (record r)) run).
Proof.
  intros Hrun Hf. induction Hrun as [|r run [Hr Ht] _ IH]; intros A B.
  - done.
  - rewrite seqZ_cons by (simpl; lia).
    cbn [mapM map]. rewrite <- app_comm_cons, at_index_middle. run.
    rewrite (getTextContent_text s (root r) (record r)) by (auto; by apply Hf).
    run.
    replace (Z.succ (Z.of_nat (length A)))
      with (Z.of_nat (length (A ++ [root r])))
      by (rewrite length_app; simpl; lia).
    replace (Z.pred (Z.of_nat (length (r :: run))))
      with (Z.of_nat (length run)) by (simpl; lia).
    rewrite (cons_middle (root r) A), app_assoc.
    rewrite IH by (intros _; by apply Hf). done.
Qed.

Lemma with_childNodes_twice cs1 cs2 nd :
  with_childNodes cs2 (with_childNodes cs1 nd) = with_childNodes cs2 nd.
Proof. done. Qed.

Lemma collapseTextRange_run f i (A B : list id) (run : list tree) s nd_i :
  s !! i = Some nd_i →
  childNodes nd_i = Some (A ++ map root run ++ B) →
  Forall (λ r, s !! root r = Some (record r)
               ∧ isTextNode (record r) = true) run →
  (run ≠ [] → 1 ≤ f) →
  ∃ s',
    Dom5Ts.collapseTextRange f i (Z.of_nat (length A))
      (Z.of_nat (length A + length run) - 1) s = Ok s'
    ∧ frames s s' [i]
    ∧ if String.eqb (run_text run) ""
      then length s' = length s
           ∧ s' !! i = Some (with_childNodes (Some (A ++ B)) nd_i)
      else length s' = S (length s)
           ∧ s' !! i = Some (with_childNodes (Some (A ++ length s :: B)) nd_i)
           ∧ s' !! length s
             = Some (with_parentNode (Obj i)
                       (Dom5Ts.newTextNode (run_text run))).
Proof.
  intros Hi Hcs Hrun Hf.
  pose proof (lookup_lt_Some _ _ _ Hi) as Hilt.
  unfold Dom5Ts.collapseTextRange.
  rewrite (deref_Some _ _ _ Hi). run. rewrite Hcs. run.
  replace (Z.of_nat (length A + length run) - 1 - Z.of_nat (length A) + 1)%Z
    with (Z.of_nat (length run)) by lia.
  rewrite collect_run_texts by done. run. fold (run_text run).
  rewrite Nat2Z.id.
  assert (splice (A ++ map root run ++ B) (Z.of_nat (length A))
            (length run) [] = A ++ B) as ->.
  { unfold splice. rewrite splice_start_nat by (rewrite length_app; lia).
    rewrite take_app_length. simpl. f_equal.
    rewrite app_assoc. apply drop_app_length'.
    by rewrite length_app, length_map. }
  set (s1 := set_childNodes i (A ++ B) s).
  assert (Hs1i : s1 !! i = Some (with_childNodes (Some (A ++ B)) nd_i)).
  { unfold s1, set_childNodes. by rewrite list_lookup_alter_eq, Hi. }
  assert (length s1 = length s) as Hlen by apply length_set_childNodes.
  assert (Hs1 : frames s s1 [i]).
  { split; [lia|]. intros j _ Hj.
    unfold s1, set_childNodes. apply list_lookup_alter_ne.
    intros ->. apply Hj. constructor. }
  destruct (String.eqb (run_text run) "").
  - exists s1. by split_and!.
  - rewrite (deref_Some _ _ (with_childNodes (Some (A ++ B)) nd_i)).
    2:{ rewrite lookup_app_l; [done|]. lia. }
    run. cbn [childNodes with_childNodes]. run.
    rewrite splice_insert by (rewrite length_app; lia).
    rewrite take_app_length, drop_app_length.
    eexists. split; [reflexivity|].
    rewrite Hlen. split_and!.
    + split.
      * unfold set_childNodes. rewrite length_alter, length_app, Hlen.
        simpl. lia.
      * intros j Hj Hout. unfold set_childNodes.
        rewrite list_lookup_alter_ne.
        2:{ intros ->. apply Hout. constructor. }
        rewrite lookup_app_l by lia. by apply Hs1.
    + unfold set_childNodes. rewrite length_alter, length_app, Hlen.
      simpl. lia.
    + unfold set_childNodes. rewrite list_lookup_alter_eq.
      rewrite lookup_app_l by lia. by rewrite Hs1i.
    + unfold set_childNodes. rewrite list_lookup_alter_ne by lia.
      rewrite lookup_app_r by lia. by rewrite Hlen, Nat.sub_diag.
Qed.

Lemma frames_mono s s' fp fp' :
  frames s s' fp → (∀ j, j ∈ fp → j ∈ fp') → frames s s' fp'.
Proof.
  intros [Hl H] Hsub. split; [done|]. intros j Hj Hout.
  apply H; [done|]. intros ?. by apply Hout, Hsub.
Qed.

Lemma height_pos t : 1 ≤ height t.
Proof. destruct t. simpl. lia. Qed.

Lemma run_text_cons r run :
  run_text (r :: run) = value (record r) +:+ run_text run.
Proof. unfold run_text. by rewrite map_cons, concat_empty_cons. Qed.

(** The outcome of collapsing a run: the run is gone from the children of
    [i], and [extra], at most one new text node, stands in its place. *)
Lemma collapse_settles f i (A B : list id) (run : list tree) s nd_i H :
  s !! i = Some nd_i →
  childNodes nd_i = Some (A ++ map root run ++ B) →
  Forall (lays s) run →
  Forall (λ r, isTextNode (record r) = true) run →
  Forall (λ k, height k ≤ H) run →
  run ≠ [] → H ≤ f →
  ∃ s2 extra,
    Dom5Ts.collapseTextRange f i (Z.of_nat (length A))
      (Z.of_nat (length A + length run) - 1) s = Ok s2
    ∧ frames s s2 [i]
    ∧ s2 !! i = Some (with_childNodes (Some (A ++ map root extra ++ B)) nd_i)
    ∧ Forall (lays s2) extra
    ∧ map shape_of extra = flush (run_text run) []
    ∧ (∀ j, j ∈ flat_map preorder extra → length s ≤ j)
    ∧ NoDup (flat_map preorder extra)
    ∧ Forall arrays_present extra
    ∧ Forall (λ k, height k ≤ H) extra.
Proof.
  intros Hi Hcs Hlays Htext Hheight Hne HH.
  assert (1 ≤ H) as H1.
  { destruct run as [|r run]; [done|].
    apply Forall_cons in Hheight as [Hr _]. pose proof (height_pos r). lia. }
  destruct (collapseTextRange_run f i A B run s nd_i Hi Hcs)
    as (s2 & Hrun & Hfr & Hcase).
  { rewrite Forall_forall in *. intros r Hr.
    split; [by apply lays_root, Hlays|by apply Htext]. }
  { intros _. lia. }
  unfold flush. destruct (String.eqb (run_text run) "").
  - destruct Hcase as [Hlen Hs2i]. exists s2, [].
    split_and!; try done.
    + intros j []%elem_of_nil.
    + constructor.
  - destruct Hcase as (Hlen & Hs2i & Hnew).
    exists s2, [Tree (length s) (with_parentNode (Obj i)
                       (Dom5Ts.newTextNode (run_text run))) []].
    split_and!; try done.
    + repeat constructor. done.
    + simpl. intros j [->|[]%elem_of_nil]%elem_of_cons. lia.
    + simpl. apply NoDup_singleton.
    + repeat constructor. done.
    + repeat constructor. simpl. lia.
Qed.

(** ** The loop of normalize *)

Lemma normalize_loop_step f rec i k trs s nd_i cs n nn :
  s !! i = Some nd_i → childNodes nd_i = Some cs →
  cs !! k = Some n → s !! n = Some nn →
  Dom5Ts.normalize_loop f rec i (S k) trs s
  = if isTextNode nn then
      let trs' := if (trs =? -1)%Z then Z.of_nat k else trs in
      s' ← (if decide (k = 0)
            then Dom5Ts.collapseTextRange f i 0 trs' s
            else Ok s);
      Dom5Ts.normalize_loop f rec i k trs' s'
    else
      s1 ← rec n s;
      if (trs >? -1)%Z then
        s2 ← Dom5Ts.collapseTextRange f i (Z.of_nat k + 1) trs s1;
        Dom5Ts.normalize_loop f rec i k (-1)%Z s2
      else Dom5Ts.normalize_loop f rec i k trs s1.
Proof.
  intros Hi Hcs Hn Hnn. cbn [Dom5Ts.normalize_loop].
  rewrite (deref_Some _ _ _ Hi). run. rewrite Hcs. run. rewrite Hn. run.
  rewrite (deref_Some _ _ _ Hnn). run. done.
Qed.

Lemma NoDup_after_child (i : id) (P' C R D C' E : list id) n n1 :
  NoDup (i :: (P' ++ C) ++ R ++ D) → NoDup C' → NoDup E →
  (∀ j, j ∈ C' → j ∈ C ∨ n ≤ j) → (∀ j, j ∈ C' → j < n1) →
  (∀ j, j ∈ E → n1 ≤ j) →
  i < n → (∀ j, j ∈ P' → j < n) → (∀ j, j ∈ D → j < n) → n ≤ n1 →
  NoDup (i :: P' ++ [] ++ C' ++ E ++ D).
Proof.
  intros Hnd HC' HE Hsub HltC' HgeE Hi HP' HD Hn.
  apply NoDup_cons in Hnd as [Hi_out Hnd].
  apply NoDup_app in Hnd as (HPC & HPC_RD & HRD).
  apply NoDup_app in HPC as (HP & HP_C & HC).
  apply NoDup_app in HRD as (HR & HR_D & HDn).
  assert (HC_D : ∀ j, j ∈ C → j ∉ D).
  { intros j Hj HjD. apply (HPC_RD j); apply elem_of_app; by right. }
  assert (HP_D : ∀ j, j ∈ P' → j ∉ D).
  { intros j Hj HjD. apply (HPC_RD j); apply elem_of_app; [by left|by right]. }
  assert (Hi_P : i ∉ P').
  { intros ?. apply Hi_out. apply elem_of_app. left. apply elem_of_app. by left. }
  assert (Hi_C : i ∉ C).
  { intros ?. apply Hi_out. apply elem_of_app. left. apply elem_of_app. by right. }
  assert (Hi_D : i ∉ D).
  { intros ?. apply Hi_out. apply elem_of_app. right. apply elem_of_app. by right. }
  simpl. apply NoDup_cons. split.
  - intros [?|[HiC'|[HiE|?]%elem_of_app]%elem_of_app]%elem_of_app; try done.
    + destruct (Hsub i HiC'); [done|lia].
    + specialize (HgeE i HiE). lia.
  - apply NoDup_app. split_and!; [done| |].
    + intros j Hj [HjC'|[HjE|HjD]%elem_of_app]%elem_of_app.
      * destruct (Hsub j HjC') as [?|?]; [by apply (HP_C j)|].
        specialize (HP' j Hj). lia.
      * specialize (HgeE j HjE). specialize (HP' j Hj). lia.
      * by apply (HP_D j).
    + apply NoDup_app. split_and!; [done| |].
      * intros j Hj [HjE|HjD]%elem_of_app.
        -- specialize (HgeE j HjE). specialize (HltC' j Hj). lia.
        -- destruct (Hsub j Hj) as [?|?]; [by apply (HC_D j)|].
           specialize (HD j HjD). lia.
      * apply NoDup_app. split_and!; [done| |done].
        intros j HjE HjD. specialize (HgeE j HjE). specialize (HD j HjD). lia.
Qed.

Lemma lookup_children_middle (pre' : list tree) (c : tree) (rest : list id) :
  (map root (pre' ++ [c]) ++ rest) !! length pre' = Some (root c).
Proof.
  rewrite map_app, <- app_assoc. simpl.
  rewrite <- (length_map root pre'). by apply list_lookup_middle.
Qed.

Lemma shape_label_of t : shape_label (shape_of t) = label (record t).
Proof. by destruct t. Qed.

Lemma isTextNode_shape t :
  isTextNode (shape_label (shape_of t)) = isTextNode (record t).
Proof. by destruct t. Qed.

Lemma value_shape t : value (shape_label (shape_of t)) = value (record t).
Proof. by destruct t. Qed.

(** A text node still to scan may as well be counted with the run. *)
Lemma loop_outcome_text i nd H s pre' c run dn s' kids' :
  isTextNode (record c) = true →
  loop_outcome i nd H s pre' (c :: run) dn s' kids' →
  loop_outcome i nd H s (pre' ++ [c]) run dn s' kids'.
Proof.
  intros Hc (Hi & Hl & Hsh & Hnd & Harr & Hh & Hfr & Hids & Hroots).
  split_and!; try done.
  - rewrite Hsh. cbv zeta. rewrite map_app, foldr_app. simpl.
    rewrite norm_step_text by (by rewrite isTextNode_shape).
    by rewrite value_shape, run_text_cons.
  - eapply frames_mono; [done|]. intros j [->|Hj]%elem_of_cons.
    + constructor.
    + apply list_elem_of_further. rewrite flat_map_app. apply elem_of_app.
      by left.
  - intros j Hj.
    destruct (Hids j Hj) as [?|[?|?]]; [left|by right; left|by right; right].
    rewrite flat_map_app. apply elem_of_app. by left.
  - intros k' Hk' Hold.
    destruct (Hroots k' Hk' Hold) as [(c0 & Hc0 & ? & ?)|?]; [left|by right].
    exists c0. split_and!; [|done..]. apply elem_of_app. by left.
Qed.

Lemma Forall_lays_allocated s (l : list tree) j :
  Forall (lays s) l → j ∈ flat_map preorder l → j < length s.
Proof.
  rewrite Forall_forall. intros Hl (k & Hk & Hj)%elem_of_flat_map_preorder.
  eapply lays_allocated; [by apply Hl|done].
Qed.

Lemma NoDup_scan_facts (i : id) (P' C R D : list id) :
  NoDup (i :: (P' ++ C) ++ R ++ D) →
  NoDup C ∧ (i ∉ C) ∧ (i ∉ P') ∧ (i ∉ R) ∧ (i ∉ D)
  ∧ (∀ j, j ∈ P' → j ∉ C) ∧ (∀ j, j ∈ R → j ∉ C) ∧ (∀ j, j ∈ D → j ∉ C).
Proof.
  intros [Hi Hnd]%NoDup_cons.
  apply NoDup_app in Hnd as (HPC & HPC_RD & _).
  apply NoDup_app in HPC as (_ & HP_C & HC).
  rewrite !not_elem_of_app in Hi. destruct Hi as [[? ?] [? ?]].
  split_and!; try done.
  - intros j HjR HjC. apply (HPC_RD j); apply elem_of_app; [by right|by left].
  - intros j HjD HjC. apply (HPC_RD j); apply elem_of_app; by right.
Qed.

(** A child that is not a text node: it is normalized in place, giving
    [c'] in the store [s1]; the run gathered to its right is collapsed,
    giving [extra] in the store [s2]; the scan goes on to the left with
    all of that settled. *)
Lemma loop_outcome_other i nd H s s1 s2 pre' c c' run extra dn s' kids' :
  isTextNode (record c) = false →
  root c' = root c →
  shape_of c' = norm_shape (shape_of c) →
  map shape_of extra = flush (run_text run) [] →
  frames s s1 (preorder c) → frames s1 s2 [i] →
  (∀ j, j ∈ preorder c' → j ∈ preorder c ∨ length s ≤ j) →
  (∀ j, j ∈ flat_map preorder extra → length s1 ≤ j) →
  loop_outcome i nd H s2 pre' [] (c' :: extra ++ dn) s' kids' →
  loop_outcome i nd H s (pre' ++ [c]) run dn s' kids'.
Proof.
  intros Hc Hroot Hshape Hextra Hfr1 Hfr2 Hidsc Hidse
    (Hi & Hl & Hsh & Hnd & Harr & Hh & Hfr & Hids & Hroots).
  split_and!; try done.
  - rewrite Hsh. cbv zeta. rewrite (map_app _ pre'), foldr_app. simpl.
    rewrite norm_step_other by (by rewrite isTextNode_shape). simpl.
    rewrite map_app, Hshape, Hextra, <- flush_app. done.
  - eapply (frames_trans s s2 s' (i :: preorder c)); [|done| |].
    + eapply (frames_trans s s1 s2 (preorder c) [i]); [done..| |].
      * intros j Hj. by apply list_elem_of_further.
      * intros j _ ->%list_elem_of_singleton. constructor.
    + intros j [->|Hj]%elem_of_cons; [constructor|].
      apply list_elem_of_further. rewrite flat_map_app. apply elem_of_app.
      right. simpl. by rewrite app_nil_r.
    + intros j _ [->|Hj]%elem_of_cons; [constructor|].
      apply list_elem_of_further. rewrite flat_map_app. apply elem_of_app.
      by left.
  - destruct Hfr1 as [Hlen1 _]. destruct Hfr2 as [Hlen2 _].
    intros j Hj. rewrite flat_map_app, elem_of_app. simpl.
    rewrite app_nil_r.
    destruct (Hids j Hj) as [?|[Hj'|?]]; [by left; left| |right; right; lia].
    simpl in Hj'. rewrite flat_map_app, !elem_of_app in Hj'.
    destruct Hj' as [Hjc|[Hje|Hjd]].
    + destruct (Hidsc j Hjc); [by left; right|by right; right].
    + specialize (Hidse j Hje). right; right; lia.
    + by right; left.
  - destruct Hfr1 as [Hlen1 _]. destruct Hfr2 as [Hlen2 _].
    intros k' Hk' Hold.
    destruct (Hroots k' Hk') as [(c0 & Hc0 & ? & ?)|Hset]; [lia| |].
    + left. exists c0. split_and!; [|done..]. apply elem_of_app. by left.
    + simpl in Hset. rewrite map_app in Hset.
      apply elem_of_cons in Hset as [Hset|[Hset|Hset]%elem_of_app].
      * left. exists c. split_and!; [|done|congruence].
        apply elem_of_app. right. constructor.
      * exfalso. apply list_elem_of_fmap in Hset as (e & He & Hein).
        assert (length s1 ≤ root e); [|lia].
        apply Hidse. apply elem_of_flat_map_preorder. exists e.
        split; [done|apply root_in_preorder].
      * by right.
Qed.

Lemma normalize_loop_spec f i nd H (pre : list tree) :
  Forall normalizes pre → Forall arrays_present pre → H ≤ f →
  ∀ run dn s trs,
  s !! i = Some (with_childNodes
                   (Some (map root pre ++ map root run ++ map root dn)) nd) →
  Forall (lays s) pre → Forall (lays s) run → Forall (lays s) dn →
  Forall (λ r, isTextNode (record r) = true) run →
  trs = match run with
        | [] => (-1)%Z
        | _ => (Z.of_nat (length pre + length run) - 1)%Z
        end →
  NoDup (i :: flat_map preorder pre ++ flat_map preorder run
           ++ flat_map preorder dn) →
  Forall arrays_present dn →
  Forall (λ k, height k ≤ H) pre →
  Forall (λ k, height k ≤ H) run →
  Forall (λ k, height k ≤ H) dn →
  (pre = [] → run = []) →
  ∃ s' kids',
    Dom5Ts.normalize_loop f (Dom5Ts.normalize f) i (length pre) trs s = Ok s'
    ∧ loop_outcome i nd H s pre run dn s' kids'.
Proof.
  induction pre as [|c pre' IH] using rev_ind;
    intros Hnorm Harr HH run dn s trs Hi Hpre Hrun Hdn Htext Htrs Hnd
      Harrdn Hhpre Hhrun Hhdn Hempty.
  { (* no child left *)
    rewrite (Hempty eq_refl) in *. simpl in *.
    exists s, dn. split; [done|]. split_and!; try done.
    - intros j Hj. by right; left.
    - intros k' Hk' _. right. apply list_elem_of_fmap. eauto. }
  apply Forall_app in Hnorm as [Hnorm' [Hnormc _]%Forall_cons].
  apply Forall_app in Harr as [Harr' [Harrc _]%Forall_cons].
  apply Forall_app in Hpre as [Hpre' [Hlc _]%Forall_cons].
  apply Forall_app in Hhpre as [Hhpre' [Hhc _]%Forall_cons].
  pose proof (lookup_lt_Some _ _ _ Hi) as Hilt.
  rewrite length_app, Nat.add_1_r.
  rewrite (normalize_loop_step f _ i (length pre') trs s _ _ (root c) (record c)
             Hi eq_refl (lookup_children_middle pre' c _) (lays_root s c Hlc)).
  rewrite flat_map_app in Hnd. simpl in Hnd. rewrite app_nil_r in Hnd.
  destruct (NoDup_scan_facts _ _ _ _ _ Hnd)
    as (Hndc & Hi_c & Hi_p & Hi_r & Hi_d & Hp_c & Hr_c & Hd_c).
  destruct (isTextNode (record c)) eqn:Hct.
  - (* a text node joins the run *)
    set (trs' := if (trs =? -1)%Z then Z.of_nat (length pre') else trs).
    assert (trs' = Z.of_nat (length pre' + length (c :: run)) - 1)%Z as Htrs'.
    { unfold trs'. subst trs. destruct run as [|r run]; simpl.
      - lia.
      - rewrite length_app. simpl.
        destruct (Z.eqb_spec
          (Z.of_nat (length pre' + 1 + S (length run)) - 1) (-1)); lia. }
    cbv zeta. fold trs'. clearbody trs'. subst trs'.
    destruct (decide (length pre' = 0)) as [Hzero|Hpos].
    + (* the first child: the leading run is collapsed *)
      apply nil_length_inv in Hzero. subst pre'.
      destruct (collapse_settles f i [] (map root dn) (c :: run) s _ H
                  Hi eq_refl) as (s2 & extra & Hcol & Hfr & Hs2i & Hle
                                  & Hsh & Hfresh & Hnde & Harre & Hhe);
        [by constructor..|done|done|].
      cbn [length Nat.add] in Hcol |- *. change (Z.of_nat 0) with 0%Z in Hcol.
      rewrite Hcol. run. simpl.
      exists s2, (extra ++ dn). split; [done|]. split_and!.
      * rewrite Hs2i, with_childNodes_twice. simpl. by rewrite map_app.
      * apply Forall_app. split; [done|].
        apply (Forall_lays_frames s s2 [i]); [done..|].
        intros j Hj ->%list_elem_of_singleton. done.
      * rewrite map_app, Hsh. cbv zeta. simpl.
        rewrite norm_step_text by (by rewrite isTextNode_shape).
        simpl. by rewrite value_shape, <- run_text_cons, <- flush_app.
      * rewrite flat_map_app.
        apply (NoDup_after_child i [] (preorder c) (flat_map preorder run)
                 (flat_map preorder dn) [] (flat_map preorder extra)
                 (length s) (length s)); try done.
        -- constructor.
        -- intros j []%elem_of_nil.
        -- intros j []%elem_of_nil.
        -- intros j []%elem_of_nil.
        -- intros j Hj. by apply (Forall_lays_allocated s dn).
      * by apply Forall_app.
      * by apply Forall_app.
      * eapply frames_mono; [done|].
        intros j ->%list_elem_of_singleton. constructor.
      * intros j. rewrite flat_map_app.
        intros [Hj|Hj]%elem_of_app; [right; right; by apply Hfresh|].
        by right; left.
      * intros k' [Hk'|Hk']%elem_of_app Hold.
        -- exfalso. assert (length s ≤ root k'); [|lia].
           apply Hfresh. apply elem_of_flat_map_preorder. exists k'.
           split; [done|apply root_in_preorder].
        -- right. apply list_elem_of_fmap. eauto.
    + (* an inner child: the run grows *)
      run.
      destruct (IH Hnorm' Harr' HH (c :: run) dn s
                  (Z.of_nat (length pre' + length (c :: run)) - 1)%Z)
        as (s' & kids' & Hloop & Hout); try done.
      * rewrite Hi. do 3 f_equal. rewrite map_app, <- app_assoc. done.
      * by constructor.
      * by constructor.
      * simpl. by rewrite <- !app_assoc in Hnd |- *.
      * by constructor.
      * intros ->. done.
      * exists s', kids'. split; [done|]. by apply loop_outcome_text.
  - (* any other child is normalized, and the run to its right collapsed *)
    destruct (Hnormc f s Hlc Hndc Harrc) as
      (s1 & c' & Hrun1 & Hlc' & Hroot & Hshape & Hndc' & Harrc' & Hhc'
       & Hfr1 & Hids1 & _); [lia|].
    rewrite Hrun1. run.
    assert (Hs1i : s1 !! i = s !! i).
    { apply Hfr1; done. }
    assert (Hrun1' : Forall (lays s1) run).
    { apply (Forall_lays_frames s s1 (preorder c)); done. }
    assert (∃ s2 extra,
      (if (trs >? -1)%Z
       then s2 ← Dom5Ts.collapseTextRange f i (Z.of_nat (length pre') + 1)
                   trs s1;
            Dom5Ts.normalize_loop f (Dom5Ts.normalize f) i (length pre')
              (-1)%Z s2
       else Dom5Ts.normalize_loop f (Dom5Ts.normalize f) i (length pre')
              trs s1)
      = Dom5Ts.normalize_loop f (Dom5Ts.normalize f) i (length pre')
          (-1)%Z s2
      ∧ frames s1 s2 [i]
      ∧ s2 !! i = Some (with_childNodes
                          (Some (map root pre' ++ map root []
                                 ++ map root (c' :: extra ++ dn))) nd)
      ∧ Forall (lays s2) extra
      ∧ map shape_of extra = flush (run_text run) []
      ∧ (∀ j, j ∈ flat_map preorder extra → length s1 ≤ j)
      ∧ NoDup (flat_map preorder extra)
      ∧ Forall arrays_present extra
      ∧ Forall (λ k, height k ≤ H) extra)
      as (s2 & extra & Hcont & Hfr2 & Hs2i & Hle & Hshe & Hfresh & Hnde
          & Harre & Hhe).
    { destruct run as [|r run0].
      - subst trs. exists s1, []. split_and!.
        + done.
        + apply frames_refl.
        + rewrite Hs1i, Hi. do 3 f_equal. rewrite map_app, <- app_assoc.
          simpl. by rewrite Hroot.
        + done.
        + done.
        + intros j []%elem_of_nil.
        + constructor.
        + done.
        + done.
      - rewrite Hi in Hs1i.
        destruct (collapse_settles f i (map root (pre' ++ [c])) (map root dn)
                    (r :: run0) s1 _ H Hs1i eq_refl)
          as (s2 & extra & Hcol & Hfr & Hs2i & Hle & Hsh & Hfresh & Hnde
              & Harre & Hhe); try done.
        exists s2, extra.
        assert ((trs >? -1)%Z = true) as ->.
        { subst trs. apply Z.gtb_lt. cbn [length]. lia. }
        replace (Z.of_nat (length pre') + 1)%Z
          with (Z.of_nat (length (map root (pre' ++ [c]))))
          by (rewrite length_map, length_app; simpl; lia).
        replace trs
          with (Z.of_nat (length (map root (pre' ++ [c]))
                          + length (r :: run0)) - 1)%Z
          by (subst trs; rewrite length_map; done).
        rewrite Hcol. run. split_and!; try done.
        rewrite Hs2i, with_childNodes_twice. do 3 f_equal.
        rewrite !map_app, <- !app_assoc. simpl. by rewrite Hroot, map_app. }
    rewrite Hcont.
    destruct (IH Hnorm' Harr' HH [] (c' :: extra ++ dn) s2 (-1)%Z)
      as (s' & kids' & Hloop & Hout); try done.
    + apply (Forall_lays_frames s1 s2 [i]).
      * apply (Forall_lays_frames s s1 (preorder c)); done.
      * done.
      * intros j Hj ->%list_elem_of_singleton. done.
    + constructor; [|apply Forall_app; split; [done|]].
      * apply (lays_frames s1 s2 [i]); [done..|].
        intros j Hj ->%list_elem_of_singleton.
        destruct (Hids1 i Hj); [done|lia].
      * apply (Forall_lays_frames s1 s2 [i]).
        -- apply (Forall_lays_frames s s1 (preorder c)); done.
        -- done.
        -- intros j Hj ->%list_elem_of_singleton. done.
    + simpl. rewrite flat_map_app.
      destruct Hfr1 as [Hlen1 _].
      apply (NoDup_after_child i _ (preorder c) (flat_map preorder run) _
               _ _ (length s) (length s1)); try done.
      * intros j Hj. by apply (lays_allocated s1 c').
      * intros j Hj. by apply (Forall_lays_allocated s pre').
      * intros j Hj. by apply (Forall_lays_allocated s dn).
    + constructor; [done|]. by apply Forall_app.
    + constructor; [lia|]. by apply Forall_app.
    + exists s', kids'. split; [done|].
      by apply (loop_outcome_other i nd H s s1 s2 pre' c c' run extra dn).
Qed.

(** ** normalize *)

Lemma heights_bounded (l : list tree) :
  Forall (λ k, height k ≤ foldr (λ k n, Nat.max (height k) n) 0 l) l.
Proof.
  induction l as [|k l IH]; [done|]. simpl. constructor; [lia|].
  eapply Forall_impl; [done|]. simpl. intros. lia.
Qed.

Lemma heights_max (l : list tree) H :
  Forall (λ k, height k ≤ H) l →
  foldr (λ k n, Nat.max (height k) n) 0 l ≤ H.
Proof. induction 1; simpl; lia. Qed.

Lemma isContainer_label nd : isContainer (label nd) = isContainer nd.
Proof. done. Qed.

Lemma with_childNodes_same nd cs :
  childNodes nd = Some cs → with_childNodes (Some cs) nd = nd.
Proof. destruct nd. simpl. by intros ->. Qed.

Lemma shape_of_unfold i nd kids :
  shape_of (Tree i nd kids)
  = Shape (label nd)
      match childNodes nd with
      | Some _ => Some (map shape_of kids)
      | None => None
      end.
Proof. done. Qed.

Lemma all_normalize t : normalizes t.
Proof.
  induction t as [i nd kids IH] using tree_induct.
  intros fuel s Hl Hnd Harr Hfuel.
  inversion Hl as [i' nd' kids' Hi Hcs Hkids]; subst.
  inversion Harr as [i' nd' kids' Hhas Harrk]; subst.
  destruct fuel as [|f]; [simpl in Hfuel; lia|].
  cbn [Dom5Ts.normalize root]. rewrite (deref_Some _ _ _ Hi). run.
  fold (isContainer nd). destruct (isContainer nd) eqn:Hc; simpl negb; run.
  - (* a container: its children are scanned *)
    destruct (Hhas eq_refl) as [cs Hcs']. rewrite Hcs' in Hcs |- *. subst cs.
    run. rewrite length_map.
    set (H := foldr (λ k n, Nat.max (height k) n) 0 kids).
    destruct (normalize_loop_spec f i nd H kids IH Harrk) with
      (run := @nil tree) (dn := @nil tree) (s := s) (trs := (-1)%Z)
      as (s' & kids' & Hloop & Hi' & Hl' & Hsh & Hnd' & Harr' & Hh' & Hfr
          & Hids & Hroots); try done.
    + simpl in Hfuel. fold H in Hfuel. lia.
    + simpl. rewrite app_nil_r, with_childNodes_same; done.
    + simpl. by rewrite app_nil_r.
    + apply heights_bounded.
    + exists s', (Tree i (with_childNodes (Some (map root kids')) nd) kids').
      split_and!.
      * done.
      * by constructor.
      * done.
      * rewrite !shape_of_unfold, Hcs', norm_shape_unfold.
        rewrite isContainer_label, Hc. cbn [childNodes with_childNodes].
        rewrite Hsh. done.
      * done.
      * constructor; [by eauto|done].
      * simpl. fold H. apply le_n_S. by apply heights_max.
      * done.
      * simpl. intros j [->|Hj]%elem_of_cons; [left; constructor|].
        destruct (Hids j Hj) as [?|[[]%elem_of_nil|?]].
        -- left. by apply list_elem_of_further.
        -- by right.
      * intros _ k' Hk' Hold. simpl in Hk'.
        destruct (Hroots k' Hk' Hold) as [?|[]%elem_of_nil]. done.
  - (* any other node is left alone *)
    exists s, (Tree i nd kids). split_and!.
    + done.
    + done.
    + done.
    + by rewrite shape_of_unfold, norm_shape_unfold, isContainer_label, Hc.
    + done.
    + done.
    + done.
    + apply frames_refl.
    + intros j Hj. by left.
    + simpl. congruence.
Qed.

Lemma read_shape_lays s t :
  lays s t → ∀ fuel, height t ≤ fuel →
  read_shape fuel s (root t) = Some (shape_of t).
Proof.
  induction t as [i nd kids IH] using tree_induct.
  inversion 1 as [i' nd' kids' Hi Hcs Hkids]; subst. intros fuel Hfuel.
  destruct fuel as [|f]; [simpl in Hfuel; lia|].
  cbn [read_shape root]. rewrite Hi, shape_of_unfold. simpl.
  destruct (childNodes nd) as [cs|]; [|done]. subst cs.
  assert (mapM (read_shape f s) (map root kids) = Some (map shape_of kids))
    as ->; [|done].
  apply mapM_Some, Forall2_fmap_l, Forall2_fmap_r, Forall_Forall2_diag.
  rewrite Forall_forall in *. intros k Hk. apply IH; [done|by apply Hkids|].
  pose proof (height_kids i nd kids k Hk). lia.
Qed.

(** C5: [normalize] is idempotent.  On a tree laid out in the store
    without sharing, whose elements, documents and fragments all have a
    [childNodes] array, [normalize] returns; applied again to the result it
    returns again, and the tree then under the root has the structure of
    the tree after the first application. *)
Theorem normalize_idempotent s t fuel :
  lays s t → NoDup (preorder t) → arrays_present t → height t ≤ fuel →
  ∃ s1 s2 t1 t2,
    Dom5Ts.normalize fuel (root t) s = Ok s1
    ∧ Dom5Ts.normalize fuel (root t) s1 = Ok s2
    ∧ lays s1 t1 ∧ root t1 = root t
    ∧ lays s2 t2 ∧ root t2 = root t
    ∧ shape_of t1 = norm_shape (shape_of t)
    ∧ shape_of t2 = shape_of t1
    ∧ read_shape fuel s1 (root t) = Some (norm_shape (shape_of t))
    ∧ read_shape fuel s2 (root t) = read_shape fuel s1 (root t).
Proof.
  intros Hl Hnd Harr Hfuel.
  destruct (all_normalize t fuel s Hl Hnd Harr Hfuel)
    as (s1 & t1 & Hrun1 & Hl1 & Hroot1 & Hsh1 & Hnd1 & Harr1 & Hh1 & _).
  destruct (all_normalize t1 fuel s1 Hl1 Hnd1 Harr1)
    as (s2 & t2 & Hrun2 & Hl2 & Hroot2 & Hsh2 & _ & _ & Hh2 & _); [lia|].
  assert (shape_of t2 = shape_of t1) as Hsame
    by (by rewrite Hsh2, Hsh1, norm_shape_idempotent).
  assert (read_shape fuel s1 (root t) = Some (norm_shape (shape_of t)))
    as Hread1.
  { rewrite <- Hroot1, <- Hsh1. apply read_shape_lays; [done|lia]. }
  exists s1, s2, t1, t2. rewrite Hroot1 in Hrun2.
  split_and!; try done.
  - congruence.
  - rewrite Hread1, <- Hsh1, <- Hsame, <- Hroot1, <- Hroot2.
    apply read_shape_lays; [done|lia].
Qed.

Lemma paragraph_arrays : arrays_present paragraph_tree.
Proof. repeat (constructor; [by eauto|]); repeat constructor; by eauto. Qed.

Lemma normalize_idempotent_witness :
  ∃ s1 s2 t1 t2,
    Dom5Ts.normalize 2 0 paragraph = Ok s1
    ∧ Dom5Ts.normalize 2 0 s1 = Ok s2
    ∧ lays s1 t1 ∧ root t1 = 0
    ∧ lays s2 t2 ∧ root t2 = 0
    ∧ shape_of t1 = norm_shape (shape_of paragraph_tree)
    ∧ shape_of t2 = shape_of t1
    ∧ read_shape 2 s1 0 = Some (norm_shape (shape_of paragraph_tree))
    ∧ read_shape 2 s2 0 = read_shape 2 s1 0.
Proof.
  apply (normalize_idempotent paragraph paragraph_tree 2).
  - repeat (constructor; try done).
  - apply (bool_decide_unpack _). by vm_compute.
  - apply paragraph_arrays.
  - simpl. lia.
Defined.

(** The text children "a", "b", an element and "c" normalize to "ab",
    the element and "c". *)
Example normalize_paragraph :
  ∃ s', Dom5Ts.normalize 2 0 paragraph = Ok s'
    ∧ read_shape 2 s' 0
      = Some (Shape (label (element "p" [] Null))
                (Some [ Shape (Dom5Ts.newTextNode "ab") None;
                        Shape (label (element "br" [] Null)) (Some []);
                        Shape (Dom5Ts.newTextNode "c") None ])).
Proof. eexists. by vm_compute. Qed.

(** ** Runs of empty text *)

Lemma norm_shape_not_text sh :
  isTextNode (shape_label sh) = false →
  isTextNode (shape_label (norm_shape sh)) = false.
Proof. by rewrite shape_label_norm. Qed.

Lemma same_root_same_tree (l : list tree) c r :
  NoDup (flat_map preorder l) → c ∈ l → r ∈ l → root c = root r → c = r.
Proof.
  induction l as [|x l IH]; [by intros _ ?%elem_of_nil|].
  simpl. intros (Hx & Hdisj & Hl)%NoDup_app Hc Hr Hroot.
  assert (Hcross : ∀ k, k ∈ l → root k ≠ root x).
  { intros k Hk Heq. apply (Hdisj (root x)); [apply root_in_preorder|].
    apply elem_of_flat_map_preorder. exists k. split; [done|].
    rewrite <- Heq. apply root_in_preorder. }
  apply elem_of_cons in Hc as [->|Hc]; apply elem_of_cons in Hr as [->|Hr].
  - done.
  - exfalso. by apply (Hcross r).
  - exfalso. by apply (Hcross c).
  - by apply IH.
Qed.

(** C10: when text-node children of a container form a run whose texts
    concatenate to the empty string, [collapseTextRange] on that run takes
    its nodes out of the children and creates no node, and [normalize]
    leaves the children that the other children alone normalize to: no
    node of the run is a child any more and nothing stands for the run.
    Where no other child is a text node, the child count drops by the
    length of the run and no text node is left. *)
Theorem empty_run_leaves_nothing s i nd pre run post fuel :
  lays s (Tree i nd (pre ++ run ++ post)) →
  NoDup (preorder (Tree i nd (pre ++ run ++ post))) →
  arrays_present (Tree i nd (pre ++ run ++ post)) →
  height (Tree i nd (pre ++ run ++ post)) ≤ fuel →
  isContainer nd = true →
  run ≠ [] →
  Forall (λ r, isTextNode (record r) = true) run →
  run_text run = "" →
  (∃ s',
     Dom5Ts.collapseTextRange fuel i (Z.of_nat (length pre))
       (Z.of_nat (length pre + length run) - 1) s = Ok s'
     ∧ length s' = length s
     ∧ children_of s' i = Some (map root pre ++ map root post))
  ∧ ∃ s' kids',
      Dom5Ts.normalize fuel i s = Ok s'
      ∧ children_of s' i = Some (map root kids')
      ∧ Forall (lays s') kids'
      ∧ (∀ r, r ∈ run → root r ∉ map root kids')
      ∧ map shape_of kids' = norm_kids (map shape_of (pre ++ post))
      ∧ (Forall (λ k, isTextNode (record k) = false) (pre ++ post) →
           length kids' + length run = length (pre ++ run ++ post)
           ∧ Forall (λ k, isTextNode (record k) = false) kids').
Proof.
  intros Hl Hnd Harr Hfuel Hc Hne Htext Hempty.
  set (t := Tree i nd (pre ++ run ++ post)) in *.
  split.
  - inversion Hl as [i' nd' kids' Hi Hcs Hkids]; subst.
    inversion Harr as [i' nd' kids' Hhas _]; subst.
    destruct (Hhas Hc) as [cs Hcs']. rewrite Hcs' in Hcs. subst cs.
    rewrite !map_app in Hcs'.
    destruct (collapseTextRange_run fuel i (map root pre) (map root post)
                run s nd Hi Hcs') as (s' & Hrun & _ & Hcase).
    + apply Forall_app in Hkids as [_ [Hkr _]%Forall_app].
      rewrite Forall_forall in *. intros r Hr.
      split; [by apply lays_root, Hkr|by apply Htext].
    + intros _. destruct run as [|r run']; [done|].
      unfold t in Hfuel. simpl in Hfuel. lia.
    + rewrite Hempty in Hcase. simpl in Hcase. destruct Hcase as [Hlen Hi'].
      exists s'. rewrite length_map in Hrun. split_and!; [done..|].
      unfold children_of. by rewrite Hi'.
  - destruct (all_normalize t fuel s Hl Hnd Harr Hfuel)
      as (s' & t' & Hrun & Hl' & Hroot & Hsh & _ & _ & _ & _ & _ & Hroots).
    destruct t' as [i' nd' kids']. simpl in Hroot. subst i'.
    specialize (Hroots Hc). simpl in Hroots.
    inversion Hl' as [? ? ? Hi' Hcs' Hkids']; subst.
    unfold t in Hsh. rewrite !shape_of_unfold, norm_shape_unfold in Hsh.
    rewrite isContainer_label, Hc in Hsh.
    inversion Hl as [? ? ? Hi Hcs _]; subst.
    inversion Harr as [? ? ? Hhas _]; subst.
    destruct (Hhas Hc) as [cs Hcsnd]. rewrite Hcsnd in Hsh.
    apply (f_equal (λ sh, match sh with Shape _ ks => ks end)) in Hsh.
    simpl in Hsh. rename Hsh into Hkids.
    destruct (childNodes nd') as [cs'|] eqn:Hcn; [|done]. subst cs'.
    injection Hkids as Hkids.
    rewrite !map_app, norm_kids_empty_run, <- map_app in Hkids.
    2:{ apply Forall_forall. intros sh (r & -> & Hr)%list_elem_of_fmap.
        rewrite isTextNode_shape. rewrite Forall_forall in Htext. auto. }
    2:{ etransitivity; [|exact Hempty]. unfold run_text.
        rewrite map_map. f_equal. apply map_ext. intros r.
        apply value_shape. }
    exists s', kids'. split_and!; [done| |done| |done|].
    + unfold children_of. rewrite Hi'. exact Hcn.
    + intros r Hr (k' & Hk' & Hin)%list_elem_of_fmap.
      assert (r ∈ pre ++ run ++ post) as Hrin.
      { apply elem_of_app. right. apply elem_of_app. by left. }
      inversion Hl as [? ? ? _ _ Hlk]; subst.
      rewrite Forall_forall in Hlk.
      pose proof (lookup_lt_Some _ _ _ (lays_root s r (Hlk r Hrin))) as Hold.
      rewrite Hk' in Hold.
      destruct (Hroots k' Hin Hold) as (c & Hcin & Hcnt & Hcr).
      apply NoDup_cons in Hnd as [_ Hndk].
      assert (c = r) as ->.
      { apply (same_root_same_tree (pre ++ run ++ post)); [done..|].
        congruence. }
      rewrite Forall_forall in Htext. specialize (Htext r Hr). congruence.
    + intros Hother.
      destruct (norm_kids_no_text (map shape_of (pre ++ post))) as [Heq _].
      { apply Forall_forall. intros sh (k & -> & Hk)%list_elem_of_fmap.
        rewrite isTextNode_shape. rewrite Forall_forall in Hother. auto. }
      rewrite Heq in Hkids. split.
      * apply (f_equal length) in Hkids. rewrite !length_map in Hkids.
        rewrite Hkids, !length_app. lia.
      * apply Forall_forall. intros k Hk.
        rewrite <- isTextNode_shape.
        assert (shape_of k ∈ map shape_of kids') as Hin.
        { apply list_elem_of_fmap. eauto. }
        rewrite Hkids in Hin.
        apply list_elem_of_fmap in Hin as (sh & -> & Hsh).
        apply list_elem_of_fmap in Hsh as (k0 & -> & Hk0).
        rewrite shape_label_norm, isTextNode_shape.
        rewrite Forall_forall in Hother. auto.
Qed.

Lemma empty_run_leaves_nothing_witness :
  (∃ s',
     Dom5Ts.collapseTextRange 2 0 (Z.of_nat 1) (Z.of_nat (1 + 2) - 1) hollow
     = Ok s'
     ∧ length s' = length hollow
     ∧ children_of s' 0 = Some [1; 4])
  ∧ ∃ s' kids',
      Dom5Ts.normalize 2 0 hollow = Ok s'
      ∧ children_of s' 0 = Some (map root kids')
      ∧ (2 ∉ map root kids') ∧ (3 ∉ map root kids')
      ∧ length kids' + 2 = 4.
Proof.
  destruct (empty_run_leaves_nothing hollow 0 (element "p" [1; 2; 3; 4] Null)
              [Tree 1 (element "i" [] (Obj 0)) []]
              [Tree 2 (text "" (Obj 0)) []; Tree 3 (text "" (Obj 0)) []]
              [Tree 4 (element "b" [] (Obj 0)) []] 2)
    as [Hcollapse (s' & kids' & Hrun & Hkids & _ & Hgone & _ & Hcount)].
  - repeat (constructor; try done).
  - apply (bool_decide_unpack _). by vm_compute.
  - repeat (constructor; [by eauto|]); repeat constructor; by eauto.
  - simpl. lia.
  - reflexivity.
  - discriminate.
  - by repeat constructor.
  - reflexivity.
  - split; [exact Hcollapse|]. exists s', kids'.
    split; [exact Hrun|]. split; [exact Hkids|].
    split; [apply (Hgone (Tree 2 (text "" (Obj 0)) [])); constructor|].
    split; [apply (Hgone (Tree 3 (text "" (Obj 0)) [])); do 2 constructor|].
    apply Hcount. by repeat constructor.
Defined.

(** ** Walks down the tree *)

Lemma bind_Throw {A B} e (k : A → res B) : (Throw e ≫= k) = Throw e.
Proof. done. Qed.

Lemma bind_ret {A} (r : res A) : (r ≫= Ok) = r.
Proof. by destruct r. Qed.

Lemma bind_assoc {A B C} (r : res A) (f : A → res B) (g : B → res C) :
  ((r ≫= f) ≫= g) = (r ≫= λ a, f a ≫= g).
Proof. by destruct r. Qed.

Lemma filter_in_app {A} (l1 l2 : list A) p m :
  Walking.filter_in (l1 ++ l2) p m
  = (m' ← Walking.filter_in l1 p m; Walking.filter_in l2 p m').
Proof.
  revert m. induction l1 as [|x l1 IH]; intros m; [done|].
  cbn [app Walking.filter_in]. destruct (p x) as [b| |]; [|done..].
  run. apply IH.
Qed.

Lemma foldl_bind_step {A B} (g : B → A → res A) (r : res A) (cs : list B) :
  foldl (λ acc c, m ← acc; g c m) r cs
  = (m ← r; foldl (λ acc c, m ← acc; g c m) (Ok m) cs).
Proof.
  destruct r as [a|e|]; [done| |].
  - induction cs as [|c cs IH]; [done|]. by cbn.
  - induction cs as [|c cs IH]; [done|]. by cbn.
Qed.

Lemma nodeWalkAll_lays s t p :
  lays s t → ∀ fuel m, height t ≤ fuel →
  Dom5Ts.nodeWalkAll fuel s (root t) p m
  = Walking.filter_in (preorder t) (p s) m.
Proof.
  induction t as [i nd kids IH] using tree_induct. intros Hl fuel m Hfuel.
  inversion Hl as [i' nd' kids' Hi Hcs Hkids]; subst.
  destruct fuel as [|fuel]; [simpl in Hfuel; lia|].
  cbn [Dom5Ts.nodeWalkAll root preorder Walking.filter_in].
  destruct (p s i) as [b| |]; [|done..]. run.
  rewrite (deref_Some _ _ _ Hi). run.
  generalize (if b then m ++ [i] else m). clear m. intros m.
  assert (Hh : Forall (λ k, height k ≤ fuel) kids).
  { apply Forall_forall. intros k Hk.
    pose proof (height_kids i nd kids k Hk). lia. }
  destruct (childNodes nd) as [cs|]; subst; [|done].
  clear Hfuel Hl Hi. revert m.
  induction kids as [|k kids IHk]; intros m; [done|].
  apply Forall_cons in IH as [IH1 IH2].
  apply Forall_cons in Hkids as [Hk1 Hk2].
  apply Forall_cons in Hh as [Hh1 Hh2].
  cbn [map foldl flat_map]. rewrite filter_in_app, foldl_bind_step.
  run. rewrite IH1 by done.
  destruct (Walking.filter_in (preorder k) (p s) m) as [m'| |]; [|done..].
  run. by apply IHk.
Qed.

Lemma filter_finished {A} (l : list A) (p : A → res bool) m :
  Walking.filter (l, Done) p m = Walking.filter_in l p m.
Proof. unfold Walking.filter. simpl. apply bind_ret. Qed.

Lemma filter_in_pure {A} (l : list A) (p : A → res bool) (f : A → bool) m :
  (∀ x, x ∈ l → p x = Ok (f x)) →
  Walking.filter_in l p m = Ok (m ++ filter (λ x, f x = true) l).
Proof.
  revert m. induction l as [|x l IH]; intros m Hp.
  - by rewrite app_nil_r.
  - cbn [Walking.filter_in]. rewrite Hp by constructor. run.
    rewrite IH by (intros; apply Hp; by constructor).
    destruct (f x) eqn:Hf.
    + rewrite filter_cons_True by done. by rewrite <- app_assoc.
    + rewrite filter_cons_False by congruence. done.
Qed.

(** X1: on a tree laid out in the store, the recursive [nodeWalkAll] of
    dom5.ts (dom5.js has the same code) and [nodeWalkAll] of walking.ts
    return the same result, for every predicate, also one that throws: the
    predicate is put to every node of the tree in document order, and the
    nodes it accepts are appended to [matches] in that order. *)
Theorem nodeWalkAll_document_order s t p m fuel :
  lays s t → height t ≤ fuel →
  Dom5Ts.nodeWalkAll fuel s (root t) p m
  = Walking.filter_in (preorder t) (p s) m
  ∧ Walking.nodeWalkAll fuel s (root t) p m (Iteration.defaultChildNodes s)
    = Dom5Ts.nodeWalkAll fuel s (root t) p m
  ∧ ∀ f, (∀ x, x ∈ preorder t → p s x = Ok (f x)) →
      Dom5Ts.nodeWalkAll fuel s (root t) p m
      = Ok (m ++ filter (λ x, f x = true) (preorder t)).
Proof.
  intros Hl Hfuel. rewrite nodeWalkAll_lays by done. split_and!.
  - done.
  - unfold Walking.nodeWalkAll.
    rewrite (depthFirst_follows _ t) by (by apply lays_follows || done).
    apply filter_finished.
  - intros f Hp. by apply filter_in_pure.
Qed.

Lemma nodeWalkAll_document_order_witness :
  Dom5Ts.nodeWalkAll 4 sample 0 (on_node isTextNode) [5] = Ok [5; 2; 4]
  ∧ Walking.nodeWalkAll 4 sample 0 (on_node isTextNode) [5]
      (Iteration.defaultChildNodes sample) = Ok [5; 2; 4].
Proof.
  destruct (nodeWalkAll_document_order sample sample_tree
              (on_node isTextNode) [5] 4) as (H1 & H2 & _).
  - repeat (constructor; try done).
  - simpl. lia.
  - split; [exact H1|exact (eq_trans H2 H1)].
Defined.

Lemma find_st_app {A St} (l1 l2 : list A) pred (st : St) :
  find_st (l1 ++ l2) pred st
  = (r ← find_st l1 pred st;
     match r.1 with
     | Some x => Ok (Some x, r.2)
     | None => find_st l2 pred r.2
     end).
Proof.
  revert st. induction l1 as [|x l1 IH]; intros st; [done|].
  cbn [app find_st]. destruct (pred x st) as [[[] st']| |]; [done| |done..].
  run. cbn [fst snd]. apply IH.
Qed.

Lemma nodeWalkSt_lays {St} s t (pred : store → id → St → res (bool * St)) :
  lays s t → ∀ fuel st, height t ≤ fuel →
  Dom5Ts.nodeWalkSt fuel s (root t) pred st
  = find_st (preorder t) (pred s) st.
Proof.
  induction t as [i nd kids IH] using tree_induct. intros Hl fuel st Hfuel.
  inversion Hl as [i' nd' kids' Hi Hcs Hkids]; subst.
  destruct fuel as [|fuel]; [simpl in Hfuel; lia|].
  cbn [Dom5Ts.nodeWalkSt root preorder find_st].
  destruct (pred s i st) as [[[] st']| |]; [done| |done..]. run.
  cbn [fst snd]. rewrite (deref_Some _ _ _ Hi). run.
  assert (Hh : Forall (λ k, height k ≤ fuel) kids).
  { apply Forall_forall. intros k Hk.
    pose proof (height_kids i nd kids k Hk). lia. }
  destruct (childNodes nd) as [cs|]; subst; [|done].
  clear Hfuel Hl Hi st. revert st'.
  induction kids as [|k kids IHk]; intros st; [done|].
  apply Forall_cons in IH as [IH1 IH2].
  apply Forall_cons in Hkids as [Hk1 Hk2].
  apply Forall_cons in Hh as [Hh1 Hh2].
  cbn [map Dom5Ts.walk_children flat_map]. rewrite find_st_app.
  rewrite IH1 by done.
  destruct (find_st (preorder k) (pred s) st) as [[[x|] st']| |];
    [done| |done..].
  run. cbn [fst snd]. by apply IHk.
Qed.

Lemma find_st_stateless {A} (l : list A) (p : A → res bool) :
  (r ← find_st l (λ x (_ : unit), b ← p x; Ok (b, tt)) tt; Ok r.1)
  = Walking.find_in l p.
Proof.
  induction l as [|x l IH]; [done|].
  cbn [find_st Walking.find_in]. rewrite bind_assoc.
  destruct (p x) as [[]| |]; [done| |done..]. run. cbn [fst snd]. apply IH.
Qed.

Lemma nodeWalk_lays s t p fuel :
  lays s t → height t ≤ fuel →
  Dom5Ts.nodeWalk fuel s (root t) p = Walking.find_in (preorder t) (p s).
Proof.
  intros Hl Hfuel. unfold Dom5Ts.nodeWalk.
  rewrite nodeWalkSt_lays by done. apply find_st_stateless.
Qed.

(** X2: on a tree laid out in the store, the recursive [nodeWalk] of
    dom5.ts (dom5.js has the same code) and [nodeWalk] of walking.ts return
    the same result: the first node in document order that the predicate
    accepts, the predicate being put to no node after it, or no node when
    it accepts none. *)
Theorem nodeWalk_first_in_document_order s t p fuel :
  lays s t → height t ≤ fuel →
  Dom5Ts.nodeWalk fuel s (root t) p = Walking.find_in (preorder t) (p s)
  ∧ Walking.nodeWalk fuel s (root t) p (Iteration.defaultChildNodes s)
    = Dom5Ts.nodeWalk fuel s (root t) p
  ∧ ∀ f, (∀ x, x ∈ preorder t → p s x = Ok (f x)) →
      Dom5Ts.nodeWalk fuel s (root t) p
      = Ok (head (filter (λ x, f x = true) (preorder t))).
Proof.
  intros Hl Hfuel. rewrite nodeWalk_lays by done. split_and!.
  - done.
  - unfold Walking.nodeWalk.
    rewrite (depthFirst_follows _ t) by (by apply lays_follows || done).
    apply find_finished.
  - intros f Hp. by apply find_in_pure.
Qed.

Lemma nodeWalk_first_in_document_order_witness :
  Dom5Ts.nodeWalk 4 sample 0 (on_node isTextNode) = Ok (Some 2)
  ∧ Walking.nodeWalk 4 sample 0 (on_node isTextNode)
      (Iteration.defaultChildNodes sample) = Ok (Some 2).
Proof.
  destruct (nodeWalk_first_in_document_order sample sample_tree
              (on_node isTextNode) 4) as (H1 & H2 & _).
  - repeat (constructor; try done).
  - simpl. lia.
  - split; [exact H1|exact (eq_trans H2 H1)].
Defined.

Lemma filter_in_find_in {A} (l : list A) (p : A → res bool) m r :
  Walking.filter_in l p m = Ok r →
  ∃ new, r = m ++ new ∧ Walking.find_in l p = Ok (head new)
         ∧ Forall (λ x, p x = Ok true) new.
Proof.
  revert m. induction l as [|x l IH]; intros m Hr.
  - injection Hr as <-. exists []. by rewrite app_nil_r.
  - cbn [Walking.filter_in Walking.find_in] in *.
    destruct (p x) as [b| |] eqn:Hx; [|done..]. revert Hr. run. intros Hr.
    destruct (IH _ Hr) as (new & -> & Hf & Hall). destruct b.
    + exists (x :: new). rewrite <- app_assoc. split_and!; [done..|].
      by constructor.
    + by exists new.
Qed.

(** X3: on a tree laid out in the store, whenever [nodeWalkAll] returns
    its list of matches, [nodeWalk] with the same arguments returns the
    first node of that list, or no node when the list is empty. *)
Theorem nodeWalk_is_first_of_nodeWalkAll s t p fuel ms :
  lays s t → height t ≤ fuel →
  Dom5Ts.nodeWalkAll fuel s (root t) p [] = Ok ms →
  Dom5Ts.nodeWalk fuel s (root t) p = Ok (head ms)
  ∧ Walking.nodeWalk fuel s (root t) p (Iteration.defaultChildNodes s)
    = Ok (head ms).
Proof.
  intros Hl Hfuel Hall. rewrite nodeWalkAll_lays in Hall by done.
  apply filter_in_find_in in Hall as (new & -> & Hf & _). split.
  - by rewrite nodeWalk_lays.
  - unfold Walking.nodeWalk.
    rewrite (depthFirst_follows _ t) by (by apply lays_follows || done).
    by rewrite find_finished.
Qed.

Lemma nodeWalk_is_first_of_nodeWalkAll_witness :
  Dom5Ts.nodeWalk 4 sample 0 (on_node isElement) = Ok (Some 1).
Proof.
  apply (nodeWalk_is_first_of_nodeWalkAll sample sample_tree
           (on_node isElement) 4 [1; 3]).
  - repeat (constructor; try done).
  - simpl. lia.
  - reflexivity.
Defined.

Lemma walk_children_sound {St} (rec : id → St → res (option id * St))
    (Q : id → St → Prop) cs st x st' :
  (∀ c st x st', rec c st = Ok (Some x, st') → Q x st') →
  Dom5Ts.walk_children rec cs st = Ok (Some x, st') → Q x st'.
Proof.
  intros Hrec. revert st. induction cs as [|c cs IH]; intros st; [done|].
  cbn [Dom5Ts.walk_children].
  destruct (rec c st) as [[[y|] st1]| |] eqn:Hc; [| |done..]; run;
    cbn [fst snd].
  - intros [= -> ->]. by eapply Hrec.
  - apply IH.
Qed.

Lemma nodeWalkSt_sound {St} fuel s n
    (pred : store → id → St → res (bool * St)) st x st' :
  Dom5Ts.nodeWalkSt fuel s n pred st = Ok (Some x, st') →
  ∃ st0, pred s x st0 = Ok (true, st').
Proof.
  revert n st x st'. induction fuel as [|fuel IH]; intros n st x st'; [done|].
  cbn [Dom5Ts.nodeWalkSt].
  destruct (pred s n st) as [[[] st1]| |] eqn:Hp; [| |done..]; run;
    cbn [fst snd].
  - intros [= -> ->]. by exists st.
  - destruct (deref s n) as [nd| |]; [|done..]. run.
    destruct (childNodes nd) as [cs|]; [|done].
    apply (walk_children_sound _ (λ x st', ∃ st0, pred s x st0 = Ok (true, st'))).
    intros c st2 y st3. apply IH.
Qed.

Lemma nodeWalk_sound fuel s n p x :
  Dom5Ts.nodeWalk fuel s n p = Ok (Some x) → p s x = Ok true.
Proof.
  unfold Dom5Ts.nodeWalk. intros H.
  apply bind_Ok_inv in H as ([m []] & H & [= ->]).
  apply nodeWalkSt_sound in H as ([] & H).
  by destruct (p s x) as [[]| |].
Qed.

Lemma nodeWalkAll_sound fuel s n q m r :
  Dom5Ts.nodeWalkAll fuel s n q m = Ok r →
  ∃ new, r = m ++ new ∧ Forall (λ x, q s x = Ok true) new.
Proof.
  revert n m r. induction fuel as [|fuel IH]; intros n m r; [done|].
  cbn [Dom5Ts.nodeWalkAll].
  destruct (q s n) as [b| |] eqn:Hq; [|done..]. run.
  destruct (deref s n) as [nd| |]; [|done..]. run.
  assert (∃ new, (if b then m ++ [n] else m) = m ++ new
                 ∧ Forall (λ x, q s x = Ok true) new) as (new0 & -> & Hnew0).
  { destruct b; [exists [n]|exists []]; rewrite ?app_nil_r; by repeat constructor. }
  destruct (childNodes nd) as [cs|].
  2:{ intros [= <-]. by exists new0. }
  revert new0 Hnew0. induction cs as [|c cs IHcs]; intros new0 Hnew0.
  { intros [= <-]. by exists new0. }
  cbn [foldl]. rewrite foldl_bind_step. run.
  destruct (Dom5Ts.nodeWalkAll fuel s c q (m ++ new0)) as [m1| |] eqn:Hc;
    [|done..].
  run. apply IH in Hc as (new1 & -> & Hnew1). rewrite <- app_assoc.
  apply IHcs. by apply Forall_app.
Qed.

Lemma elementPredicate_true (p : Predicate) s x :
  Dom5Ts.AND [on_node isElement; p] s x = Ok true →
  ∃ xd, s !! x = Some xd ∧ isElement xd = true ∧ p s x = Ok true.
Proof.
  cbn [Dom5Ts.AND]. unfold on_node, deref.
  destruct (s !! x) as [xd|]; [|done]. run.
  destruct (isElement xd) eqn:He; [|done].
  destruct (p s x) as [[]| |]; try done. by exists xd.
Qed.

(** X4: in any store and with any fuel, a node that [query] returns is an
    element, and the predicate accepts it: the search never hands back a
    text node, a comment or a document. *)
Theorem query_returns_elements fuel s n p x :
  Dom5Ts.query fuel s n p = Ok (Some x) →
  ∃ xd, s !! x = Some xd ∧ isElement xd = true ∧ p s x = Ok true.
Proof. intros H%nodeWalk_sound. by apply elementPredicate_true. Qed.

Lemma query_returns_elements_witness :
  ∃ xd, sample !! 3 = Some xd ∧ isElement xd = true
        ∧ Dom5Ts.NOT (Dom5Ts.hasTextValue 4 "ab") sample 3 = Ok true.
Proof.
  apply (query_returns_elements 4 sample 0
           (Dom5Ts.NOT (Dom5Ts.hasTextValue 4 "ab")) 3).
  reflexivity.
Defined.

(** X5: in any store, the list that [queryAll] returns begins with the
    [matches] it was given, unchanged, and goes on with elements that the
    predicate accepts. *)
Theorem queryAll_extends_with_elements fuel s n p matches r :
  Dom5Ts.queryAll fuel s n p matches = Ok r →
  ∃ new, r = matches ++ new
    ∧ Forall (λ x, ∃ xd, s !! x = Some xd ∧ isElement xd = true
                         ∧ p s x = Ok true) new.
Proof.
  intros (new & -> & Hnew)%nodeWalkAll_sound. exists new. split; [done|].
  eapply Forall_impl; [done|]. intros x. apply elementPredicate_true.
Qed.

Lemma queryAll_extends_with_elements_witness :
  ∃ new, [5; 1; 3] = [5] ++ new
    ∧ Forall (λ x, ∃ xd, sample !! x = Some xd ∧ isElement xd = true
                         ∧ always sample x = Ok true) new.
Proof.
  apply (queryAll_extends_with_elements 4 sample 0 always [5] [5; 1; 3]).
  reflexivity.
Defined.

Lemma treeMap_find_st {A U} (f : A → res (list U)) (l : list A) acc :
  (r ← find_st l (λ n results, us ← f n; Ok (false, results ++ us)) acc;
   Ok r.2)
  = (ls ← mapM f l; Ok (acc ++ concat ls)).
Proof.
  revert acc. induction l as [|x l IH]; intros acc.
  - cbn. by rewrite app_nil_r.
  - cbn [find_st]. rewrite bind_assoc. cbn [mapM]. rewrite bind_assoc.
    destruct (f x) as [us| |]; [|done..]. run. cbn [fst snd].
    rewrite IH, bind_assoc. destruct (mapM f l) as [ls| |]; [|done..].
    run. cbn [concat]. by rewrite app_assoc.
Qed.

Lemma array_from_gen_for {A U} (f : A → res (list U)) (l : list A) :
  Walking.array_from (gen_for l (λ n, Walking.iterate (f n)))
  = (ls ← mapM f l; Ok (concat ls)).
Proof.
  induction l as [|x l IH]; [done|].
  cbn [gen_for foldr mapM]. rewrite bind_assoc.
  fold (gen_for l (λ n, Walking.iterate (f n))).
  destruct (f x) as [us| |]; [|done..]. run.
  destruct (mapM f l) as [ls| |],
    (gen_for l (λ n, Walking.iterate (f n))) as [ys []];
    cbn in IH |- *; by simplify_eq.
Qed.

Lemma mapM_pure {A B} (f : A → res B) (g : A → B) (l : list A) :
  (∀ x, x ∈ l → f x = Ok (g x)) → mapM f l = Ok (map g l).
Proof.
  induction l as [|x l IH]; intros Hf; [done|].
  cbn [mapM]. rewrite Hf by constructor. run.
  rewrite IH by (intros; apply Hf; by constructor). done.
Qed.

Lemma concat_map_flat_map {A B} (g : A → list B) (l : list A) :
  concat (map g l) = flat_map g l.
Proof. induction l as [|x l IH]; [done|]. simpl. by rewrite IH. Qed.

(** X6: on a tree laid out in the store, [treeMap] of dom5.ts (by
    [nodeWalk] with a predicate that collects and answers [false]) and
    [treeMap] of walking.ts (by the generator of iteration.ts) return the
    same result: the arrays that [mapfn] returns for the nodes in document
    order, concatenated; an exception of [mapfn] ends both. *)
Theorem treeMap_flattens_document_order {U} s t
    (mapfn : store → id → res (list U)) fuel :
  lays s t → height t ≤ fuel →
  Dom5Ts.treeMap fuel s (root t) mapfn
  = (ls ← mapM (mapfn s) (preorder t); Ok (concat ls))
  ∧ Walking.treeMap fuel s (root t) mapfn
    = Dom5Ts.treeMap fuel s (root t) mapfn
  ∧ ∀ g, (∀ x, x ∈ preorder t → mapfn s x = Ok (g x)) →
      Dom5Ts.treeMap fuel s (root t) mapfn = Ok (flat_map g (preorder t)).
Proof.
  intros Hl Hfuel.
  assert (Hts : Dom5Ts.treeMap fuel s (root t) mapfn
                = (ls ← mapM (mapfn s) (preorder t); Ok (concat ls))).
  { unfold Dom5Ts.treeMap. rewrite nodeWalkSt_lays by done.
    by rewrite treeMap_find_st. }
  split_and!.
  - done.
  - rewrite Hts. unfold Walking.treeMap, Iteration.treeMap. cbn [default].
    rewrite (depthFirst_follows _ t) by (by apply lays_follows || done).
    unfold gen_for_gen. cbn [fst snd]. rewrite <- array_from_gen_for.
    by destruct (gen_for _ _) as [ys []]; cbn; rewrite ?app_nil_r.
  - intros g Hg. rewrite Hts, (mapM_pure _ g) by done. run.
    by rewrite concat_map_flat_map.
Qed.

Lemma treeMap_flattens_document_order_witness :
  Dom5Ts.treeMap 4 sample 0 (λ _ n, Ok [n; n])
  = (ls ← mapM (λ n, Ok [n; n]) (preorder sample_tree); Ok (concat ls))
  ∧ Walking.treeMap 4 sample 0 (λ _ n, Ok [n; n])
    = Dom5Ts.treeMap 4 sample 0 (λ _ n, Ok [n; n]).
Proof.
  destruct (treeMap_flattens_document_order sample sample_tree
              (λ _ n, Ok [n; n]) 4) as (H1 & H2 & _).
  - repeat (constructor; try done).
  - simpl. lia.
  - by split.
Defined.

(** ** Walks up the tree *)

Lemma path_to_outside n t : n ∉ preorder t → path_to n t = None.
Proof.
  induction t as [i nd kids IH] using tree_induct. cbn [preorder path_to].
  intros Hn. rewrite decide_False by (intros ->; apply Hn; constructor).
  assert (Hk : n ∉ flat_map preorder kids).
  { intros ?. apply Hn. by constructor. }
  clear Hn. induction IH as [|k l Hk1 _ IHl]; [done|].
  cbn [flat_map] in Hk. rewrite Hk1.
  - apply IHl. intros ?. apply Hk, elem_of_app. by right.
  - intros ?. apply Hk, elem_of_app. by left.
Qed.

Lemma ancestors_path s t :
  lays s t → ∀ p n, parented p t → n ∈ preorder t →
  ∃ path,
    path_to n t = Some path ∧ length path ≤ height t
    ∧ head (reverse path) = Some n ∧ last (reverse path) = Some (root t)
    ∧ ∀ fuel,
        Iteration.ancestors (length path + fuel) s (Obj n)
        = gen_seq (Obj <$> reverse path, Done) (Iteration.ancestors fuel s p).
Proof.
  induction t as [i nd kids IH] using tree_induct. intros Hl p n Hp Hn.
  inversion Hl as [i' nd' kids' Hi Hcs Hkids]; subst.
  inversion Hp as [p' i' nd' kids' Hpar Hpk]; subst.
  cbn [path_to root]. destruct (decide (i = n)) as [->|Hne].
  { exists [n]. split_and!; [done|simpl; lia|done..|].
    intros fuel. cbn [length Nat.add Iteration.ancestors]. by rewrite Hi. }
  cbn [preorder] in Hn. apply elem_of_cons in Hn as [?|Hn]; [done|].
  assert (∃ path,
    (fix first (l : list tree) : option (list id) :=
       match l with
       | [] => None
       | k :: l' =>
           match path_to n k with
           | Some path => Some path
           | None => first l'
           end
       end) kids = Some path
    ∧ length path ≤ foldr (λ k m, Nat.max (height k) m) 0 kids
    ∧ head (reverse path) = Some n
    ∧ ∀ fuel, Iteration.ancestors (length path + fuel) s (Obj n)
              = gen_seq (Obj <$> reverse path, Done)
                  (Iteration.ancestors fuel s (Obj i)))
    as (path & Hpath & Hlen & Hhead & Hrun).
  { clear Hcs Hl Hp Hi. revert IH Hkids Hpk Hn.
    induction kids as [|k kids IHk]; intros IH Hkids Hpk Hn.
    { by apply elem_of_nil in Hn. }
    apply Forall_cons in IH as [IH1 IH2].
    apply Forall_cons in Hkids as [Hk1 Hk2].
    apply Forall_cons in Hpk as [Hp1 Hp2].
    destruct (decide (n ∈ preorder k)) as [Hin|Hout].
    - destruct (IH1 Hk1 _ _ Hp1 Hin) as (path & -> & Hlen & Hhead & _ & Hrun).
      exists path. split_and!; [done|simpl; lia|done..].
    - rewrite (path_to_outside n k Hout).
      cbn [flat_map] in Hn. apply elem_of_app in Hn as [?|Hn]; [done|].
      destruct (IHk IH2 Hk2 Hp2 Hn) as (path & -> & Hlen & Hhead & Hrun).
      exists path. split_and!; [done|simpl; lia|done..]. }
  rewrite Hpath. exists (i :: path). split_and!.
  - done.
  - simpl. lia.
  - rewrite reverse_cons. destruct (reverse path); [done|]. done.
  - by rewrite reverse_cons, last_snoc.
  - intros fuel. cbn [length].
    replace (S (length path) + fuel) with (length path + S fuel) by lia.
    rewrite Hrun. cbn [Iteration.ancestors]. rewrite Hi.
    rewrite reverse_cons, fmap_app. unfold gen_seq. cbn [fst snd gen_yield].
    destruct (Iteration.ancestors fuel s (parentNode nd)) as [ys st]. cbn.
    by rewrite <- !app_assoc.
Qed.

Lemma find_in_objects (p : Predicate) on_null s (l : list id) :
  Walking.find_in (Obj <$> l) (Walking.call_on p on_null s)
  = (r ← Walking.find_in l (p s); Ok (Obj <$> (r : option id))).
Proof.
  induction l as [|x l IH]; [done|]. cbn.
  destruct (p s x) as [[|]| |]; cbn; [done|apply IH|done..].
Qed.

Lemma find_in_objects_null (p : Predicate) on_null s (l : list id) :
  Walking.find_in ((Obj <$> l) ++ [Null]) (Walking.call_on p on_null s)
  = (r ← Walking.find_in l (p s);
     match r : option id with
     | Some x => Ok (Some (Obj x))
     | None => b ← on_null; Ok (if b : bool then Some Null else None)
     end).
Proof.
  induction l as [|x l IH].
  - cbn. by destruct on_null as [[|]| |].
  - cbn. destruct (p s x) as [[|]| |]; cbn; [done|apply IH|done..].
Qed.

(** X7: in a tree with consistent back-references, [ancestors] yields the
    path from the node up to the root, the node itself first and the root
    last.  Where the root has no [parentNode] it then returns, and
    [nodeWalkAncestors] returns the first node of the path that the
    predicate accepts, so it tests the node itself before its parent.
    Where the [parentNode] of the root is [null], [ancestors] goes on to
    yield [null] and then throws a TypeError: [nodeWalkAncestors] returns
    the first node of the path that the predicate accepts, and otherwise
    hands [null] to the predicate, returning no node if it accepts it and
    throwing the TypeError if it rejects it. *)
Theorem ancestors_is_path_to_root s t up n p on_null fuel :
  lays s t → parented up t → n ∈ preorder t → height t < fuel →
  ∃ path,
    path_to n t = Some path
    ∧ head (reverse path) = Some n
    ∧ last (reverse path) = Some (root t)
    ∧ (up = Undefined →
       Iteration.ancestors fuel s (Obj n) = (Obj <$> reverse path, Done)
       ∧ Walking.nodeWalkAncestors fuel s n p on_null
         = Walking.find_in (reverse path) (p s)
       ∧ ∀ f, (∀ x, x ∈ path → p s x = Ok (f x)) →
           Walking.nodeWalkAncestors fuel s n p on_null
           = Ok (head (filter (λ x, f x = true) (reverse path))))
    ∧ (up = Null →
       Iteration.ancestors fuel s (Obj n)
       = ((Obj <$> reverse path) ++ [Null], Thrown TypeError)
       ∧ Walking.nodeWalkAncestors fuel s n p on_null
         = (r ← Walking.find_in (reverse path) (p s);
            match r : option id with
            | Some x => Ok (Some x)
            | None =>
                b ← on_null; if b : bool then Ok None else Throw TypeError
            end)).
Proof.
  intros Hl Hp Hn Hfuel.
  destruct (ancestors_path s t Hl up n Hp Hn)
    as (path & Hpath & Hlen & Hhead & Hlast & Hrun).
  exists path. split_and!; [done..| |]; intros ->.
  - assert (Hanc : Iteration.ancestors fuel s (Obj n)
                   = (Obj <$> reverse path, Done)).
    { replace fuel with (length path + S (fuel - length path - 1)) by lia.
      rewrite Hrun. unfold gen_seq. cbn. by rewrite app_nil_r. }
    assert (Hwalk : Walking.nodeWalkAncestors fuel s n p on_null
                    = Walking.find_in (reverse path) (p s)).
    { unfold Walking.nodeWalkAncestors.
      rewrite Hanc, find_finished, find_in_objects.
      by destruct (Walking.find_in (reverse path) (p s)) as [[x|]| |]. }
    split_and!; [done..|]. intros f Hf. rewrite Hwalk.
    apply find_in_pure. intros x Hx. apply Hf. by rewrite <- elem_of_reverse.
  - assert (Hanc : Iteration.ancestors fuel s (Obj n)
                   = ((Obj <$> reverse path) ++ [Null], Thrown TypeError)).
    { replace fuel with (length path + S (fuel - length path - 1)) by lia.
      by rewrite Hrun. }
    split; [done|]. unfold Walking.nodeWalkAncestors, Walking.find.
    rewrite Hanc. cbn [fst snd]. rewrite find_in_objects_null.
    destruct (Walking.find_in (reverse path) (p s)) as [[x|]| |]; [done| |done..].
    cbn. by destruct on_null as [[|]| |].
Qed.

Lemma ancestors_is_path_to_root_witness :
  ∃ path,
    path_to 4 sample_tree = Some path
    ∧ Iteration.ancestors 5 sample (Obj 4) = (Obj <$> reverse path, Done)
    ∧ Walking.nodeWalkAncestors 5 sample 4 (on_node isTextNode)
        (Throw TypeError)
      = Walking.find_in (reverse path) (on_node isTextNode sample).
Proof.
  destruct (ancestors_is_path_to_root sample sample_tree Undefined 4
              (on_node isTextNode) (Throw TypeError) 5)
    as (path & H1 & _ & _ & H2 & _).
  - repeat (constructor; try done).
  - repeat (constructor; try done).
  - apply (bool_decide_unpack _). by vm_compute.
  - simpl. lia.
  - destruct (H2 eq_refl) as (H3 & H4 & _). by exists path.
Defined.

(** From a text of the detached paragraph, whose [parentNode] is [null]:
    the element is found, a document is not and the walk throws. *)
Example nodeWalkAncestors_detached :
  Iteration.ancestors 3 paragraph (Obj 1)
  = ([Obj 1; Obj 0; Null], Thrown TypeError)
  ∧ Walking.nodeWalkAncestors 3 paragraph 1 (on_node isElement)
      (Throw TypeError) = Ok (Some 0)
  ∧ Walking.nodeWalkAncestors 3 paragraph 1 (on_node isDocument)
      (Throw TypeError) = Throw TypeError.
Proof. by vm_compute. Qed.

(** X8: on a finite tree described by any child accessor,
    [depthFirstReversed] yields exactly the sequence of [depthFirst] in the
    reverse order, the root argument last, and returns. *)
Theorem depthFirstReversed_reverses_depthFirst gc t fuel :
  follows gc t → height t ≤ fuel →
  ∃ ys,
    Iteration.depthFirst fuel gc (root t) = (ys, Done)
    ∧ Iteration.depthFirstReversed fuel gc (root t) = (reverse ys, Done)
    ∧ last (reverse ys) = Some (root t).
Proof.
  intros Hf Hfuel. exists (preorder t). split_and!.
  - by apply depthFirst_follows.
  - by apply depthFirstReversed_follows.
  - destruct t. cbn [preorder root]. by rewrite reverse_cons, last_snoc.
Qed.

Lemma depthFirstReversed_reverses_depthFirst_witness :
  ∃ ys,
    Iteration.depthFirst 4 (Iteration.defaultChildNodes sample) 0 = (ys, Done)
    ∧ Iteration.depthFirstReversed 4 (Iteration.defaultChildNodes sample) 0
      = (reverse ys, Done)
    ∧ last (reverse ys) = Some 0.
Proof.
  apply (depthFirstReversed_reverses_depthFirst
           (Iteration.defaultChildNodes sample) sample_tree 4).
  - repeat (constructor; try done).
  - simpl. lia.
Defined.

(** ** setTextContent *)

Lemma setTextContent_container s n nd v :
  s !! n = Some nd → isCommentNode nd = false → isTextNode nd = false →
  let tn := length s in
  let s' := set_childNodes n [tn]
              (s ++ [with_parentNode (Obj n) (Dom5Ts.newTextNode v)]) in
  Dom5Ts.setTextContent n v s = Ok s'
  ∧ s' !! n = Some (with_childNodes (Some [tn]) nd)
  ∧ s' !! tn = Some (with_parentNode (Obj n) (Dom5Ts.newTextNode v))
  ∧ ∀ m, m ≠ n → m < length s → s' !! m = s !! m.
Proof.
  intros Hn Hc Ht tn s'. pose proof (lookup_lt_Some _ _ _ Hn) as Hlt.
  split_and!.
  - unfold Dom5Ts.setTextContent. rewrite (deref_Some _ _ _ Hn). run.
    by rewrite Hc, Ht.
  - unfold s', set_childNodes. rewrite list_lookup_alter.
    rewrite decide_True by done. rewrite lookup_app_l by done. by rewrite Hn.
  - unfold s', set_childNodes. rewrite list_lookup_alter_ne by (unfold tn; lia).
    rewrite lookup_app_r by (unfold tn; lia).
    unfold tn. by rewrite Nat.sub_diag.
  - intros m Hne Hm. unfold s', set_childNodes.
    rewrite list_lookup_alter_ne by done. by rewrite lookup_app_l.
Qed.

(** X9: [getTextContent] reads back what [setTextContent] wrote: for
    every node of the store, text node, comment or other, and every string,
    [setTextContent] returns and [getTextContent] of the node is then that
    string, in dom5.ts and in dom5.js; no other object of the old store is
    changed. *)
Theorem setTextContent_then_getTextContent s n nd v fuel :
  s !! n = Some nd → 3 ≤ fuel →
  (∃ s', Dom5Ts.setTextContent n v s = Ok s'
         ∧ Dom5Ts.getTextContent fuel s' n = Ok v
         ∧ ∀ m, m ≠ n → m < length s → s' !! m = s !! m)
  ∧ (∃ s', Dom5Js.setTextContent n v s = Ok s'
           ∧ Dom5Js.getTextContent fuel s' n = Ok v
           ∧ ∀ m, m ≠ n → m < length s → s' !! m = s !! m).
Proof.
  intros Hn Hfuel. pose proof (lookup_lt_Some _ _ _ Hn) as Hlt. split.
  - destruct (isCommentNode nd) eqn:Hc; [|destruct (isTextNode nd) eqn:Ht].
    + exists (alter (with_data v) n s). split_and!.
      * unfold Dom5Ts.setTextContent. rewrite (deref_Some _ _ _ Hn). run.
        by rewrite Hc.
      * destruct fuel as [|fuel]; [lia|]. cbn [Dom5Ts.getTextContent].
        rewrite (deref_Some _ _ (with_data v nd))
          by (by rewrite list_lookup_alter, decide_True, Hn).
        run. change (isCommentNode (with_data v nd)) with (isCommentNode nd).
        by rewrite Hc.
      * intros m Hne _. by rewrite list_lookup_alter_ne.
    + exists (alter (with_value v) n s). split_and!.
      * unfold Dom5Ts.setTextContent. rewrite (deref_Some _ _ _ Hn). run.
        by rewrite Hc, Ht.
      * destruct fuel as [|fuel]; [lia|]. cbn [Dom5Ts.getTextContent].
        rewrite (deref_Some _ _ (with_value v nd))
          by (by rewrite list_lookup_alter, decide_True, Hn).
        run. change (isCommentNode (with_value v nd)) with (isCommentNode nd).
        change (isTextNode (with_value v nd)) with (isTextNode nd).
        by rewrite Hc, Ht.
      * intros m Hne _. by rewrite list_lookup_alter_ne.
    + destruct (setTextContent_container s n nd v Hn Hc Ht)
        as (Hrun & Hn' & Htn & Hframe).
      eexists. split_and!; [exact Hrun| |exact Hframe].
      set (tn := length s) in *.
      set (td := with_parentNode (Obj n) (Dom5Ts.newTextNode v)) in *.
      rewrite (getTextContent_subtree _
                 (Tree n (with_childNodes (Some [tn]) nd) [Tree tn td []])).
      * cbn [all_texts flat_map].
        change (isTextNode (with_childNodes (Some [tn]) nd))
          with (isTextNode nd).
        by rewrite Ht.
      * constructor; [done|done|]. by repeat constructor.
      * simpl. lia.
      * done.
      * done.
  - eexists. split_and!.
    + unfold Dom5Js.setTextContent. rewrite (deref_Some _ _ _ Hn). by run.
    + destruct fuel as [|fuel]; [lia|]. cbn [Dom5Js.getTextContent].
      unfold deref, set_childNodes.
      rewrite list_lookup_alter, decide_True by done.
      rewrite lookup_app_l, Hn by done. cbn.
      rewrite list_lookup_alter_ne by lia.
      rewrite lookup_app_r, Nat.sub_diag by lia. done.
    + intros m Hne Hm. unfold set_childNodes.
      rewrite list_lookup_alter_ne by done. by rewrite lookup_app_l.
Qed.

Lemma setTextContent_then_getTextContent_witness :
  (∃ s', Dom5Ts.setTextContent 1 "new" sample = Ok s'
         ∧ Dom5Ts.getTextContent 3 s' 1 = Ok "new")
  ∧ (∃ s', Dom5Js.setTextContent 1 "new" sample = Ok s'
           ∧ Dom5Js.getTextContent 3 s' 1 = Ok "new").
Proof.
  destruct (setTextContent_then_getTextContent sample 1
              (element "div" [2; 3] (Obj 0)) "new" 3)
    as [(s1 & H1 & H2 & _) (s2 & H3 & H4 & _)].
  - reflexivity.
  - lia.
  - split; [by exists s1|by exists s2].
Defined.

(** X10: [setTextContent] on a node that is neither a text node nor a
    comment replaces the [childNodes] array by one holding a single new
    text node, and leaves the [parentNode] of the old children as it was:
    they still name the node, which no longer lists them, so
    [previousSiblings] throws on them. *)
Theorem setTextContent_strands_children s n nd c v :
  s !! n = Some nd → isCommentNode nd = false → isTextNode nd = false →
  parent_of s c = Some n →
  ∃ s',
    Dom5Ts.setTextContent n v s = Ok s'
    ∧ children_of s' n = Some [length s]
    ∧ parent_of s' (length s) = Some n
    ∧ parent_of s' c = Some n
    ∧ c ≠ length s
    ∧ Iteration.previousSiblings s' c
      = ([], Thrown (InconsistentTree
           "Inconsistent parse5 tree: parent does not know about child")).
Proof.
  intros Hn Hc Ht Hpar.
  destruct (setTextContent_container s n nd v Hn Hc Ht)
    as (Hrun & Hn' & Htn & Hframe).
  assert (Hlt : c < length s).
  { unfold parent_of in Hpar. destruct (s !! c) eqn:H; [|done].
    by eapply lookup_lt_Some. }
  assert (Hpar' : ∃ cd, set_childNodes n [length s]
                    (s ++ [with_parentNode (Obj n) (Dom5Ts.newTextNode v)])
                    !! c = Some cd ∧ parentNode cd = Obj n).
  { apply parent_of_Some in Hpar as (cd & Hcd & Hcp).
    destruct (decide (c = n)) as [->|Hne].
    - eexists. split; [exact Hn'|]. by simplify_eq.
    - rewrite Hframe by done. by exists cd. }
  destruct Hpar' as (cd & Hc' & Hcp).
  eexists. split_and!; [exact Hrun|..].
  - unfold children_of. by rewrite Hn'.
  - unfold parent_of. by rewrite Htn.
  - apply parent_of_Some. eauto.
  - lia.
  - unfold Iteration.previousSiblings. rewrite Hc', Hcp, Hn'. cbn [childNodes with_childNodes].
    rewrite indexOf_absent; [done|].
    intros ->%list_elem_of_singleton. lia.
Qed.

Lemma setTextContent_strands_children_witness :
  ∃ s',
    Dom5Ts.setTextContent 1 "new" sample = Ok s'
    ∧ children_of s' 1 = Some [6]
    ∧ parent_of s' 3 = Some 1
    ∧ Iteration.previousSiblings s' 3
      = ([], Thrown (InconsistentTree
           "Inconsistent parse5 tree: parent does not know about child")).
Proof.
  destruct (setTextContent_strands_children sample 1
              (element "div" [2; 3] (Obj 0)) 3 "new")
    as (s' & H1 & H2 & _ & H3 & _ & H4); [reflexivity..|].
  by exists s'.
Defined.

Lemma children_of_alter_keep f n s p :
  (∀ nd, childNodes (f nd) = childNodes nd) →
  children_of (alter f n s) p = children_of s p.
Proof.
  intros Hf. unfold children_of. rewrite list_lookup_alter.
  destruct (decide (n = p)) as [->|]; [|done].
  destruct (s !! p); [|done]. cbn. apply Hf.
Qed.

Lemma parent_of_alter_keep f n s c :
  (∀ nd, parentNode (f nd) = parentNode nd) →
  parent_of (alter f n s) c = parent_of s c.
Proof.
  intros Hf. unfold parent_of. rewrite list_lookup_alter.
  destruct (decide (n = c)) as [->|]; [|done].
  destruct (s !! c); [|done]. cbn. by rewrite Hf.
Qed.

(** X11: [setTextContent] preserves the single-owner invariant. *)
Theorem setTextContent_single_owner s n v s' :
  single_owner s → Dom5Ts.setTextContent n v s = Ok s' → single_owner s'.
Proof.
  intros Hso. unfold Dom5Ts.setTextContent.
  destruct (deref s n) as [nd| |] eqn:Hd; [|done..]. run.
  apply deref_Ok_inv in Hd. rename Hd into Hn.
  destruct (isCommentNode nd) eqn:Hc; [|destruct (isTextNode nd) eqn:Ht].
  - intros [= <-] p cs. rewrite children_of_alter_keep by done.
    intros [Hnd Hall]%Hso. split; [done|]. intros c Hin.
    rewrite parent_of_alter_keep by done. by apply Hall.
  - intros [= <-] p cs. rewrite children_of_alter_keep by done.
    intros [Hnd Hall]%Hso. split; [done|]. intros c Hin.
    rewrite parent_of_alter_keep by done. by apply Hall.
  - intros [= <-].
    destruct (setTextContent_container s n nd v Hn Hc Ht)
      as (_ & Hn' & Htn & Hframe). intros p cs Hp.
    destruct (decide (p = n)) as [->|Hpn].
    + unfold children_of in Hp. rewrite Hn' in Hp. injection Hp as <-.
      split; [apply NoDup_singleton|]. intros c ->%list_elem_of_singleton.
      unfold parent_of. by rewrite Htn.
    + destruct (decide (p = length s)) as [->|Hpt].
      { unfold children_of in Hp. by rewrite Htn in Hp. }
      assert (Hplt : p < length s).
      { apply allocated_children in Hp.
        rewrite length_set_childNodes, length_app in Hp. simpl in Hp. lia. }
      unfold children_of in Hp. rewrite Hframe in Hp by done.
      destruct (Hso p cs Hp) as [Hnd Hall]. split; [done|]. intros c Hin.
      specialize (Hall c Hin). unfold parent_of in *.
      destruct (decide (c = n)) as [->|Hcn].
      * rewrite Hn'. by rewrite Hn in Hall.
      * rewrite Hframe; [done..|]. destruct (s !! c) eqn:H; [|done].
        by eapply lookup_lt_Some.
Qed.

Lemma setTextContent_single_owner_witness :
  ∃ s', Dom5Ts.setTextContent 1 "new" sample = Ok s' ∧ single_owner s'.
Proof.
  eexists. split; [reflexivity|].
  apply (setTextContent_single_owner sample 1 "new").
  - apply sample_single_owner.
  - reflexivity.
Defined.

(** ** Attributes *)

Section attribute_properties.
Context `{!ToLowerCase}.

Lemma getAttributeIndex_cons a attrs n :
  Attributes.getAttributeIndex (Some (a :: attrs)) n
  = if decide (toLowerCase (Attributes.name a) = toLowerCase n) then 0%Z
    else
      let i := Attributes.getAttributeIndex (Some attrs) n in
      if (i =? -1)%Z then (-1)%Z else (i + 1)%Z.
Proof.
  unfold Attributes.getAttributeIndex. cbn [list_find].
  destruct (decide _) as [|_]; [done|].
  destruct (list_find _ attrs) as [[i x]|]; [|done]. cbn.
  destruct (Z.eqb_spec (Z.of_nat i) (-1)); lia.
Qed.

Lemma getAttributeIndex_range attrs n :
  (-1 ≤ Attributes.getAttributeIndex (Some attrs) n < Z.of_nat (length attrs))%Z.
Proof.
  induction attrs as [|a attrs IH]; [done|].
  rewrite getAttributeIndex_cons. cbn [length].
  destruct (decide _); [lia|]. cbv zeta.
  destruct (Z.eqb_spec (Attributes.getAttributeIndex (Some attrs) n) (-1)); lia.
Qed.

Lemma at_index_succ {A} (x : A) l i :
  (0 ≤ i)%Z → at_index (x :: l) (i + 1) = at_index l i.
Proof.
  intros Hi. unfold at_index.
  destruct (Z.ltb_spec (i + 1) 0), (Z.ltb_spec i 0); try lia.
  replace (Z.to_nat (i + 1)) with (S (Z.to_nat i)) by lia. done.
Qed.

Lemma getAttribute_cons a attrs n :
  Attributes.getAttribute (Some (a :: attrs)) n
  = if decide (toLowerCase (Attributes.name a) = toLowerCase n)
    then Ok (Some (Attributes.value a))
    else Attributes.getAttribute (Some attrs) n.
Proof.
  unfold Attributes.getAttribute. rewrite getAttributeIndex_cons.
  destruct (decide _); [done|]. cbv zeta.
  pose proof (getAttributeIndex_range attrs n) as Hr.
  destruct (Z.eqb_spec (Attributes.getAttributeIndex (Some attrs) n) (-1))
    as [->|Hne]; [done|].
  destruct (Z.gtb_spec (Attributes.getAttributeIndex (Some attrs) n + 1) (-1));
    [|lia].
  destruct (Z.gtb_spec (Attributes.getAttributeIndex (Some attrs) n) (-1));
    [|lia].
  run. by rewrite at_index_succ by lia.
Qed.

Lemma hasAttribute_cons a attrs n :
  Attributes.hasAttribute (Some (a :: attrs)) n
  = if decide (toLowerCase (Attributes.name a) = toLowerCase n) then true
    else Attributes.hasAttribute (Some attrs) n.
Proof.
  unfold Attributes.hasAttribute. rewrite getAttributeIndex_cons.
  destruct (decide _); [done|]. cbv zeta.
  pose proof (getAttributeIndex_range attrs n) as Hr.
  destruct (Z.eqb_spec (Attributes.getAttributeIndex (Some attrs) n) (-1))
    as [Heq|Hne]; [done|].
  destruct (Z.eqb_spec (Attributes.getAttributeIndex (Some attrs) n + 1) (-1));
    [lia|done].
Qed.

Lemma hasAttribute_elem_of attrs n :
  Attributes.hasAttribute (Some attrs) n = true
  ↔ toLowerCase n ∈ map (λ a, toLowerCase (Attributes.name a)) attrs.
Proof.
  induction attrs as [|a attrs IH].
  - split; [done|]. by intros ?%elem_of_nil.
  - rewrite hasAttribute_cons. cbn [map]. rewrite elem_of_cons.
    destruct (decide _) as [He|Hne].
    + split; [|done]. intros _. by left.
    + rewrite IH. split; [by right|]. by intros [?|?].
Qed.

Lemma setAttribute_cons a attrs n v :
  Attributes.setAttribute (Some (a :: attrs)) n v
  = if decide (toLowerCase (Attributes.name a) = toLowerCase n)
    then Ok (Some (Attributes.mkAttr (Attributes.name a) v :: attrs))
    else
      match Attributes.setAttribute (Some attrs) n v with
      | Ok (Some attrs') => Ok (Some (a :: attrs'))
      | r => r
      end.
Proof.
  unfold Attributes.setAttribute. rewrite getAttributeIndex_cons.
  destruct (decide _); [done|]. cbv zeta.
  pose proof (getAttributeIndex_range attrs n) as Hr.
  set (i := Attributes.getAttributeIndex (Some attrs) n) in *.
  destruct (Z.eqb_spec i (-1)) as [Heq|Hne].
  { rewrite Heq. by run. }
  destruct (Z.gtb_spec (i + 1) (-1)); [|lia].
  destruct (Z.gtb_spec i (-1)); [|lia].
  run. rewrite at_index_succ by lia.
  destruct (at_index attrs i) as [b|]; [|done]. run.
  replace (Z.to_nat (i + 1)) with (S (Z.to_nat i)) by lia.
  done.
Qed.

Lemma removeAttribute_cons a attrs n :
  Attributes.removeAttribute (Some (a :: attrs)) n
  = if decide (toLowerCase (Attributes.name a) = toLowerCase n)
    then Ok (Some attrs)
    else
      match Attributes.removeAttribute (Some attrs) n with
      | Ok (Some attrs') => Ok (Some (a :: attrs'))
      | r => r
      end.
Proof.
  unfold Attributes.removeAttribute. rewrite getAttributeIndex_cons.
  destruct (decide _).
  { done. }
  cbv zeta.
  pose proof (getAttributeIndex_range attrs n) as Hr.
  set (i := Attributes.getAttributeIndex (Some attrs) n) in *.
  destruct (Z.eqb_spec i (-1)) as [Heq|Hne].
  { rewrite Heq. by run. }
  destruct (Z.gtb_spec (i + 1) (-1)); [|lia].
  destruct (Z.gtb_spec i (-1)); [|lia].
  run. unfold splice, splice_start. cbn [length].
  destruct (Z.ltb_spec (i + 1) 0), (Z.ltb_spec i 0); try lia.
  replace (Z.to_nat (i + 1) `min` S (length attrs))
    with (S (Z.to_nat i `min` length attrs)) by lia.
  done.
Qed.

Lemma setAttribute_spec attrs n v :
  ∃ attrs',
    Attributes.setAttribute (Some attrs) n v = Ok (Some attrs')
    ∧ (∀ n', Attributes.getAttribute (Some attrs') n'
             = if decide (toLowerCase n' = toLowerCase n) then Ok (Some v)
               else Attributes.getAttribute (Some attrs) n')
    ∧ map (λ a, toLowerCase (Attributes.name a)) attrs'
      = (if Attributes.hasAttribute (Some attrs) n
         then map (λ a, toLowerCase (Attributes.name a)) attrs
         else map (λ a, toLowerCase (Attributes.name a)) attrs
              ++ [toLowerCase n]).
Proof.
  induction attrs as [|a attrs (attrs' & Hset & Hget & Hnames)].
  { exists [Attributes.mkAttr n v]. split_and!.
    - done.
    - intros n'. rewrite getAttribute_cons. cbn [Attributes.name].
      destruct (decide _), (decide _). all: done.
    - done. }
  rewrite setAttribute_cons, hasAttribute_cons.
  destruct (decide _) as [He|Hne].
  - eexists. split_and!; [done|..].
    + intros n'. rewrite !getAttribute_cons. cbn [Attributes.name].
      destruct (decide (toLowerCase n' = _)) as [->|Hn'].
      * by rewrite decide_True.
      * by rewrite !decide_False by congruence.
    + done.
  - rewrite Hset. exists (a :: attrs'). split_and!; [done|..].
    + intros n'. rewrite !getAttribute_cons, Hget.
      destruct (decide (toLowerCase n' = _)) as [->|Hn']; [|done].
      by rewrite decide_False.
    + cbn [map]. rewrite Hnames. by destruct (Attributes.hasAttribute _ _).
Qed.

Lemma hasAttribute_false element n :
  Attributes.hasAttribute element n = false →
  Attributes.getAttributeIndex element n = (-1)%Z.
Proof.
  unfold Attributes.hasAttribute.
  destruct (Z.eqb_spec (Attributes.getAttributeIndex element n) (-1)); done.
Qed.

Lemma setAttribute_first l1 a l2 n v :
  toLowerCase (Attributes.name a) = toLowerCase n →
  Forall (λ b, toLowerCase (Attributes.name b) ≠ toLowerCase n) l1 →
  Attributes.setAttribute (Some (l1 ++ a :: l2)) n v
  = Ok (Some (l1 ++ Attributes.mkAttr (Attributes.name a) v :: l2)).
Proof.
  intros Ha Hl1. induction Hl1 as [|b l1 Hb _ IH]; cbn [app].
  - by rewrite setAttribute_cons, decide_True.
  - by rewrite setAttribute_cons, decide_False, IH.
Qed.

Lemma setAttribute_absent attrs n v :
  Attributes.hasAttribute (Some attrs) n = false →
  Attributes.setAttribute (Some attrs) n v
  = Ok (Some (attrs ++ [Attributes.mkAttr n v])).
Proof.
  intros Hhas%hasAttribute_false. unfold Attributes.setAttribute.
  by rewrite Hhas.
Qed.

(** X12: [getAttribute] reads back what [setAttribute] wrote, under the
    name given and under any name with the same lower-case form; the
    attributes of other names are left as they were.  The first attribute
    of that name is overwritten in place, keeping the name as it was
    spelled; where there is none the attribute is added at the end, so
    names that were distinct stay distinct.  On an element without an
    [attrs] array [setAttribute] throws a TypeError, where [getAttribute]
    returns [null].  All this holds whatever [toLowerCase] computes. *)
Theorem setAttribute_then_getAttribute attrs n v :
  ∃ attrs',
    Attributes.setAttribute (Some attrs) n v = Ok (Some attrs')
    ∧ (∀ n', toLowerCase n' = toLowerCase n →
         Attributes.getAttribute (Some attrs') n' = Ok (Some v))
    ∧ (∀ n', toLowerCase n' ≠ toLowerCase n →
         Attributes.getAttribute (Some attrs') n'
         = Attributes.getAttribute (Some attrs) n')
    ∧ (∀ l1 a l2, attrs = l1 ++ a :: l2 →
         toLowerCase (Attributes.name a) = toLowerCase n →
         Forall (λ b, toLowerCase (Attributes.name b) ≠ toLowerCase n) l1 →
         attrs' = l1 ++ Attributes.mkAttr (Attributes.name a) v :: l2)
    ∧ (Attributes.hasAttribute (Some attrs) n = false →
       attrs' = attrs ++ [Attributes.mkAttr n v])
    ∧ length attrs'
      = (if Attributes.hasAttribute (Some attrs) n then length attrs
         else S (length attrs))
    ∧ (NoDup (map (λ a, toLowerCase (Attributes.name a)) attrs) →
       NoDup (map (λ a, toLowerCase (Attributes.name a)) attrs'))
    ∧ Attributes.setAttribute None n v = Throw TypeError
    ∧ Attributes.getAttribute None n = Ok None.
Proof.
  destruct (setAttribute_spec attrs n v) as (attrs' & Hset & Hget & Hnames).
  exists attrs'. split_and!; [| | | | | | |done|done].
  - done.
  - intros n' Hn'. by rewrite Hget, decide_True.
  - intros n' Hn'. by rewrite Hget, decide_False.
  - intros l1 a l2 -> Ha Hl1.
    rewrite (setAttribute_first l1 a l2 n v Ha Hl1) in Hset. congruence.
  - intros Hhas. rewrite (setAttribute_absent attrs n v Hhas) in Hset.
    congruence.
  - rewrite <- (length_map (λ a, toLowerCase (Attributes.name a)) attrs').
    rewrite Hnames. destruct (Attributes.hasAttribute _ _).
    + by rewrite length_map.
    + rewrite length_app, length_map. simpl. lia.
  - rewrite Hnames. destruct (Attributes.hasAttribute _ _) eqn:Hhas; [done|].
    intros Hnd. apply NoDup_app. split_and!; [done| |apply NoDup_singleton].
    intros x Hx ->%list_elem_of_singleton.
    apply hasAttribute_elem_of in Hx. congruence.
Qed.

Lemma removeAttribute_first l1 a l2 n :
  toLowerCase (Attributes.name a) = toLowerCase n →
  Forall (λ b, toLowerCase (Attributes.name b) ≠ toLowerCase n) l1 →
  Attributes.removeAttribute (Some (l1 ++ a :: l2)) n = Ok (Some (l1 ++ l2)).
Proof.
  intros Ha Hl1. induction Hl1 as [|b l1 Hb _ IH]; cbn [app].
  - by rewrite removeAttribute_cons, decide_True.
  - by rewrite removeAttribute_cons, decide_False, IH.
Qed.

Lemma removeAttribute_spec attrs n :
  ∃ attrs',
    Attributes.removeAttribute (Some attrs) n = Ok (Some attrs')
    ∧ (∀ n', toLowerCase n' ≠ toLowerCase n →
         Attributes.getAttribute (Some attrs') n'
         = Attributes.getAttribute (Some attrs) n')
    ∧ length attrs'
      = (if Attributes.hasAttribute (Some attrs) n then length attrs - 1
         else length attrs)
    ∧ (NoDup (map (λ a, toLowerCase (Attributes.name a)) attrs) →
       toLowerCase n ∉ map (λ a, toLowerCase (Attributes.name a)) attrs').
Proof.
  induction attrs as [|a attrs (attrs' & Hrem & Hget & Hlen & Hgone)].
  { exists []. split_and!; [done..|]. intros _. apply not_elem_of_nil. }
  rewrite removeAttribute_cons, hasAttribute_cons.
  destruct (decide _) as [He|Hne].
  - exists attrs. split_and!; [done| |simpl; lia|].
    + intros n' Hn'. rewrite getAttribute_cons.
      by rewrite decide_False by congruence.
    + cbn [map]. rewrite NoDup_cons, He. by intros [? _].
  - rewrite Hrem. exists (a :: attrs'). split_and!; [done|..].
    + intros n' Hn'. rewrite !getAttribute_cons.
      destruct (decide _); [done|]. by apply Hget.
    + cbn [length]. rewrite Hlen.
      destruct (Attributes.hasAttribute (Some attrs) n) eqn:Hhas; [|done].
      apply hasAttribute_elem_of in Hhas.
      destruct attrs; [by apply elem_of_nil in Hhas|]. simpl. lia.
    + cbn [map]. rewrite NoDup_cons, not_elem_of_cons. intros [_ Hnd].
      split; [congruence|auto].
Qed.

(** X13: [removeAttribute] takes out one attribute at most, the first
    whose name has the lower-case form of the given one: the attributes
    before and after it stay, in their order.  Without such an attribute,
    and on an element without an [attrs] array, it changes nothing.  The
    attributes of other names read as before; where the names are
    distinct up to case, the element has the attribute no longer.  All
    this holds whatever [toLowerCase] computes. *)
Theorem removeAttribute_removes_first attrs n :
  ∃ attrs',
    Attributes.removeAttribute (Some attrs) n = Ok (Some attrs')
    ∧ (∀ l1 a l2, attrs = l1 ++ a :: l2 →
         toLowerCase (Attributes.name a) = toLowerCase n →
         Forall (λ b, toLowerCase (Attributes.name b) ≠ toLowerCase n) l1 →
         attrs' = l1 ++ l2)
    ∧ (∀ n', toLowerCase n' ≠ toLowerCase n →
         Attributes.getAttribute (Some attrs') n'
         = Attributes.getAttribute (Some attrs) n')
    ∧ length attrs'
      = (if Attributes.hasAttribute (Some attrs) n then length attrs - 1
         else length attrs)
    ∧ (Attributes.hasAttribute (Some attrs) n = false → attrs' = attrs)
    ∧ (NoDup (map (λ a, toLowerCase (Attributes.name a)) attrs) →
       Attributes.hasAttribute (Some attrs') n = false
       ∧ Attributes.getAttribute (Some attrs') n = Ok None)
    ∧ Attributes.removeAttribute None n = Ok None.
Proof.
  destruct (removeAttribute_spec attrs n)
    as (attrs' & Hrem & Hget & Hlen & Hgone).
  exists attrs'. split_and!; [done| |done..| | |done].
  - intros l1 a l2 -> Ha Hl1.
    rewrite (removeAttribute_first l1 a l2 n Ha Hl1) in Hrem. congruence.
  - intros Hhas%hasAttribute_false. revert Hrem.
    unfold Attributes.removeAttribute. rewrite Hhas. cbn. congruence.
  - intros Hout%Hgone.
    assert (Hhas : Attributes.hasAttribute (Some attrs') n = false).
    { destruct (Attributes.hasAttribute (Some attrs') n) eqn:Hhas; [|done].
      by apply hasAttribute_elem_of in Hhas. }
    split; [done|]. unfold Attributes.getAttribute.
    by rewrite (hasAttribute_false _ _ Hhas).
Qed.

Lemma split_piece piece rest :
  " "%char ∉ String.list_ascii_of_string piece →
  split (piece +:+ String " " rest) = piece :: split rest.
Proof.
  induction piece as [|c piece IH]; intros Hc; [done|].
  change (String c piece +:+ String " " rest)
    with (String c (piece +:+ String " " rest)).
  cbn [split String.list_ascii_of_string] in *.
  apply not_elem_of_cons in Hc as [Hne Hc].
  destruct (Ascii.eqb_spec c " "); [done|]. by rewrite IH.
Qed.

Lemma split_one piece :
  " "%char ∉ String.list_ascii_of_string piece → split piece = [piece].
Proof.
  induction piece as [|c piece IH]; intros Hc; [done|].
  cbn [split String.list_ascii_of_string] in *.
  apply not_elem_of_cons in Hc as [Hne Hc].
  destruct (Ascii.eqb_spec c " "); [done|]. by rewrite IH.
Qed.

Lemma split_concat (pieces : list string) :
  pieces ≠ [] →
  Forall (λ piece, " "%char ∉ String.list_ascii_of_string piece) pieces →
  split (String.concat " " pieces) = pieces.
Proof.
  intros Hne Hall. induction Hall as [|piece pieces Hp Hall IH]; [done|].
  destruct pieces as [|piece' pieces].
  - by apply split_one.
  - change (String.concat " " (piece :: piece' :: pieces))
      with (piece +:+ String " " (String.concat " " (piece' :: pieces))).
    rewrite split_piece by done. by rewrite IH.
Qed.

Lemma indexOfString_elem_of arr x :
  (indexOfString arr x >? -1)%Z = bool_decide (x ∈ arr).
Proof.
  unfold indexOfString.
  destruct (list_find (λ y, y = x) arr) as [[i y]|] eqn:Hf.
  - apply list_find_Some in Hf as (Hi & -> & _).
    rewrite bool_decide_eq_true_2 by (by eapply list_elem_of_lookup_2).
    apply Z.gtb_lt. lia.
  - rewrite bool_decide_eq_false_2; [done|].
    intros Hx. eapply list_find_None in Hf. rewrite Forall_forall in Hf.
    by apply (Hf x).
Qed.

(** X14: [hasClass] tests the pieces of the class attribute: where the
    value of the attribute named [class], in any case, is not empty and is
    made of pieces without a space joined by single spaces, [hasClass]
    accepts the element exactly for the class names that are among the
    pieces; a class name with a space in it is never accepted. *)
Theorem hasClass_tests_the_pieces element pieces className :
  Attributes.getAttribute element "class"
  = Ok (Some (String.concat " " pieces)) →
  String.concat " " pieces ≠ "" →
  Forall (λ piece, " "%char ∉ String.list_ascii_of_string piece) pieces →
  Attributes.hasClass className element
  = Ok (bool_decide (className ∈ pieces)).
Proof.
  intros Hget Hne Hall. unfold Attributes.hasClass. rewrite Hget. run.
  destruct (String.eqb_spec (String.concat " " pieces) ""); [done|].
  rewrite split_concat; [|by intros ->|done].
  by rewrite indexOfString_elem_of.
Qed.

End attribute_properties.

Lemma hasClass_tests_the_pieces_witness :
  @Attributes.hasClass ascii_toLowerCase "b"
    (Some [Attributes.mkAttr "id" "x"; Attributes.mkAttr "CLASS" "a b"])
  = Ok true
  ∧ @Attributes.hasClass ascii_toLowerCase "a b"
      (Some [Attributes.mkAttr "id" "x"; Attributes.mkAttr "CLASS" "a b"])
    = Ok false.
Proof.
  split.
  - apply (@hasClass_tests_the_pieces ascii_toLowerCase _ ["a"; "b"] "b");
      [done|done|].
    apply (bool_decide_unpack _). by vm_compute.
  - apply (@hasClass_tests_the_pieces ascii_toLowerCase _ ["a"; "b"] "a b");
      [done|done|].
    apply (bool_decide_unpack _). by vm_compute.
Defined.

(** On ASCII names: the attribute [ID] is found under [id], overwritten
    in place and removed, the attribute after it staying. *)
Example attributes_by_case :
  let element := Some [Attributes.mkAttr "ID" "x"; Attributes.mkAttr "id" "y"] in
  @Attributes.getAttribute ascii_toLowerCase element "id" = Ok (Some "x")
  ∧ @Attributes.setAttribute ascii_toLowerCase element "id" "z"
    = Ok (Some [Attributes.mkAttr "ID" "z"; Attributes.mkAttr "id" "y"])
  ∧ @Attributes.removeAttribute ascii_toLowerCase element "Id"
    = Ok (Some [Attributes.mkAttr "id" "y"]).
Proof. by vm_compute. Qed.

(** ** Where an inserted node lands *)

Lemma remove_run s n nd :
  s !! n = Some nd →
  (∀ q, parentNode nd = Obj q → is_Some (children_of s q)) →
  ∃ s1,
    Dom5Ts.remove n s = Ok s1
    ∧ (∀ p, children_of s1 p
            = if decide (parentNode nd = Obj p)
              then (λ cs, splice cs (indexOf cs n) 1 []) <$> children_of s p
              else children_of s p)
    ∧ (∀ c, parent_of s1 c = if decide (c = n) then None else parent_of s c)
    ∧ length s1 = length s.
Proof.
  intros Hn Hq. unfold Dom5Ts.remove. rewrite (deref_Some _ _ _ Hn). run.
  assert (Hpar : ∀ s0 c, length s0 = length s →
            parent_of (set_parentNode n Null s0) c
            = if decide (c = n) then None else parent_of s0 c).
  { intros s0 c Hlen. rewrite parent_of_set_parentNode.
    destruct (decide (n = c)) as [->|Hne].
    - rewrite decide_True by done. apply bind_const_None.
    - by rewrite decide_False by done. }
  destruct (parentNode nd) as [| |q] eqn:Hp.
  3:{ destruct (Hq q eq_refl) as [qcs Hqcs].
      pose proof Hqcs as (qd & Hqd & Hqc)%children_of_Some.
      rewrite (deref_Some _ _ _ Hqd). run. rewrite Hqc. run.
      eexists. split_and!; [done|..].
      + intros p.
        rewrite children_of_set_parentNode, children_of_set_childNodes.
        destruct (decide (q = p)) as [->|Hne].
        * rewrite decide_True by done. by rewrite Hqd, Hqcs.
        * by rewrite decide_False by congruence.
      + intros c. rewrite Hpar by apply length_set_childNodes.
        by rewrite parent_of_set_childNodes.
      + by rewrite length_set_parentNode, length_set_childNodes. }
  all: run; eexists; split_and!; [done|..].
  all: first [ intros p; by rewrite children_of_set_parentNode
             | intros c; by apply Hpar
             | by rewrite length_set_parentNode ].
Qed.

Lemma insertNode_node s P idx n nd (repl : bool) (cs : list id) :
  s !! n = Some nd → isDocumentFragment nd = false →
  children_of s P = Some cs →
  (∀ q, parentNode nd = Obj q → is_Some (children_of s q)) →
  let cs1 := if decide (parentNode nd = Obj P)
             then splice cs (indexOf cs n) 1 [] else cs in
  let removed := if repl then at_index cs1 idx else None in
  ∃ s',
    Dom5Ts.insertNode P idx n repl s = Ok s'
    ∧ children_of s' P
      = Some (splice cs1 idx (if repl then 1 else 0) [n])
    ∧ ∀ c,
        parent_of s' c
        = if decide (removed = Some c) then None
          else if decide (c = n) then Some P else parent_of s c.
Proof.
  intros Hn Hfrag HP Hq cs1 removed.
  destruct (remove_run s n nd Hn Hq) as (s1 & Hrem & Hch & Hpar & Hlen).
  assert (HP1 : children_of s1 P = Some cs1).
  { rewrite Hch. unfold cs1. destruct (decide _); by rewrite HP. }
  pose proof HP as (pd & Hpd & Hpc)%children_of_Some.
  pose proof HP1 as (pd1 & Hpd1 & Hpc1)%children_of_Some.
  assert (Hrun : Dom5Ts.insertNode P idx n repl s
                 = Ok (spliced P idx repl [n] cs1 s1)).
  { unfold Dom5Ts.insertNode.
    assert ((if repl
             then pd ← deref s P; cs ← defined (childNodes pd); Ok ()
             else Ok ()) = Ok ()) as ->.
    { destruct repl; [|done]. rewrite (deref_Some _ _ _ Hpd). run.
      rewrite Hpc. by run. }
    run. rewrite (deref_Some _ _ _ Hn). run. rewrite Hfrag, Hrem. run.
    rewrite (deref_Some _ _ _ Hpd1). run. rewrite Hpc1. run.
    unfold spliced. destruct repl; run; rewrite ?Hpc1; run; [|done].
    by destruct (at_index cs1 idx). }
  exists (spliced P idx repl [n] cs1 s1). split; [done|].
  assert (HPa : P < length s1) by (by eapply allocated_children).
  unfold spliced. fold removed. cbn [foldl]. split.
  - destruct removed as [r|];
      rewrite ?children_of_set_parentNode, children_of_set_childNodes;
      by rewrite decide_True, Hpd1 by done.
  - intros c. pose proof (lookup_lt_Some _ _ _ Hn) as Hna.
    assert (Hin : parent_of
              (set_parentNode n (Obj P)
                 (set_childNodes P
                    (splice cs1 idx (if repl then 1 else 0) [n]) s1)) c
            = if decide (c = n) then Some P else parent_of s c).
    { rewrite parent_of_set_parentNode, parent_of_set_childNodes, Hpar.
      destruct (decide (n = c)) as [->|Hne].
      - rewrite decide_True by done. apply bind_allocated.
        rewrite length_set_childNodes. lia.
      - by rewrite !decide_False by congruence. }
    destruct removed as [r|].
    + rewrite parent_of_set_parentNode.
      destruct (decide (r = c)) as [->|Hne].
      * rewrite decide_True by done. apply bind_const_None.
      * rewrite decide_False by congruence. done.
    + rewrite decide_False by done. done.
Qed.

Lemma splice_at {A} (l1 l2 items : list A) k :
  splice (l1 ++ l2) (Z.of_nat (length l1)) k items
  = l1 ++ items ++ drop k l2.
Proof.
  unfold splice. rewrite splice_start_nat by (rewrite length_app; lia).
  by rewrite take_app_length, drop_app_add.
Qed.

Lemma splice_beyond {A} (arr items : list A) (i : nat) :
  length arr ≤ i → splice arr (Z.of_nat i) 0 items = arr ++ items.
Proof.
  intros Hi. unfold splice, splice_start.
  destruct (Z.ltb_spec (Z.of_nat i) 0); [lia|].
  rewrite Nat2Z.id, Nat.min_r, Nat.add_0_r by done.
  by rewrite firstn_all, drop_all, app_nil_r.
Qed.

Lemma splice_from_end {A} (arr items : list A) k :
  splice arr (-1) k items
  = take (length arr - 1) arr ++ items ++ drop (length arr - 1 + k) arr.
Proof.
  unfold splice, splice_start. change (-1 <? 0)%Z with true. cbv iota.
  by replace (Z.to_nat (Z.max (Z.of_nat (length arr) + -1) 0))
    with (length arr - 1) by lia.
Qed.

Lemma splice_out (l1 l2 : list id) n :
  n ∉ l1 →
  splice (l1 ++ n :: l2) (indexOf (l1 ++ n :: l2) n) 1 [] = l1 ++ l2.
Proof.
  intros Hn. rewrite indexOf_fresh_app by done. by rewrite splice_at.
Qed.

(** X15: [append] of a node that is not a fragment makes it the last
    child of the parent and sets its [parentNode]; a node that was a child
    of that parent already is moved to the end, the other children keeping
    their order. *)
Theorem append_moves_to_end s P n nd cs :
  s !! n = Some nd → isDocumentFragment nd = false →
  children_of s P = Some cs →
  (∀ q, parentNode nd = Obj q → is_Some (children_of s q)) →
  ∃ s',
    Dom5Ts.append P n s = Ok s'
    ∧ parent_of s' n = Some P
    ∧ (parentNode nd ≠ Obj P → children_of s' P = Some (cs ++ [n]))
    ∧ (∀ l1 l2, parentNode nd = Obj P → cs = l1 ++ n :: l2 → n ∉ l1 →
         children_of s' P = Some (l1 ++ l2 ++ [n])).
Proof.
  intros Hn Hfrag HP Hq.
  destruct (insertNode_node s P (Z.of_nat (length cs)) n nd false cs
              Hn Hfrag HP Hq) as (s' & Hrun & Hch & Hpar).
  cbv zeta in Hch, Hpar. exists s'. split_and!.
  - unfold Dom5Ts.append.
    pose proof HP as (pd & Hpd & Hpc)%children_of_Some.
    rewrite (deref_Some _ _ _ Hpd). run. rewrite Hpc. by run.
  - rewrite Hpar. rewrite decide_False by done. by rewrite decide_True.
  - intros Hne. rewrite Hch, decide_False by done.
    by rewrite splice_beyond.
  - intros l1 l2 He -> Hout. rewrite Hch, decide_True by done.
    rewrite splice_out by done.
    rewrite splice_beyond by (rewrite !length_app; simpl; lia).
    by rewrite <- app_assoc.
Qed.

Lemma append_moves_to_end_witness :
  ∃ s', Dom5Ts.append 0 1 paragraph = Ok s'
        ∧ children_of s' 0 = Some [2; 3; 4; 1].
Proof.
  destruct (append_moves_to_end paragraph 0 1 (text "a" (Obj 0)) [1; 2; 3; 4])
    as (s' & Hrun & _ & _ & Hch).
  - reflexivity.
  - reflexivity.
  - reflexivity.
  - intros q [= <-]. by eexists.
  - exists s'. split; [done|]. apply (Hch [] [2; 3; 4]); [done..|].
    apply not_elem_of_nil.
Defined.

(** X16: where [insertBefore] puts a node that is not a fragment.  A
    node from elsewhere, and a later sibling of the reference child, land
    immediately before the reference child.  An earlier sibling of the
    reference child lands immediately after it: the index is computed
    before the node is taken out of the array.  With a reference that is
    not a child of the parent, the node lands before the last child. *)
Theorem insertBefore_position s P ref n nd cs :
  s !! n = Some nd → isDocumentFragment nd = false →
  children_of s P = Some cs → NoDup cs →
  (∀ q, parentNode nd = Obj q → is_Some (children_of s q)) →
  ∃ s',
    Dom5Ts.insertBefore P ref n s = Ok s'
    ∧ parent_of s' n = Some P
    ∧ (∀ l1 l2, parentNode nd ≠ Obj P → cs = l1 ++ ref :: l2 →
         children_of s' P = Some (l1 ++ n :: ref :: l2))
    ∧ (∀ l1 l2 l3, parentNode nd = Obj P → cs = l1 ++ ref :: l2 ++ n :: l3 →
         children_of s' P = Some (l1 ++ n :: ref :: l2 ++ l3))
    ∧ (∀ l1 l2 l3, parentNode nd = Obj P → cs = l1 ++ n :: l2 ++ ref :: l3 →
         children_of s' P = Some (l1 ++ l2 ++ ref :: n :: l3))
    ∧ (parentNode nd ≠ Obj P → ref ∉ cs →
         children_of s' P
         = Some (take (length cs - 1) cs ++ n :: drop (length cs - 1) cs)).
Proof.
  intros Hn Hfrag HP Hnd Hq.
  destruct (insertNode_node s P (indexOf cs ref) n nd false cs
              Hn Hfrag HP Hq) as (s' & Hrun & Hch & Hpar).
  cbv zeta in Hch, Hpar. exists s'. split_and!.
  - unfold Dom5Ts.insertBefore.
    pose proof HP as (pd & Hpd & Hpc)%children_of_Some.
    rewrite (deref_Some _ _ _ Hpd). run. rewrite Hpc. by run.
  - rewrite Hpar. rewrite decide_False by done. by rewrite decide_True.
  - intros l1 l2 Hne ->. rewrite Hch, decide_False by done.
    apply NoDup_app in Hnd as (_ & Hd & _).
    rewrite indexOf_fresh_app by (intros ?; eapply Hd; [done|constructor]).
    by rewrite splice_at.
  - intros l1 l2 l3 He ->. rewrite Hch, decide_True by done.
    pose proof Hnd as (_ & Hd & Hnd2)%NoDup_app.
    rewrite indexOf_fresh_app by (intros ?; eapply Hd; [done|constructor]).
    assert (Heq : l1 ++ ref :: l2 ++ n :: l3 = (l1 ++ ref :: l2) ++ n :: l3)
      by (by rewrite <- app_assoc).
    assert (Hout : n ∉ l1 ++ ref :: l2).
    { rewrite Heq in Hnd. apply NoDup_app in Hnd as (_ & Hd' & _).
      intros ?. eapply Hd'; [done|constructor]. }
    rewrite Heq, splice_out by done. rewrite <- app_assoc.
    by rewrite splice_at.
  - intros l1 l2 l3 He ->. rewrite Hch, decide_True by done.
    pose proof Hnd as (_ & Hd & Hnd2)%NoDup_app.
    assert (Hout : n ∉ l1) by (intros ?; eapply Hd; [done|constructor]).
    rewrite splice_out by done.
    assert (Heq : l1 ++ n :: l2 ++ ref :: l3 = (l1 ++ n :: l2) ++ ref :: l3)
      by (by rewrite <- app_assoc).
    assert (Href : ref ∉ l1 ++ n :: l2).
    { rewrite Heq in Hnd. apply NoDup_app in Hnd as (_ & Hd' & _).
      intros ?. eapply Hd'; [done|constructor]. }
    rewrite Heq, indexOf_fresh_app by done.
    replace (length (l1 ++ n :: l2)) with (length (l1 ++ l2 ++ [ref]))
      by (rewrite !length_app; simpl; lia).
    replace (l1 ++ l2 ++ ref :: l3) with ((l1 ++ l2 ++ [ref]) ++ l3)
      by (by rewrite <- !app_assoc).
    rewrite splice_at. by rewrite <- !app_assoc.
  - intros Hne Hout. rewrite Hch, decide_False by done.
    rewrite indexOf_absent by done. rewrite splice_from_end.
    by rewrite Nat.add_0_r.
Qed.

Lemma insertBefore_position_witness :
  ∃ s', Dom5Ts.insertBefore 0 3 1 paragraph = Ok s'
        ∧ children_of s' 0 = Some [2; 3; 1; 4].
Proof.
  destruct (insertBefore_position paragraph 0 3 1 (text "a" (Obj 0))
              [1; 2; 3; 4])
    as (s' & Hrun & _ & _ & _ & Hch & _).
  - reflexivity.
  - reflexivity.
  - reflexivity.
  - apply (bool_decide_unpack _). by vm_compute.
  - intros q [= <-]. by eexists.
  - exists s'. split; [done|]. by apply (Hch [] [2] [4]).
Defined.

Lemma at_index_at {A} (l1 l2 : list A) :
  at_index (l1 ++ l2) (Z.of_nat (length l1)) = head l2.
Proof.
  unfold at_index. destruct (Z.ltb_spec (Z.of_nat (length l1)) 0); [lia|].
  rewrite Nat2Z.id, lookup_app_r, Nat.sub_diag by lia. by destruct l2.
Qed.

(** X17: what [replace] does with a new node that is not a fragment.  A
    node from elsewhere, and a later sibling of the old node, take the
    place of the old node, which loses its [parentNode].  With an earlier
    sibling of the old node, the old node stays a child: the new node lands
    after it, and it is the next sibling of the old node, if any, that
    leaves the array and loses its [parentNode]. *)
Theorem replace_position s old od P n nd cs :
  s !! old = Some od → parentNode od = Obj P →
  s !! n = Some nd → isDocumentFragment nd = false →
  children_of s P = Some cs → NoDup cs →
  (∀ q, parentNode nd = Obj q → is_Some (children_of s q)) →
  ∃ s',
    Dom5Ts.replace old n s = Ok s'
    ∧ (∀ l1 l2, parentNode nd ≠ Obj P → cs = l1 ++ old :: l2 →
         children_of s' P = Some (l1 ++ n :: l2)
         ∧ parent_of s' n = Some P ∧ parent_of s' old = None)
    ∧ (∀ l1 l2 l3, parentNode nd = Obj P → cs = l1 ++ old :: l2 ++ n :: l3 →
         children_of s' P = Some (l1 ++ n :: l2 ++ l3)
         ∧ parent_of s' n = Some P ∧ parent_of s' old = None)
    ∧ (∀ l1 l2 l3, parentNode nd = Obj P → cs = l1 ++ n :: l2 ++ old :: l3 →
         children_of s' P = Some (l1 ++ l2 ++ old :: n :: tail l3)
         ∧ parent_of s' n = Some P ∧ parent_of s' old = Some P
         ∧ ∀ c, head l3 = Some c → parent_of s' c = None).
Proof.
  intros Hold Hop Hn Hfrag HP Hnd Hq.
  destruct (insertNode_node s P (indexOf cs old) n nd true cs
              Hn Hfrag HP Hq) as (s' & Hrun & Hch & Hpar).
  cbv zeta in Hch, Hpar. exists s'.
  assert (Hpold : parent_of s old = Some P).
  { apply parent_of_Some. eauto. }
  split_and!.
  - unfold Dom5Ts.replace. rewrite (deref_Some _ _ _ Hold). run.
    rewrite Hop. cbn [truthy]. run.
    pose proof HP as (pd & Hpd & Hpc)%children_of_Some.
    rewrite (deref_Some _ _ _ Hpd). run. rewrite Hpc. by run.
  - intros l1 l2 Hne ->.
    assert (Hno : n ≠ old) by (intros ->; congruence).
    pose proof Hnd as (_ & Hd & _)%NoDup_app.
    assert (Hidx : indexOf (l1 ++ old :: l2) old = Z.of_nat (length l1)).
    { apply indexOf_fresh_app. intros ?. eapply Hd; [done|constructor]. }
    rewrite Hidx in Hch, Hpar. rewrite decide_False in Hch, Hpar by done.
    rewrite at_index_at in Hpar. cbn [head] in Hpar.
    split_and!.
    + by rewrite Hch, splice_at.
    + rewrite Hpar, decide_False by congruence. by rewrite decide_True.
    + by rewrite Hpar, decide_True.
  - intros l1 l2 l3 He ->.
    assert (Heq : l1 ++ old :: l2 ++ n :: l3 = (l1 ++ old :: l2) ++ n :: l3)
      by (by rewrite <- app_assoc).
    pose proof Hnd as (_ & Hd & _)%NoDup_app.
    assert (Hidx : indexOf (l1 ++ old :: l2 ++ n :: l3) old
                   = Z.of_nat (length l1)).
    { apply indexOf_fresh_app. intros ?. eapply Hd; [done|constructor]. }
    assert (Hout : n ∉ l1 ++ old :: l2).
    { rewrite Heq in Hnd. apply NoDup_app in Hnd as (_ & Hd' & _).
      intros ?. eapply Hd'; [done|constructor]. }
    assert (Hno : n ≠ old).
    { intros ->. apply Hout, elem_of_app. right. constructor. }
    rewrite Hidx in Hch, Hpar. rewrite decide_True in Hch, Hpar by done.
    rewrite Heq, splice_out in Hch, Hpar by done.
    rewrite <- app_assoc in Hch, Hpar.
    rewrite at_index_at in Hpar. cbn [head app] in Hpar.
    split_and!.
    + rewrite Hch.
      by rewrite (splice_at l1 ((old :: l2) ++ l3)).
    + rewrite Hpar, decide_False by congruence. by rewrite decide_True.
    + by rewrite Hpar, decide_True.
  - intros l1 l2 l3 He ->.
    assert (Heq : l1 ++ n :: l2 ++ old :: l3 = (l1 ++ n :: l2) ++ old :: l3)
      by (by rewrite <- app_assoc).
    pose proof Hnd as (_ & Hd & _)%NoDup_app.
    assert (Hout : n ∉ l1) by (intros ?; eapply Hd; [done|constructor]).
    assert (Hoo : old ∉ l1 ++ n :: l2).
    { rewrite Heq in Hnd. apply NoDup_app in Hnd as (_ & Hd' & _).
      intros ?. eapply Hd'; [done|constructor]. }
    assert (Hno : n ≠ old).
    { intros ->. apply Hoo, elem_of_app. right. constructor. }
    assert (Hl3 : ∀ c, head l3 = Some c → c ≠ old ∧ c ≠ n).
    { intros c Hc. destruct l3 as [|c' l3]; [done|]. injection Hc as ->.
      rewrite Heq in Hnd. apply NoDup_app in Hnd as (_ & Hd' & Hnd').
      apply NoDup_cons in Hnd' as [Hnd' _]. split.
      - intros ->. apply Hnd'. constructor.
      - intros ->. apply (Hd' n).
        + apply elem_of_app. right. constructor.
        + apply list_elem_of_further. constructor. }
    assert (Hidx : indexOf (l1 ++ n :: l2 ++ old :: l3) old
                   = Z.of_nat (length (l1 ++ l2 ++ [old]))).
    { rewrite Heq, indexOf_fresh_app by done.
      rewrite !length_app. simpl. f_equal. lia. }
    rewrite Hidx in Hch, Hpar. rewrite decide_True in Hch, Hpar by done.
    rewrite splice_out in Hch, Hpar by done.
    replace (l1 ++ l2 ++ old :: l3) with ((l1 ++ l2 ++ [old]) ++ l3)
      in Hch, Hpar by (by rewrite <- !app_assoc).
    rewrite at_index_at in Hpar.
    split_and!.
    + rewrite Hch, splice_at. rewrite <- !app_assoc. simpl.
      by destruct l3.
    + rewrite Hpar. destruct (decide (head l3 = Some n)) as [Hh|_].
      { by destruct (Hl3 n Hh). }
      by rewrite decide_True.
    + rewrite Hpar. destruct (decide (head l3 = Some old)) as [Hh|_].
      { by destruct (Hl3 old Hh). }
      by rewrite decide_False by done.
    + intros c Hc. by rewrite Hpar, decide_True.
Qed.

Lemma replace_position_witness :
  ∃ s', Dom5Ts.replace 2 1 paragraph = Ok s'
        ∧ children_of s' 0 = Some [2; 1; 4]
        ∧ parent_of s' 2 = Some 0 ∧ parent_of s' 3 = None.
Proof.
  destruct (replace_position paragraph 2 (text "b" (Obj 0)) 0 1
              (text "a" (Obj 0)) [1; 2; 3; 4])
    as (s' & Hrun & _ & _ & H3).
  - reflexivity.
  - reflexivity.
  - reflexivity.
  - reflexivity.
  - reflexivity.
  - apply (bool_decide_unpack _). by vm_compute.
  - intros q [= <-]. by eexists.
  - destruct (H3 [] [] [3; 4] eq_refl eq_refl) as (Hch & _ & Hold & Hnext).
    exists s'. split_and!; [done..|]. by apply Hnext.
Defined.

(** X18: for a node whose [parentNode] names a parent that does not list
    it, [remove] takes the last child out of the array of that parent, and
    [replace] puts the new node in the place of the last child; in both
    cases the [parentNode] of that last child is left as it was. *)
Theorem unlisted_node_costs_last_child s n nd P cs :
  s !! n = Some nd → parentNode nd = Obj P →
  children_of s P = Some cs → n ∉ cs →
  (∃ s',
     Dom5Ts.remove n s = Ok s'
     ∧ children_of s' P = Some (take (length cs - 1) cs)
     ∧ parent_of s' n = None
     ∧ ∀ c, c ≠ n → parent_of s' c = parent_of s c)
  ∧ ∀ m md,
      s !! m = Some md → isDocumentFragment md = false →
      truthy (parentNode md) = None →
      ∃ s',
        Dom5Ts.replace n m s = Ok s'
        ∧ children_of s' P = Some (take (length cs - 1) cs ++ [m])
        ∧ parent_of s' n = Some P
        ∧ ∀ c, c ≠ m → parent_of s' c = parent_of s c.
Proof.
  intros Hn Hp HP Hout. split.
  - destruct (remove_run s n nd Hn) as (s' & Hrun & Hch & Hpar & _).
    { intros q. rewrite Hp. intros [= <-]. by eexists. }
    exists s'. split_and!; [done|..].
    + rewrite Hch, decide_True, HP by done. cbn.
      rewrite indexOf_absent, splice_from_end by done. cbn [app].
      by rewrite drop_ge, app_nil_r by lia.
    + by rewrite Hpar, decide_True.
    + intros c Hc. by rewrite Hpar, decide_False.
  - intros m md Hm Hfrag Hmp.
    destruct (insertNode_node s P (indexOf cs n) m md true cs Hm Hfrag HP)
      as (s' & Hrun & Hch & Hpar).
    { intros q Hq. by rewrite Hq in Hmp. }
    cbv zeta in Hch, Hpar.
    rewrite decide_False in Hch, Hpar by (intros Hq; by rewrite Hq in Hmp).
    rewrite indexOf_absent in Hch, Hpar by done.
    change (at_index cs (-1)) with (@None id) in Hpar.
    exists s'. split_and!.
    + unfold Dom5Ts.replace. rewrite (deref_Some _ _ _ Hn). run.
      rewrite Hp. cbn [truthy]. run.
      pose proof HP as (pd & Hpd & Hpc)%children_of_Some.
      rewrite (deref_Some _ _ _ Hpd). run. rewrite Hpc. by run.
    + rewrite Hch, splice_from_end.
      by rewrite drop_ge, app_nil_r by lia.
    + rewrite Hpar, decide_False by done.
      rewrite decide_False.
      2:{ intros ->. assert (nd = md) as -> by congruence.
          by rewrite Hp in Hmp. }
      apply parent_of_Some. eauto.
    + intros c Hc. rewrite Hpar, decide_False by done.
      by rewrite decide_False.
Qed.

Lemma unlisted_node_costs_last_child_witness :
  (∃ s', Dom5Ts.remove 2 stray = Ok s' ∧ children_of s' 0 = Some [])
  ∧ ∃ s', Dom5Ts.replace 2 3 stray = Ok s'
          ∧ children_of s' 0 = Some [3] ∧ parent_of s' 1 = Some 0.
Proof.
  destruct (unlisted_node_costs_last_child stray 2 (text "b" (Obj 0)) 0 [1])
    as [(s1 & Hrun1 & Hch1 & _) Hrep].
  - reflexivity.
  - reflexivity.
  - reflexivity.
  - apply (bool_decide_unpack _). by vm_compute.
  - destruct (Hrep 3 (text "c" Null)) as (s2 & Hrun2 & Hch2 & _ & Hpar2);
      [reflexivity..|].
    split; [by exists s1|]. exists s2. split_and!; [done..|].
    by rewrite Hpar2.
Defined.

(** ** nodeWalkAllPrior *)

Lemma filter_thrown {A} (l : list A) e (p : A → res bool) m :
  Walking.filter (l, Thrown e) p m
  = (_ ← Walking.filter_in l p m; Throw e).
Proof. done. Qed.

(** X19: in a tree with consistent back-references whose root has no
    [parentNode], [nodeWalkAllPrior] of walking.ts puts the predicate to
    the node and then to every node before it, in reverse document order,
    and appends the accepted ones to [matches] in that order; when the
    predicate rejects the node itself, [nodeWalkPrior] returns the first
    node of that list.  Where the [parentNode] of the root is [null], the
    predicate is put to the same nodes and the call then throws a
    TypeError, [filter] running the iterator to its end. *)
Theorem nodeWalkAllPrior_reverse_document_order s t up n p m fuel :
  lays s t → parented up t → NoDup (preorder t) → n ∈ preorder t →
  size t < fuel →
  (up = Undefined →
   Walking.nodeWalkAllPrior fuel s n p m
   = Walking.filter_in (reverse (upto n (preorder t))) (p s) m
   ∧ (∀ f, (∀ x, x ∈ preorder t → p s x = Ok (f x)) →
        Walking.nodeWalkAllPrior fuel s n p m
        = Ok (m ++ filter (λ x, f x = true) (reverse (upto n (preorder t)))))
   ∧ (∀ r, p s n = Ok false →
        Walking.nodeWalkAllPrior fuel s n p [] = Ok r →
        Walking.nodeWalkPrior fuel s n p = Ok (head r)))
  ∧ (up = Null →
     Walking.nodeWalkAllPrior fuel s n p m
     = (_ ← Walking.filter_in (reverse (upto n (preorder t))) (p s) m;
        Throw TypeError)
     ∧ (∀ f, (∀ x, x ∈ preorder t → p s x = Ok (f x)) →
          Walking.nodeWalkAllPrior fuel s n p m = Throw TypeError)).
Proof.
  intros Hl Hp Hnd Hn Hfuel.
  assert (Hrev : reverse (upto n (preorder t))
                 = n :: reverse (before n (preorder t))).
  { by rewrite upto_before, reverse_app by done. }
  assert (Hin : ∀ x, x ∈ reverse (upto n (preorder t)) → x ∈ preorder t).
  { intros x Hx. rewrite elem_of_reverse in Hx.
    rewrite upto_before in Hx by done.
    apply elem_of_app in Hx as [Hx|Hx];
      [|by apply list_elem_of_singleton in Hx as ->].
    by eapply elem_of_before. }
  split; intros ->.
  - pose proof (iteratePrior_tree s t Undefined n fuel Hl Hp eq_refl Hnd Hn
                  Hfuel) as Hprior.
    assert (Hall : ∀ m, Walking.nodeWalkAllPrior fuel s n p m
              = Walking.filter_in (reverse (upto n (preorder t))) (p s) m).
    { intros m'.
      unfold Walking.nodeWalkAllPrior, Walking.iteratePriorIncludingNode.
      rewrite Hprior, Hrev. apply filter_finished. }
    split_and!.
    + apply Hall.
    + intros f Hf. rewrite Hall. apply filter_in_pure. auto.
    + intros r Hpn. rewrite Hall, Hrev. cbn [Walking.filter_in]. rewrite Hpn.
      run. intros (new & -> & Hfind & _)%filter_in_find_in.
      unfold Walking.nodeWalkPrior. by rewrite Hprior, find_finished.
  - pose proof (iteratePrior_tree s t Null n fuel Hl Hp eq_refl Hnd Hn
                  Hfuel) as Hprior.
    assert (Hall : Walking.nodeWalkAllPrior fuel s n p m
              = (_ ← Walking.filter_in (reverse (upto n (preorder t))) (p s) m;
                 Throw TypeError)).
    { unfold Walking.nodeWalkAllPrior, Walking.iteratePriorIncludingNode.
      rewrite Hprior, Hrev. apply filter_thrown. }
    split; [done|]. intros f Hf. rewrite Hall.
    by rewrite (filter_in_pure _ _ f) by auto.
Qed.

Lemma nodeWalkAllPrior_reverse_document_order_witness :
  Walking.nodeWalkAllPrior 7 sample 4 (on_node isElement) []
  = Walking.filter_in (reverse (upto 4 (preorder sample_tree)))
      (on_node isElement sample) [].
Proof.
  refine (proj1 (proj1 (nodeWalkAllPrior_reverse_document_order sample
                          sample_tree Undefined 4 (on_node isElement) [] 7
                          _ _ _ _ _) eq_refl)).
  - apply sample_lays.
  - apply sample_parented.
  - apply sample_NoDup.
  - apply (bool_decide_unpack _). by vm_compute.
  - simpl. lia.
Defined.

(** In the detached paragraph, whose [parentNode] is [null], the walk
    that finds a match returns it and the one that collects throws. *)
Example nodeWalkAllPrior_detached :
  Walking.nodeWalkPrior 6 paragraph 4 (on_node isElement) = Ok (Some 3)
  ∧ Walking.nodeWalkPrior 6 paragraph 4 (on_node isDocument)
    = Throw TypeError
  ∧ Walking.nodeWalkAllPrior 6 paragraph 4 (on_node isElement) []
    = Throw TypeError
  ∧ Dom5Ts.nodeWalkAllPrior 6 paragraph 4 (on_node isElement) []
    = Ok [3; 0].
Proof. by vm_compute. Qed.

(** ** Removing what was appended *)

Lemma with_parentNode_same nd : with_parentNode (parentNode nd) nd = nd.
Proof. by destruct nd. Qed.

Lemma alter_same {A} (f : A → A) (l : list A) i :
  (∀ x, l !! i = Some x → f x = x) → alter f i l = l.
Proof.
  intros Hf. apply list_eq. intros j. rewrite list_lookup_alter.
  destruct (decide (i = j)) as [->|]; [|done].
  destruct (l !! j) eqn:H; [|done]. cbn. by rewrite Hf.
Qed.

(** X20: [remove] is idempotent: removing a node that was just removed
    returns the store unchanged. *)
Theorem remove_is_idempotent n s s1 :
  Dom5Ts.remove n s = Ok s1 → Dom5Ts.remove n s1 = Ok s1.
Proof.
  intros (nd & Hn & Hcase)%remove_Ok_inv.
  assert (∃ nd1, s1 !! n = Some nd1 ∧ parentNode nd1 = Null)
    as (nd1 & Hn1 & Hp1).
  { destruct Hcase as [[_ ->]|(q & cs & _ & _ & ->)];
      unfold set_parentNode, set_childNodes.
    - rewrite list_lookup_alter, decide_True, Hn by done. by eexists.
    - rewrite list_lookup_alter, decide_True by done.
      rewrite list_lookup_alter.
      destruct (decide (q = n)) as [->|]; rewrite Hn; by eexists. }
  unfold Dom5Ts.remove. rewrite (deref_Some _ _ _ Hn1). run.
  rewrite Hp1. run. f_equal. unfold set_parentNode. apply alter_same.
  intros x Hx. assert (x = nd1) as -> by congruence.
  rewrite <- Hp1. apply with_parentNode_same.
Qed.

Lemma remove_is_idempotent_witness :
  ∃ s1, Dom5Ts.remove 2 sample = Ok s1 ∧ Dom5Ts.remove 2 s1 = Ok s1.
Proof.
  eexists. split; [reflexivity|].
  apply (remove_is_idempotent 2 sample). reflexivity.
Defined.

Lemma remove_parentless s n nd :
  s !! n = Some nd → truthy (parentNode nd) = None →
  Dom5Ts.remove n s = Ok (set_parentNode n Null s).
Proof.
  intros Hn Hp. unfold Dom5Ts.remove. rewrite (deref_Some _ _ _ Hn). run.
  by destruct (parentNode nd).
Qed.

(** X21: [remove] undoes [append]: appending a node without parent that
    the parent does not list and removing it again gives back the store as
    it was, but for the [parentNode] of the node, which is [null]
    afterwards: the very same store where it was [null] before. *)
Theorem remove_undoes_append s P n nd cs :
  s !! n = Some nd → isDocumentFragment nd = false →
  truthy (parentNode nd) = None →
  children_of s P = Some cs → n ∉ cs →
  ∃ s1,
    Dom5Ts.append P n s = Ok s1
    ∧ children_of s1 P = Some (cs ++ [n])
    ∧ Dom5Ts.remove n s1 = Ok (set_parentNode n Null s)
    ∧ (parentNode nd = Null → Dom5Ts.remove n s1 = Ok s).
Proof.
  intros Hn Hfrag Hp HP Hout.
  pose proof HP as (pd & Hpd & Hpc)%children_of_Some.
  set (s1 := set_parentNode n (Obj P)
               (set_childNodes P (cs ++ [n]) (set_parentNode n Null s))).
  assert (Hrun : Dom5Ts.append P n s = Ok s1).
  { unfold Dom5Ts.append. rewrite (deref_Some _ _ _ Hpd). run.
    rewrite Hpc. run. unfold Dom5Ts.insertNode. run.
    rewrite (deref_Some _ _ _ Hn). run. rewrite Hfrag.
    rewrite (remove_parentless _ _ _ Hn Hp). run.
    assert (HP0 : children_of (set_parentNode n Null s) P = Some cs)
      by (by rewrite children_of_set_parentNode).
    apply children_of_Some in HP0 as (pd0 & Hpd0 & Hpc0).
    rewrite (deref_Some _ _ _ Hpd0). run. rewrite Hpc0. run.
    by rewrite splice_beyond. }
  assert (HP1 : children_of s1 P = Some (cs ++ [n])).
  { unfold s1. rewrite children_of_set_parentNode, children_of_set_childNodes.
    rewrite decide_True by done.
    unfold set_parentNode. rewrite list_lookup_alter.
    destruct (decide (n = P)) as [->|]; by rewrite Hpd. }
  assert (∃ nd1, s1 !! n = Some nd1 ∧ parentNode nd1 = Obj P)
    as (nd1 & Hn1 & Hp1).
  { unfold s1, set_parentNode, set_childNodes.
    rewrite list_lookup_alter, decide_True by done.
    rewrite list_lookup_alter.
    destruct (decide (P = n)) as [->|];
      rewrite list_lookup_alter, decide_True, Hn by done; by eexists. }
  assert (Hback : Dom5Ts.remove n s1 = Ok (set_parentNode n Null s)).
  { unfold Dom5Ts.remove. rewrite (deref_Some _ _ _ Hn1). run. rewrite Hp1.
    pose proof HP1 as (pd1 & Hpd1 & Hpc1)%children_of_Some.
    rewrite (deref_Some _ _ _ Hpd1). run. rewrite Hpc1. run.
    rewrite indexOf_fresh_app, splice_at by done. cbn [drop app].
    rewrite app_nil_r. f_equal. apply list_eq. intros j.
    unfold s1, set_parentNode, set_childNodes. rewrite !list_lookup_alter.
    destruct (decide (n = j)) as [->|Hnj], (decide (P = j)) as [->|HPj];
      repeat first [rewrite decide_True by done|rewrite decide_False by done].
    - rewrite Hn in *. injection Hpd as <-.
      destruct nd. unfold with_parentNode, with_childNodes. cbn in *.
      congruence.
    - rewrite Hn.
      destruct nd. unfold with_parentNode, with_childNodes. cbn in *.
      congruence.
    - rewrite Hpd.
      destruct pd. unfold with_parentNode, with_childNodes. cbn in *.
      congruence.
    - done. }
  exists s1. split_and!; [done..|].
  intros Hnull. rewrite Hback. f_equal. unfold set_parentNode.
  apply alter_same. intros x Hx. assert (x = nd) as -> by congruence.
  rewrite <- Hnull. apply with_parentNode_same.
Qed.

Lemma remove_undoes_append_witness :
  ∃ s1,
    Dom5Ts.append 0 3 stray = Ok s1
    ∧ children_of s1 0 = Some [1; 3]
    ∧ Dom5Ts.remove 3 s1 = Ok stray.
Proof.
  destruct (remove_undoes_append stray 0 3 (text "c" Null) [1])
    as (s1 & H1 & H2 & _ & H3); [reflexivity..| |].
  - apply (bool_decide_unpack _). by vm_compute.
  - exists s1. split_and!; [done..|]. by apply H3.
Defined.

(** ** getTextContent of dom5.js *)

Lemma foldl_thrown {A B} (g : B → A → res A) e (cs : list B) :
  foldl (λ acc c, m ← acc; g c m) (Throw e) cs = Throw e.
Proof. induction cs as [|c cs IH]; [done|]. by cbn. Qed.

Lemma getTextContent_js_tree s t :
  lays s t → bare_texts t → isTextNode (record t) = false →
  ∀ fuel, height t ≤ fuel →
  Dom5Js.getTextContent fuel s (root t)
  = if arrays_everywhere t then Ok (String.concat "" (all_texts t))
    else Throw TypeError.
Proof.
  induction t as [i nd kids IH] using tree_induct.
  intros Hl Hb Ht fuel Hfuel.
  inversion Hl as [i' nd' kids' Hi Hcs Hkids]; subst.
  inversion Hb as [i' nd' kids' Hbare Hbk]; subst.
  cbn [record] in Ht.
  destruct fuel as [|fuel]; [simpl in Hfuel; lia|].
  cbn [Dom5Js.getTextContent root arrays_everywhere all_texts].
  rewrite (deref_Some _ _ _ Hi), Ht. run. cbn [orb app].
  destruct (childNodes nd) as [cs|]; subst; [|done].
  run. rewrite bool_decide_eq_true_2 by (by eexists). cbn [andb].
  assert (Hh : Forall (λ k, height k ≤ fuel) kids).
  { apply Forall_forall. intros k Hk.
    pose proof (height_kids i nd kids k Hk). lia. }
  clear Hfuel Hl Hi Hb Hbare Ht.
  enough (Hloop : ∀ acc,
    foldl (λ acc child,
             content ← acc;
             cd ← deref s child;
             if isTextNode cd then Ok (content +:+ value cd)
             else
               below ← Dom5Js.getTextContent fuel s child;
               Ok (content +:+ below))
          (Ok acc) (map root kids)
    = if forallb arrays_everywhere kids
      then Ok (acc +:+ String.concat "" (flat_map all_texts kids))
      else Throw TypeError) by apply (Hloop "").
  induction kids as [|k kids IHk]; intros acc.
  { cbn. by rewrite append_nil_r. }
  apply Forall_cons in IH as [IH1 IH2].
  apply Forall_cons in Hkids as [Hk1 Hk2].
  apply Forall_cons in Hbk as [Hb1 Hb2].
  apply Forall_cons in Hh as [Hh1 Hh2].
  cbn [map foldl flat_map forallb]. run.
  rewrite (deref_Some _ _ _ (lays_root _ _ Hk1)). run.
  rewrite concat_empty_app. rewrite <- append_assoc.
  destruct (isTextNode (record k)) eqn:Htk.
  - destruct k as [ki knd kkids]. cbn [record] in *.
    inversion Hk1 as [? ? ? _ Hkcs _]; subst.
    inversion Hb1 as [? ? ? Hkb _]; subst.
    rewrite (Hkb Htk) in Hkcs. subst kkids.
    cbn [arrays_everywhere all_texts flat_map forallb]. rewrite Htk.
    cbn [orb andb app]. rewrite IHk by done.
    change (String.concat "" [value knd]) with (value knd). done.
  - rewrite IH1 by done.
    destruct (arrays_everywhere k); run.
    + cbn [andb]. by rewrite IHk.
    + cbn [andb]. apply foldl_thrown.
Qed.

(** X22: [getTextContent] of dom5.js on a node other than a text node
    returns the values of all text nodes below it, concatenated in document
    order, exactly when every node of the subtree other than a text node
    has a [childNodes] array; otherwise (a comment below an element, as
    parse5 builds them) it throws a TypeError.  Where it returns, and the
    node is no comment, dom5.ts [getTextContent] returns the same. *)
Theorem getTextContent_js_needs_arrays s t fuel :
  lays s t → bare_texts t → isTextNode (record t) = false →
  height t ≤ fuel →
  Dom5Js.getTextContent fuel s (root t)
  = (if arrays_everywhere t then Ok (String.concat "" (all_texts t))
     else Throw TypeError)
  ∧ (arrays_everywhere t = true → isCommentNode (record t) = false →
     Dom5Ts.getTextContent (S fuel) s (root t)
     = Dom5Js.getTextContent fuel s (root t)).
Proof.
  intros Hl Hb Ht Hfuel.
  pose proof (getTextContent_js_tree s t Hl Hb Ht fuel Hfuel) as Hjs.
  split; [done|]. intros Harr Hc. rewrite Hjs, Harr.
  apply getTextContent_subtree; [done|lia|done..].
Qed.

Lemma getTextContent_js_needs_arrays_witness :
  Dom5Js.getTextContent 4 sample 1 = Ok "ab"
  ∧ Dom5Js.getTextContent 4 sample 0 = Throw TypeError.
Proof.
  split.
  - refine (proj1 (getTextContent_js_needs_arrays sample
             (Tree 1 (element "div" [2; 3] (Obj 0))
                [ Tree 2 (text "a" (Obj 1)) [];
                  Tree 3 (element "span" [4] (Obj 1))
                    [ Tree 4 (text "b" (Obj 3)) [] ] ]) 4 _ _ _ _)).
    + repeat (constructor; try done).
    + repeat (constructor; try done).
    + reflexivity.
    + simpl. lia.
  - refine (proj1 (getTextContent_js_needs_arrays sample sample_tree 4
                     _ _ _ _)).
    + repeat (constructor; try done).
    + repeat (constructor; try done).
    + reflexivity.
    + simpl. lia.
Defined.

(** ** nodeWalkPrior of dom5.ts *)

Lemma bind_twice {A} (r : res A) : (r ≫= λ _, r) = r.
Proof. by destruct r. Qed.

Lemma elders_outside above n t : n ∉ preorder t → elders above n t = None.
Proof.
  revert above. induction t as [i nd kids IH] using tree_induct.
  intros above. cbn [preorder elders].
  intros Hn. rewrite decide_False by (intros ->; apply Hn; constructor).
  assert (Hk : n ∉ flat_map preorder kids).
  { intros ?. apply Hn. by constructor. }
  clear Hn. generalize (@nil id).
  induction IH as [|k l Hk1 _ IHl]; intros earlier; [done|].
  cbn [flat_map] in Hk. rewrite Hk1.
  - apply IHl. intros ?. apply Hk, elem_of_app. by right.
  - intros ?. apply Hk, elem_of_app. by left.
Qed.

Lemma elders_kid i nd pre c post above n tested :
  i ≠ n → n ∉ flat_map preorder pre →
  elders (reverse (map root pre) ++ i :: above) n c = Some tested →
  elders above n (Tree i nd (pre ++ c :: post)) = Some tested.
Proof.
  intros Hne Hpre Hc. cbn [elders]. rewrite decide_False by done.
  rewrite <- (app_nil_r (reverse (map root pre))) in Hc.
  revert Hc. generalize (@nil id).
  induction pre as [|k pre IH]; intros earlier Hc.
  - cbn in Hc |- *. by rewrite Hc.
  - cbn [app flat_map] in *. rewrite elders_outside.
    2:{ intros ?. apply Hpre, elem_of_app. by left. }
    apply IH.
    + intros ?. apply Hpre, elem_of_app. by right.
    + cbn [map] in Hc. rewrite reverse_cons, <- !app_assoc in Hc.
      by rewrite <- app_assoc.
Qed.

Lemma walk_from_child s pred i nd cs above F0 :
  s !! i = Some nd → childNodes nd = Some cs → NoDup cs →
  (∀ c, c ∈ cs → ∃ cd, s !! c = Some cd ∧ parentNode cd = Obj i) →
  (∀ fuel, F0 ≤ fuel →
     Dom5Ts.nodeWalkPrior fuel s i pred = Walking.find_in above (pred s)) →
  ∀ k pre c post, length pre = k → cs = pre ++ c :: post →
  ∀ fuel, F0 + 1 + k ≤ fuel →
  Dom5Ts.nodeWalkPrior fuel s c pred
  = Walking.find_in (reverse pre ++ i :: above) (pred s).
Proof.
  intros Hi Hcs Hnd Hkids Hup k.
  induction k as [k IHk] using lt_wf_ind.
  intros pre c post Hlen -> [|f] Hfuel; [lia|].
  destruct (Hkids c) as (cd & Hc & Hcp).
  { apply elem_of_app. right. constructor. }
  cbn [Dom5Ts.nodeWalkPrior]. rewrite (deref_Some _ _ _ Hc). run.
  rewrite Hcp. rewrite (deref_Some _ _ _ Hi). run. rewrite Hcs. run.
  pose proof Hnd as (_ & Hd & _)%NoDup_app.
  rewrite indexOf_fresh_app by (intros ?; eapply Hd; [done|constructor]).
  unfold Dom5Ts.slice_to.
  rewrite splice_start_nat by (rewrite length_app; lia).
  rewrite take_app_length.
  set (K := λ r : option id,
         match r with
         | Some sibling => Ok (Some sibling)
         | None =>
             b ← pred s i;
             if b : bool then Ok (Some i)
             else Dom5Ts.nodeWalkPrior f s i pred
         end).
  change (Dom5Ts.walk_siblings (λ sib, Dom5Ts.nodeWalkPrior f s sib pred)
            s pred (reverse pre) ≫= K
          = Walking.find_in (reverse pre ++ i :: above) (pred s)).
  enough (Hw : ∀ pre1 pre2, pre = pre1 ++ pre2 →
            Dom5Ts.walk_siblings (λ sib, Dom5Ts.nodeWalkPrior f s sib pred)
              s pred (reverse pre1) ≫= K
            = Walking.find_in (reverse pre1 ++ i :: above) (pred s)).
  { apply (Hw pre []). by rewrite app_nil_r. }
  induction pre1 as [|y pre1 IH1] using rev_ind; intros pre2 Hpre.
  - cbn. rewrite Hup by lia. done.
  - rewrite reverse_app. cbn [reverse app Dom5Ts.walk_siblings Walking.find_in].
    change (reverse [y]) with [y]. cbn [app Dom5Ts.walk_siblings Walking.find_in].
    rewrite bind_assoc. destruct (pred s y) as [[]| |]; [done| |done..].
    run. rewrite bind_assoc.
    rewrite <- app_assoc in Hpre.
    rewrite (IH1 ([y] ++ pre2) Hpre).
    rewrite (IHk (length pre1)) with (pre := pre1) (post := pre2 ++ c :: post).
    + apply bind_twice.
    + subst pre. rewrite !length_app in Hlen. simpl in Hlen. lia.
    + done.
    + subst pre. by rewrite <- !app_assoc.
    + subst pre. rewrite !length_app in *. simpl in *. lia.
Qed.

Lemma roots_in_preorders (l : list tree) x :
  x ∈ map root l → x ∈ flat_map preorder l.
Proof.
  intros (k & -> & Hk)%list_elem_of_fmap.
  apply list_elem_of_In, in_flat_map. exists k.
  split; apply list_elem_of_In; [done|apply root_in_preorder].
Qed.

Lemma roots_NoDup (l : list tree) :
  NoDup (flat_map preorder l) → NoDup (map root l).
Proof.
  induction l as [|k l IH]; [constructor|].
  cbn [flat_map map]. intros (Hk & Hd & Hl)%NoDup_app.
  apply NoDup_cons. split; [|auto].
  intros Hin%roots_in_preorders. apply (Hd (root k)); [|done].
  apply root_in_preorder.
Qed.

Lemma roots_sublist (l : list tree) :
  map root l `sublist_of` flat_map preorder l.
Proof.
  induction l as [|[i nd kids] l IH]; [done|].
  cbn [map flat_map preorder root]. apply sublist_skip.
  by apply sublist_inserts_l.
Qed.

Lemma sublist_reverse {A} (l1 l2 : list A) :
  l1 `sublist_of` l2 → reverse l1 `sublist_of` reverse l2.
Proof.
  induction 1 as [|x l1 l2 _ IH|x l1 l2 _ IH]; [done| |].
  - rewrite !reverse_cons. by apply sublist_app.
  - rewrite reverse_cons. by apply sublist_inserts_r.
Qed.

Lemma length_le_sizes (pre : list tree) c post :
  length pre + size c
  ≤ foldr (λ k n, size k + n) 0 (pre ++ c :: post).
Proof.
  induction pre as [|k pre IH]; simpl; [lia|].
  destruct k. simpl in *. lia.
Qed.

Lemma nodeWalkPrior_subtree s t pred :
  lays s t → NoDup (preorder t) →
  ∀ p above F0, parented p t →
  (∀ fuel, F0 ≤ fuel →
     Dom5Ts.nodeWalkPrior fuel s (root t) pred
     = Walking.find_in above (pred s)) →
  ∀ n, n ∈ preorder t →
  ∃ mid,
    elders above n t = Some (mid ++ above)
    ∧ mid `sublist_of` reverse (before n (preorder t))
    ∧ ∀ fuel, F0 + size t ≤ fuel →
        Dom5Ts.nodeWalkPrior fuel s n pred
        = Walking.find_in (mid ++ above) (pred s).
Proof.
  induction t as [i nd kids IH] using tree_induct.
  intros Hlays Hnd p above F0 Hpar Hroot n Hn.
  cbn [preorder] in *. cbn [before].
  destruct (decide (i = n)) as [->|Hne].
  { exists []. cbn [elders app]. rewrite decide_True by done.
    split_and!; [done..|]. intros fuel Hfuel. apply Hroot. lia. }
  apply elem_of_cons in Hn as [?|Hn]; [done|].
  destruct (first_subtree_with n kids Hn) as (pre & c & post & -> & Hc & Hpre).
  inversion Hlays as [i' nd' kids' Hi Hcs Hkids]; subst.
  inversion Hpar as [p' i' nd' kids' Hp Hpkids]; subst.
  apply NoDup_cons in Hnd as [Hi_fresh Hnd].
  pose proof (roots_NoDup _ Hnd) as Hroots.
  rewrite flat_map_app in Hnd. simpl in Hnd.
  apply NoDup_app in Hnd as (Hnd_pre & Hdisj & Hnd_rest).
  apply NoDup_app in Hnd_rest as (Hnd_c & _ & _).
  rewrite Forall_forall in IH, Hkids, Hpkids.
  assert (Hcin : c ∈ pre ++ c :: post).
  { apply elem_of_app. right. apply list_elem_of_here. }
  pose proof (Hkids c Hcin) as Hlc. pose proof (Hpkids c Hcin) as Hpc.
  destruct (childNodes nd) as [cs|] eqn:Hcn; [|by destruct pre].
  subst cs.
  destruct (IH c Hcin Hlc Hnd_c (Obj i)
              (reverse (map root pre) ++ i :: above)
              (F0 + 1 + length pre) Hpc) with (n := n)
    as (mid & Held & Hsub & Hwalk); [|done|].
  { intros fuel Hfuel.
    rewrite (walk_from_child s pred i nd _ above F0 Hi Hcn Hroots)
      with (k := length pre) (pre := map root pre) (post := map root post).
    - done.
    - intros x (k & -> & Hk)%list_elem_of_fmap. exists (record k). split.
      + apply lays_root. by apply Hkids.
      + apply parented_root. by apply Hpkids.
    - intros f Hf. apply Hroot. lia.
    - apply length_map.
    - by rewrite map_app.
    - lia. }
  exists (mid ++ reverse (map root pre) ++ [i]).
  rewrite <- !app_assoc. cbn [app]. split_and!.
  - by apply elders_kid.
  - rewrite flat_map_app. cbn [flat_map].
    rewrite before_app_r, before_app_l by done.
    rewrite reverse_cons, reverse_app, <- app_assoc.
    apply sublist_app; [done|]. apply sublist_app; [|done].
    apply sublist_reverse, roots_sublist.
  - intros fuel Hfuel. apply Hwalk. cbn [size] in Hfuel.
    pose proof (length_le_sizes pre c post). lia.
Qed.

(** X23: in a tree with consistent back-references, [nodeWalkPrior] of
    dom5.ts returns the first node that the predicate accepts among the
    earlier siblings of the node, closest first, its parent, the earlier
    siblings of the parent, and so on up to the root, whose [parentNode]
    [up] is absent or [null].  These nodes are a subsequence of the nodes
    before the node in reverse document order; the descendants of the
    earlier siblings are not among them, the result of the recursive call
    on a sibling being dropped. *)
Theorem nodeWalkPrior_ts_tests_elders s t up n p fuel :
  lays s t → parented up t → truthy up = None → NoDup (preorder t) →
  n ∈ preorder t → size t < fuel →
  ∃ tested,
    elders [] n t = Some tested
    ∧ Dom5Ts.nodeWalkPrior fuel s n p = Walking.find_in tested (p s)
    ∧ tested `sublist_of` reverse (before n (preorder t)).
Proof.
  intros Hl Hp Hup Hnd Hn Hfuel.
  destruct (nodeWalkPrior_subtree s t p Hl Hnd up [] 1 Hp) with (n := n)
    as (mid & Held & Hsub & Hwalk); [|done|].
  { intros [|f] Hf; [lia|]. cbn [Dom5Ts.nodeWalkPrior].
    rewrite (deref_Some _ _ _ (lays_root _ _ Hl)). run.
    rewrite (parented_root _ _ Hp). by destruct up. }
  rewrite app_nil_r in *. exists mid. split_and!; [done| |done].
  apply Hwalk. lia.
Qed.

Lemma nodeWalkPrior_ts_tests_elders_witness :
  ∃ tested,
    elders [] 5 sample_tree = Some tested
    ∧ Dom5Ts.nodeWalkPrior 7 sample 5 (on_node isTextNode)
      = Walking.find_in tested (on_node isTextNode sample)
    ∧ tested `sublist_of` reverse (before 5 (preorder sample_tree)).
Proof.
  apply (nodeWalkPrior_ts_tests_elders sample sample_tree Undefined 5
           (on_node isTextNode) 7).
  - apply sample_lays.
  - apply sample_parented.
  - done.
  - apply sample_NoDup.
  - apply (bool_decide_unpack _). by vm_compute.
  - simpl. lia.
Defined.

(** ** What normalize achieves *)

Lemma normal_norm_shape sh : normal (norm_shape sh) = true.
Proof.
  induction sh as [lbl|lbl kids IH] using shape_induct.
  { rewrite norm_shape_unfold. destruct (isContainer lbl) eqn:Hc; simpl;
      by rewrite Hc. }
  rewrite norm_shape_unfold. destruct (isContainer lbl) eqn:Hc;
    [|simpl; by rewrite Hc].
  cbn [option_map normal]. rewrite Hc. unfold norm_kids.
  assert (Hinv : let st := foldr norm_step ("", []) kids in
            tidy st.2 = true
            ∧ forallb (λ k, isTextNode (shape_label k) || normal k) st.2 = true
            ∧ match st.2 with
              | k' :: _ => isTextNode (shape_label k') = false
              | [] => True
              end).
  { induction IH as [|k ks Hk _ IHks]; [done|].
    cbn [foldr]. cbv zeta in *.
    destruct IHks as (Ht & Hn & Hh).
    destruct (isTextNode (shape_label k)) eqn:Htk.
    - by rewrite norm_step_text.
    - rewrite norm_step_other by done. cbn [fst snd].
      assert (Hfl : tidy (flush (foldr norm_step ("", []) ks).1
                            (foldr norm_step ("", []) ks).2) = true
                ∧ forallb (λ k, isTextNode (shape_label k) || normal k)
                    (flush (foldr norm_step ("", []) ks).1
                       (foldr norm_step ("", []) ks).2) = true).
      { unfold flush.
        destruct (String.eqb (foldr norm_step ("", []) ks).1 "") eqn:He;
          [done|].
        cbn [tidy forallb shape_label]. cbn [Dom5Ts.newTextNode value].
        change (isTextNode (mkNode "#text" None _ "" None Null)) with true.
        cbn [orb andb]. rewrite He, Ht, Hn. cbn [negb andb].
        destruct (foldr norm_step ("", []) ks).2; [done|]. by rewrite Hh. }
      destruct Hfl as [Hft Hfn]. split_and!.
      + cbn [tidy]. by rewrite shape_label_norm, Htk, Hft.
      + cbn [forallb]. by rewrite Hk, Hfn, orb_true_r.
      + by rewrite shape_label_norm. }
  cbv zeta in Hinv. destruct Hinv as (Ht & Hn & Hh). unfold flush.
  destruct (String.eqb (foldr norm_step ("", []) kids).1 "") eqn:He.
  { by rewrite Ht, Hn. }
  cbn [tidy forallb shape_label]. cbn [Dom5Ts.newTextNode value].
  change (isTextNode (mkNode "#text" None _ "" None Null)) with true.
  cbn [orb andb]. rewrite He, Ht, Hn. cbn [negb andb].
  destruct (foldr norm_step ("", []) kids).2; [done|]. by rewrite Hh.
Qed.

(** X24: [normalize] leaves a normalized tree: among the children of the
    node, and of every container below that it reaches, no text node is
    empty and no two text nodes are next to each other. *)
Theorem normalize_leaves_normal_form s t fuel :
  lays s t → NoDup (preorder t) → arrays_present t → height t ≤ fuel →
  ∃ s1 t1,
    Dom5Ts.normalize fuel (root t) s = Ok s1
    ∧ lays s1 t1 ∧ root t1 = root t
    ∧ normal (shape_of t1) = true.
Proof.
  intros Hl Hnd Harr Hfuel.
  destruct (all_normalize t fuel s Hl Hnd Harr Hfuel)
    as (s1 & t1 & Hrun & Hl1 & Hr1 & Hsh & _).
  exists s1, t1. split_and!; [done..|].
  rewrite Hsh. apply normal_norm_shape.
Qed.

Lemma normalize_leaves_normal_form_witness :
  ∃ s1 t1,
    Dom5Ts.normalize 2 0 paragraph = Ok s1
    ∧ lays s1 t1 ∧ root t1 = 0
    ∧ normal (shape_of t1) = true.
Proof.
  apply (normalize_leaves_normal_form paragraph paragraph_tree 2).
  - repeat (constructor; try done).
  - apply (bool_decide_unpack _). by vm_compute.
  - apply paragraph_arrays.
  - simpl. lia.
Defined.

Lemma concat_flush txt d :
  String.concat "" (flat_map shape_texts (flush txt d))
  = txt +:+ String.concat "" (flat_map shape_texts d).
Proof.
  unfold flush. destruct (String.eqb_spec txt "") as [->|_]; [done|].
  cbn [flat_map shape_texts Dom5Ts.newTextNode value].
  change (isTextNode (Dom5Ts.newTextNode txt)) with true.
  cbn [app]. by rewrite concat_empty_cons.
Qed.

(** Text nodes without children, on structures. *)
Lemma shape_texts_of s t :
  lays s t → shape_texts (shape_of t) = all_texts t.
Proof.
  induction t as [i nd kids IH] using tree_induct.
  intros Hl. inversion Hl as [i' nd' kids' Hi Hcs Hkids]; subst.
  rewrite shape_of_unfold. cbn [shape_texts all_texts].
  change (isTextNode (label nd)) with (isTextNode nd).
  change (value (label nd)) with (value nd). f_equal.
  destruct (childNodes nd) as [cs|]; subst; [|done].
  clear Hi Hl. induction kids as [|k kids IHk]; [done|].
  apply Forall_cons in IH as [IH1 IH2].
  apply Forall_cons in Hkids as [Hk1 Hk2].
  cbn [map flat_map]. by rewrite IH1, IHk.
Qed.

Lemma bare_shape_of s t : lays s t → bare_texts t → bare (shape_of t) = true.
Proof.
  induction t as [i nd kids IH] using tree_induct.
  intros Hl Hb. inversion Hl as [i' nd' kids' Hi Hcs Hkids]; subst.
  inversion Hb as [i' nd' kids' Hbare Hbk]; subst.
  rewrite shape_of_unfold. cbn [bare].
  change (isTextNode (label nd)) with (isTextNode nd).
  destruct (childNodes nd) as [cs|]; [|done].
  destruct (isTextNode nd); [by specialize (Hbare eq_refl)|].
  cbn [negb andb]. clear Hi Hl Hb Hbare Hcs.
  induction kids as [|k kids IHk]; [done|].
  apply Forall_cons in IH as [IH1 IH2].
  apply Forall_cons in Hkids as [Hk1 Hk2].
  apply Forall_cons in Hbk as [Hb1 Hb2].
  cbn [map forallb]. by rewrite IH1, IHk.
Qed.

Lemma texts_norm_shape sh :
  bare sh = true →
  String.concat "" (shape_texts (norm_shape sh))
  = String.concat "" (shape_texts sh).
Proof.
  induction sh as [lbl|lbl kids IH] using shape_induct.
  { intros _. rewrite norm_shape_unfold. by destruct (isContainer lbl). }
  cbn [bare]. intros [Hlbl Hkids]%andb_true_iff.
  rewrite norm_shape_unfold. destruct (isContainer lbl); [|done].
  cbn [option_map shape_texts].
  destruct (isTextNode lbl); [done|]. cbn [app]. unfold norm_kids.
  rewrite concat_flush. clear Hlbl.
  induction IH as [|k ks Hk _ IHks]; [done|].
  cbn [forallb] in Hkids. apply andb_true_iff in Hkids as [Hbk Hbks].
  specialize (IHks Hbks). specialize (Hk Hbk).
  cbn [foldr flat_map]. rewrite concat_empty_app, <- IHks.
  destruct (isTextNode (shape_label k)) eqn:Htk.
  - rewrite norm_step_text by done. cbn [fst snd].
    destruct k as [klbl [kks|]]; cbn [shape_label bare] in *.
    { by rewrite Htk in Hbk. }
    cbn [shape_texts]. rewrite Htk, app_nil_r.
    change (String.concat "" [value klbl]) with (value klbl).
    by rewrite append_assoc.
  - rewrite norm_step_other by done. cbn [fst snd flat_map].
    rewrite concat_empty_app, concat_flush, Hk. done.
Qed.

(** X25: [normalize] does not change the text of a node: on a tree whose
    text nodes have no children, [getTextContent] of the root is the same
    string before and after. *)
Theorem normalize_keeps_text s t fuel :
  lays s t → NoDup (preorder t) → arrays_present t → bare_texts t →
  isTextNode (record t) = false → isCommentNode (record t) = false →
  height t ≤ fuel →
  ∃ s1,
    Dom5Ts.normalize fuel (root t) s = Ok s1
    ∧ Dom5Ts.getTextContent (S fuel) s (root t)
      = Ok (String.concat "" (all_texts t))
    ∧ Dom5Ts.getTextContent (S fuel) s1 (root t)
      = Ok (String.concat "" (all_texts t)).
Proof.
  intros Hl Hnd Harr Hb Ht Hc Hfuel.
  destruct (all_normalize t fuel s Hl Hnd Harr Hfuel)
    as (s1 & t1 & Hrun & Hl1 & Hr1 & Hsh & _ & _ & Hh1 & _).
  exists s1. split_and!; [done| |].
  - apply getTextContent_subtree; [done|lia|done..].
  - assert (Hlbl : label (record t1) = label (record t)).
    { by rewrite <- !shape_label_of, Hsh, shape_label_norm. }
    rewrite <- Hr1. rewrite (getTextContent_subtree s1 t1); [|done|lia|..].
    + rewrite <- (shape_texts_of s1 t1), Hsh by done.
      rewrite texts_norm_shape by (by eapply bare_shape_of).
      by rewrite (shape_texts_of s t).
    + change (isCommentNode (label (record t1)) = false). by rewrite Hlbl.
    + change (isTextNode (label (record t1)) = false). by rewrite Hlbl.
Qed.

Lemma normalize_keeps_text_witness :
  ∃ s1,
    Dom5Ts.normalize 2 0 paragraph = Ok s1
    ∧ Dom5Ts.getTextContent 3 paragraph 0 = Ok "abc"
    ∧ Dom5Ts.getTextContent 3 s1 0 = Ok "abc".
Proof.
  apply (normalize_keeps_text paragraph paragraph_tree 2).
  - repeat (constructor; try done).
  - apply (bool_decide_unpack _). by vm_compute.
  - apply paragraph_arrays.
  - repeat (constructor; try done).
  - reflexivity.
  - reflexivity.
  - simpl. lia.
Defined.

(** ** Combining predicates *)

(** X26: [AND], [OR] and [NOT] obey De Morgan's laws, for predicates that
    may throw as well.  [AND] stops at the first rule that answers [false]
    and [OR] at the first that answers [true], the rules after it not being
    called; where every rule returns, [AND] is the conjunction and [OR] the
    disjunction of the answers.  dom5.js has the same [AND] and [OR]. *)
Theorem predicates_de_morgan (rules : list Predicate) s n :
  Dom5Ts.NOT (Dom5Ts.AND rules) s n
  = Dom5Ts.OR (map Dom5Ts.NOT rules) s n
  ∧ Dom5Ts.NOT (Dom5Ts.OR rules) s n
    = Dom5Ts.AND (map Dom5Ts.NOT rules) s n
  ∧ (∀ passed rule rest,
       Forall (λ r : Predicate, r s n = Ok true) passed →
       rule s n = Ok false →
       Dom5Ts.AND (passed ++ rule :: rest) s n = Ok false)
  ∧ (∀ failed rule rest,
       Forall (λ r : Predicate, r s n = Ok false) failed →
       rule s n = Ok true →
       Dom5Ts.OR (failed ++ rule :: rest) s n = Ok true)
  ∧ (∀ fs, Forall2 (λ rule f, rule s n = Ok f) rules fs →
       Dom5Ts.AND rules s n = Ok (forallb (λ b, b) fs)
       ∧ Dom5Ts.OR rules s n = Ok (existsb (λ b, b) fs))
  ∧ Dom5Js.AND rules s n = Dom5Ts.AND rules s n
  ∧ Dom5Js.OR rules s n = Dom5Ts.OR rules s n.
Proof.
  split_and!.
  - induction rules as [|rule rules IH]; [done|].
    revert IH. unfold Dom5Ts.NOT. cbn [map Dom5Ts.AND Dom5Ts.OR].
    rewrite !bind_assoc. destruct (rule s n) as [[]| |]; run; try done.
  - induction rules as [|rule rules IH]; [done|].
    revert IH. unfold Dom5Ts.NOT. cbn [map Dom5Ts.AND Dom5Ts.OR].
    rewrite !bind_assoc. destruct (rule s n) as [[]| |]; run; try done.
  - intros passed rule rest Hp Hr.
    induction Hp as [|r passed Hr' _ IH]; cbn [app Dom5Ts.AND].
    + by rewrite Hr.
    + by rewrite Hr'.
  - intros failed rule rest Hp Hr.
    induction Hp as [|r failed Hr' _ IH]; cbn [app Dom5Ts.OR].
    + by rewrite Hr.
    + by rewrite Hr'.
  - induction 1 as [|rule f rules fs Hf _ [IHa IHo]]; [done|].
    cbn [Dom5Ts.AND Dom5Ts.OR forallb existsb]. rewrite Hf. run.
    by destruct f.
  - induction rules as [|rule rules IH]; [done|].
    cbn [Dom5Js.AND Dom5Ts.AND]. destruct (rule s n) as [[]| |]; by run.
  - induction rules as [|rule rules IH]; [done|].
    cbn [Dom5Js.OR Dom5Ts.OR]. destruct (rule s n) as [[]| |]; by run.
Qed.

(** ** Merging a run of text nodes *)

(** X27: [collapseTextRange] on a run of text-node children whose texts
    concatenate to a string that is not empty puts one new text node in the
    place of the run: its value is that string and its [parentNode] the
    parent; the children around the run keep their places and no other
    object is changed. *)
Theorem collapseTextRange_merges_run fuel i (l1 l2 : list id)
    (run : list tree) s nd :
  s !! i = Some nd →
  childNodes nd = Some (l1 ++ map root run ++ l2) →
  Forall (λ r, s !! root r = Some (record r)
               ∧ isTextNode (record r) = true) run →
  run_text run ≠ "" → 1 ≤ fuel →
  ∃ s',
    Dom5Ts.collapseTextRange fuel i (Z.of_nat (length l1))
      (Z.of_nat (length l1 + length run) - 1) s = Ok s'
    ∧ length s' = S (length s)
    ∧ children_of s' i = Some (l1 ++ length s :: l2)
    ∧ s' !! length s
      = Some (with_parentNode (Obj i) (Dom5Ts.newTextNode (run_text run)))
    ∧ Dom5Ts.getTextContent fuel s' (length s) = Ok (run_text run)
    ∧ ∀ j, j < length s → j ≠ i → s' !! j = s !! j.
Proof.
  intros Hi Hcs Hrun Hne Hfuel.
  destruct (collapseTextRange_run fuel i l1 l2 run s nd Hi Hcs Hrun)
    as (s' & Hcall & [_ Hframe] & Hcase); [done|].
  destruct (String.eqb_spec (run_text run) ""); [done|].
  destruct Hcase as (Hlen & Hi' & Hnew).
  exists s'. split_and!; [done..| |done| |].
  - unfold children_of. by rewrite Hi'.
  - by apply (getTextContent_text s' (length s) _ fuel Hnew).
  - intros j Hj Hji. apply Hframe; [done|].
    by intros ->%list_elem_of_singleton.
Qed.

Lemma collapseTextRange_merges_run_witness :
  ∃ s',
    Dom5Ts.collapseTextRange 1 0 (Z.of_nat 0) (Z.of_nat (0 + 2) - 1) paragraph
    = Ok s'
    ∧ children_of s' 0 = Some [5; 3; 4]
    ∧ Dom5Ts.getTextContent 1 s' 5 = Ok "ab".
Proof.
  destruct (collapseTextRange_merges_run 1 0 [] [3; 4]
              [Tree 1 (text "a" (Obj 0)) []; Tree 2 (text "b" (Obj 0)) []]
              paragraph (element "p" [1; 2; 3; 4] Null))
    as (s' & Hcall & _ & Hch & _ & Htext & _).
  - reflexivity.
  - reflexivity.
  - by repeat constructor.
  - by vm_compute.
  - lia.
  - by exists s'.
Defined.

(** ** nodeWalkAllPrior of dom5.ts *)

Lemma nodeWalkAll_children s p fuel (l : list tree) :
  Forall (lays s) l → Forall (λ k, height k ≤ fuel) l →
  ∀ m,
  foldl (λ acc child, m ← acc; Dom5Ts.nodeWalkAll fuel s child p m)
        (Ok m) (map root l)
  = Walking.filter_in (flat_map preorder l) (p s) m.
Proof.
  induction l as [|k l IH]; intros Hl Hh m; [done|].
  apply Forall_cons in Hl as [Hl1 Hl2]. apply Forall_cons in Hh as [Hh1 Hh2].
  cbn [map foldl flat_map]. rewrite filter_in_app, foldl_bind_step. run.
  rewrite nodeWalkAll_lays by done.
  destruct (Walking.filter_in (preorder k) (p s) m) as [m'| |]; [|done..].
  run. by apply IH.
Qed.

Lemma reverseNodeWalkAll_lays s k p fuel m :
  lays s k → height k ≤ S fuel →
  Dom5Ts._reverseNodeWalkAll fuel s (root k) p m
  = Walking.filter_in (half_reversed k) (p s) m.
Proof.
  intros Hl Hh. destruct k as [i nd kids].
  inversion Hl as [i' nd' kids' Hi Hcs Hkids]; subst.
  unfold Dom5Ts._reverseNodeWalkAll, half_reversed. cbn [root subtrees].
  rewrite (deref_Some _ _ _ Hi). run. rewrite filter_in_app.
  assert (Hkh : Forall (λ k, height k ≤ fuel) kids).
  { apply Forall_forall. intros k Hk.
    pose proof (height_kids i nd kids k Hk). lia. }
  destruct (childNodes nd) as [cs|]; subst; [|done].
  rewrite <- fmap_reverse.
  change (root <$> reverse kids) with (map root (reverse kids)).
  rewrite nodeWalkAll_children by (by apply Forall_reverse). done.
Qed.

Lemma reverseNodeWalkAll_siblings s p fuel (l : list tree) :
  Forall (lays s) l → Forall (λ k, height k ≤ S fuel) l →
  ∀ m,
  foldl (λ acc sibling,
           m ← acc; Dom5Ts._reverseNodeWalkAll fuel s sibling p m)
        (Ok m) (map root l)
  = Walking.filter_in (flat_map half_reversed l) (p s) m.
Proof.
  induction l as [|k l IH]; intros Hl Hh m; [done|].
  apply Forall_cons in Hl as [Hl1 Hl2]. apply Forall_cons in Hh as [Hh1 Hh2].
  cbn [map foldl flat_map]. rewrite filter_in_app, foldl_bind_step. run.
  rewrite reverseNodeWalkAll_lays by done.
  destruct (Walking.filter_in (half_reversed k) (p s) m) as [m'| |];
    [|done..].
  run. by apply IH.
Qed.

Lemma visited_prior_outside above n t :
  n ∉ preorder t → visited_prior above n t = None.
Proof.
  revert above. induction t as [i nd kids IH] using tree_induct.
  intros above. cbn [preorder visited_prior].
  intros Hn. rewrite decide_False by (intros ->; apply Hn; constructor).
  assert (Hk : n ∉ flat_map preorder kids).
  { intros ?. apply Hn. by constructor. }
  clear Hn. generalize (@nil id).
  induction IH as [|k l Hk1 _ IHl]; intros earlier; [done|].
  cbn [flat_map] in Hk. rewrite Hk1.
  - apply IHl. intros ?. apply Hk, elem_of_app. by right.
  - intros ?. apply Hk, elem_of_app. by left.
Qed.

Lemma visited_prior_kid i nd pre c post above n visited :
  i ≠ n → n ∉ flat_map preorder pre →
  visited_prior (flat_map half_reversed (reverse pre) ++ i :: above) n c
  = Some visited →
  visited_prior above n (Tree i nd (pre ++ c :: post)) = Some visited.
Proof.
  intros Hne Hpre Hc. cbn [visited_prior]. rewrite decide_False by done.
  rewrite <- (app_nil_r (flat_map half_reversed (reverse pre))) in Hc.
  revert Hc. generalize (@nil id).
  induction pre as [|k pre IH]; intros earlier Hc.
  - cbn in Hc |- *. by rewrite Hc.
  - cbn [app flat_map] in *. rewrite visited_prior_outside.
    2:{ intros ?. apply Hpre, elem_of_app. by left. }
    apply IH.
    + intros ?. apply Hpre, elem_of_app. by right.
    + rewrite reverse_cons, flat_map_app in Hc. cbn [flat_map] in Hc.
      rewrite app_nil_r, <- !app_assoc in Hc. by rewrite <- !app_assoc.
Qed.

Lemma flat_map_reverse_perm {A B} (f : A → list B) (l : list A) :
  flat_map f (reverse l) ≡ₚ flat_map f l.
Proof.
  induction l as [|x l IH]; [done|].
  rewrite reverse_cons, flat_map_app. cbn [flat_map].
  rewrite app_nil_r, IH. apply Permutation_app_comm.
Qed.

Lemma flat_map_perm {A B} (f g : A → list B) (l : list A) :
  (∀ x, f x ≡ₚ g x) → flat_map f l ≡ₚ flat_map g l.
Proof.
  intros Hfg. induction l as [|x l IH]; [done|].
  cbn [flat_map]. by rewrite Hfg, IH.
Qed.

Lemma half_reversed_perm t : half_reversed t ≡ₚ preorder t.
Proof.
  destruct t as [i nd kids]. unfold half_reversed. cbn [subtrees root preorder].
  rewrite flat_map_reverse_perm. symmetry. apply Permutation_cons_append.
Qed.

Lemma nodeWalkAllPrior_subtree s t pred :
  lays s t → NoDup (preorder t) →
  ∀ p above F0, parented p t →
  (∀ fuel m, F0 ≤ fuel →
     Dom5Ts.nodeWalkAllPrior fuel s (root t) pred m
     = Walking.filter_in (root t :: above) (pred s) m) →
  ∀ n, n ∈ preorder t →
  ∃ v,
    visited_prior above n t = Some (v ++ above)
    ∧ v ≡ₚ reverse (upto n (preorder t))
    ∧ head v = Some n
    ∧ ∀ fuel m, F0 + size t ≤ fuel →
        Dom5Ts.nodeWalkAllPrior fuel s n pred m
        = Walking.filter_in (v ++ above) (pred s) m.
Proof.
  induction t as [i nd kids IH] using tree_induct.
  intros Hlays Hnd p above F0 Hpar Hroot n Hn.
  cbn [preorder] in *. cbn [upto].
  destruct (decide (i = n)) as [->|Hne].
  { exists [n]. cbn [visited_prior app]. rewrite decide_True by done.
    split_and!; [done..|]. intros fuel m Hfuel. apply Hroot. lia. }
  apply elem_of_cons in Hn as [?|Hn]; [done|].
  destruct (first_subtree_with n kids Hn) as (pre & c & post & -> & Hc & Hpre).
  inversion Hlays as [i' nd' kids' Hi Hcs Hkids]; subst.
  inversion Hpar as [p' i' nd' kids' Hp Hpkids]; subst.
  apply NoDup_cons in Hnd as [Hi_fresh Hnd].
  pose proof (roots_NoDup _ Hnd) as Hroots.
  rewrite flat_map_app in Hnd. simpl in Hnd.
  apply NoDup_app in Hnd as (Hnd_pre & Hdisj & Hnd_rest).
  apply NoDup_app in Hnd_rest as (Hnd_c & _ & _).
  assert (Hcin : c ∈ pre ++ c :: post).
  { apply elem_of_app. right. apply list_elem_of_here. }
  pose proof (proj1 (Forall_forall _ _) Hkids c Hcin) as Hlc.
  pose proof (proj1 (Forall_forall _ _) Hpkids c Hcin) as Hpc.
  destruct (childNodes nd) as [cs|] eqn:Hcn; [|by destruct pre].
  subst cs.
  pose proof (size_kids i nd _ c Hcin) as Hsc.
  destruct (proj1 (Forall_forall _ _) IH c Hcin Hlc Hnd_c (Obj i)
              (flat_map half_reversed (reverse pre) ++ i :: above)
              (F0 + size (Tree i nd (pre ++ c :: post)) - size c) Hpc)
    with (n := n) as (v & Hvis & Hperm & Hhead & Hwalk); [|done|].
  { intros [|f] m Hfuel; [lia|].
    cbn [Dom5Ts.nodeWalkAllPrior Walking.filter_in].
    destruct (pred s (root c)) as [b| |]; [|done..]. run.
    rewrite (deref_Some _ _ _ (lays_root _ _ Hlc)). run.
    rewrite (parented_root _ _ Hpc).
    rewrite (deref_Some _ _ _ Hi). run. rewrite Hcn. run.
    rewrite map_app in *. cbn [map] in *.
    pose proof Hroots as (_ & Hd & _)%NoDup_app.
    rewrite indexOf_fresh_app by (intros ?; eapply Hd; [done|constructor]).
    unfold Dom5Ts.slice_to.
    rewrite splice_start_nat by (rewrite length_app; lia).
    rewrite take_app_length, <- fmap_reverse.
    change (root <$> reverse pre) with (map root (reverse pre)).
    apply Forall_app in Hkids as [Hkpre _].
    rewrite reverseNodeWalkAll_siblings.
    - rewrite filter_in_app.
      destruct (Walking.filter_in _ (pred s) _) as [m'| |]; [|done..].
      run. apply Hroot. lia.
    - by apply Forall_reverse.
    - apply Forall_reverse, Forall_forall. intros k Hk.
      pose proof (size_split i nd pre c post k Hk).
      pose proof (height_le_size k). lia. }
  exists (v ++ flat_map half_reversed (reverse pre) ++ [i]).
  rewrite <- !app_assoc. cbn [app]. split_and!.
  - by apply visited_prior_kid.
  - rewrite flat_map_app. cbn [flat_map].
    assert (Hup : upto n (flat_map preorder pre ++ preorder c
                          ++ flat_map preorder post)
                  = flat_map preorder pre ++ upto n (preorder c)).
    { rewrite upto_before by (apply elem_of_app; right; apply elem_of_app;
                              by left).
      rewrite before_app_r, before_app_l by done.
      by rewrite upto_before, app_assoc by done. }
    rewrite Hup, reverse_cons, reverse_app, <- app_assoc.
    rewrite Hperm. do 2 f_equiv.
    rewrite flat_map_reverse_perm, reverse_Permutation.
    apply flat_map_perm, half_reversed_perm.
  - destruct v; [done|]. done.
  - intros fuel m Hfuel. apply Hwalk. lia.
Qed.

(** X28: in a tree with consistent back-references, [nodeWalkAllPrior] of
    dom5.ts puts the predicate to the node first and then to every node
    before it in the document, each one once; below an earlier sibling the
    order is not the reverse document order, the children being taken from
    the last to the first but each of their subtrees in document order.
    The [parentNode] [up] of the root may be absent or [null]. *)
Theorem nodeWalkAllPrior_ts_visits_all_prior s t up n p m fuel :
  lays s t → parented up t → truthy up = None → NoDup (preorder t) →
  n ∈ preorder t → size t < fuel →
  ∃ visited,
    visited_prior [] n t = Some visited
    ∧ Dom5Ts.nodeWalkAllPrior fuel s n p m
      = Walking.filter_in visited (p s) m
    ∧ head visited = Some n
    ∧ visited ≡ₚ reverse (upto n (preorder t)).
Proof.
  intros Hl Hp Hup Hnd Hn Hfuel.
  destruct (nodeWalkAllPrior_subtree s t p Hl Hnd up [] 1 Hp) with (n := n)
    as (v & Hvis & Hperm & Hhead & Hwalk); [|done|].
  { intros [|f] m' Hf; [lia|].
    cbn [Dom5Ts.nodeWalkAllPrior Walking.filter_in].
    destruct (p s (root t)) as [b| |]; [|done..]. run.
    rewrite (deref_Some _ _ _ (lays_root _ _ Hl)). run.
    rewrite (parented_root _ _ Hp). by destruct up. }
  rewrite app_nil_r in *. exists v. split_and!; [done| |done..].
  apply Hwalk. lia.
Qed.

Lemma nodeWalkAllPrior_ts_visits_all_prior_witness :
  ∃ visited,
    visited_prior [] 5 sample_tree = Some visited
    ∧ Dom5Ts.nodeWalkAllPrior 7 sample 5 always []
      = Walking.filter_in visited (always sample) []
    ∧ head visited = Some 5
    ∧ visited ≡ₚ reverse (upto 5 (preorder sample_tree)).
Proof.
  apply (nodeWalkAllPrior_ts_visits_all_prior sample sample_tree Undefined 5
           always [] 7).
  - apply sample_lays.
  - apply sample_parented.
  - done.
  - apply sample_NoDup.
  - apply (bool_decide_unpack _). by vm_compute.
  - simpl. lia.
Defined.

(** The order is not the reverse document order: below the earlier sibling
    [div] of the comment, the text "a" comes before the element [span] and
    its text "b". *)
Example nodeWalkAllPrior_ts_order :
  Dom5Ts.nodeWalkAllPrior 7 sample 5 always [] = Ok [5; 3; 4; 2; 1; 0]
  ∧ Walking.nodeWalkAllPrior 7 sample 5 always [] = Ok [5; 4; 3; 2; 1; 0].
Proof. by vm_compute. Qed.

(** ** previousSiblings *)

(** X29: [previousSiblings] yields the children that the parent lists
    before the first place of the node, the closest first, and returns; for
    a node without a [parentNode] it yields nothing and returns, but for a
    node whose [parentNode] is [null] it throws a TypeError; for a node
    whose parent has no [childNodes] array it throws the error "parent does
    not have children". *)
Theorem previousSiblings_closest_first s n nd :
  s !! n = Some nd →
  (parentNode nd = Undefined → Iteration.previousSiblings s n = ([], Done))
  ∧ (parentNode nd = Null →
     Iteration.previousSiblings s n = ([], Thrown TypeError))
  ∧ (∀ p l1 l2, parentNode nd = Obj p →
       children_of s p = Some (l1 ++ n :: l2) → n ∉ l1 →
       Iteration.previousSiblings s n = (reverse l1, Done))
  ∧ (∀ p pd, parentNode nd = Obj p → s !! p = Some pd →
       childNodes pd = None →
       Iteration.previousSiblings s n
       = ([], Thrown (InconsistentTree
            "Inconsistent parse5 tree: parent does not have children"))).
Proof.
  intros Hn. unfold Iteration.previousSiblings. rewrite Hn. split_and!.
  - by intros ->.
  - by intros ->.
  - intros p l1 l2 -> (pd & -> & ->)%children_of_Some Hout.
    rewrite indexOf_fresh_app by done.
    destruct (Z.eqb_spec (Z.of_nat (length l1)) (-1)); [lia|].
    unfold Iteration.reversedView.
    replace (Z.to_nat (Z.of_nat (length l1) - 1 + 1)) with (length l1) by lia.
    by rewrite take_app_length.
  - by intros p pd -> -> ->.
Qed.

Lemma previousSiblings_closest_first_witness :
  Iteration.previousSiblings paragraph 3 = ([2; 1], Done).
Proof.
  destruct (previousSiblings_closest_first paragraph 3
              (element "br" [] (Obj 0)) eq_refl) as (_ & _ & H & _).
  apply (H 0 [1; 2] [4] eq_refl eq_refl).
  apply (bool_decide_unpack _). by vm_compute.
Defined.
